(** * reelnn-backend: the client-pool lifecycle of [app.py]

    A shallow embedding of [app.py] (client start-up, the workload registry,
    supervision of the cache task, shutdown) and the properties of it that
    the specification states.

    Layout:
    - [PyDict]: Python's insertion-ordered [dict], as used for
      [CLIENTS_CONFIG], [multi_clients] and [work_loads];
    - the coroutine syntax [coro]: an [async def] body is a finite tree whose
      nodes are synchronous effects, reads of the shared state, [await]s
      of external awaitables, [create_task], [gather] and
      [add_done_callback];
    - the functions of [app.py], written in that syntax;
    - the event loop: tasks, a cooperative scheduler driven by a schedule,
      [run_until_complete], the [__main__] block;
    - the vocabulary of the properties, then the lemmas and theorems.

    The collaborators (the client library, the notification channel, the
    cache updater, the web server) are a parameter [env]: it decides how
    each awaitable settles, knowing all that has happened so far.  As under
    asyncio a task runs without interruption from one suspension to the
    next; which task takes the next turn, and when a signal arrives, is
    left to the schedule, so that a statement about every schedule covers
    every order in which the awaitables can settle.  A signal is taken
    to arrive while the loop waits between two turns.  The counters of
    [work_loads] are also moved by the request dispatcher of the web
    server, which is not part of [app.py]: the properties below speak of
    the keys of the registry and of what [app.py] itself writes. *)

From Stdlib Require Import ZArith List String Bool Lia Arith.
Import ListNotations.

Set Implicit Arguments.

(* ================================================================== *)
(** ** Python dictionaries *)
(* ================================================================== *)

(** Keys need a boolean equality. *)
Class EqKey (K : Type) := {
  keqb : K -> K -> bool;
  keqb_spec : forall a b, reflect (a = b) (keqb a b)
}.

#[export] Instance EqKey_Z : EqKey Z := {| keqb := Z.eqb; keqb_spec := Z.eqb_spec |}.
#[export] Instance EqKey_string : EqKey string :=
  {| keqb := String.eqb; keqb_spec := String.eqb_spec |}.

Module PyDict.
Section Dict.
Context {K V : Type} `{EqKey K}.

(** A [dict] keeps its items in insertion order. *)
Definition dict := list (K * V).

(** [d.get(k)] *)
Fixpoint get (k : K) (d : dict) : option V :=
  match d with
  | [] => None
  | (k', v) :: d' => if keqb k k' then Some v else get k d'
  end.

(** [d[k] = v]: an existing key keeps its position, a new one goes last. *)
Fixpoint set (k : K) (v : V) (d : dict) : dict :=
  match d with
  | [] => [(k, v)]
  | (k', v') :: d' => if keqb k k' then (k, v) :: d' else (k', v') :: set k v d'
  end.

(** [d.update(other)] *)
Definition update (d other : dict) : dict :=
  fold_left (fun acc kv => set (fst kv) (snd kv) acc) other d.

(** [d.items()], [d.keys()], [len(d)], [bool(d)] *)
Definition items (d : dict) : list (K * V) := d.
Definition keys (d : dict) : list K := map fst d.
Definition len (d : dict) : nat := List.length d.
Definition truthy (d : dict) : bool := negb (Nat.eqb (len d) 0).

(** A dictionary literal or comprehension: later items overwrite. *)
Definition of_items (l : list (K * V)) : dict := update [] l.
End Dict.
Arguments dict : clear implicits.
End PyDict.
Import PyDict.

(* ================================================================== *)
(** ** Values, exceptions, log records *)
(* ================================================================== *)

(** Configuration values ([API_ID] is an [int], the other two are [str]). *)
Inductive pyval :=
| VInt (n : Z)
| VStr (s : string).

(** The connection parameters of one client: a [dict] keyed by
    ["API_ID"], ["API_HASH"], ["BOT_TOKEN"]. *)
Definition conf := dict string pyval.

(** [name="bot"] for the primary client, [name=str(client_id)] otherwise. *)
Inductive cname :=
| NameBot
| NameOf (client_id : Z).

(** A client object.  [ClientObj] stands for the object that the call
    [Client(name=..., api_id=..., api_hash=..., bot_token=...)] builds
    and records the arguments of that call, which is all that [app.py]
    knows of it; [Started] is an object handed back by the client library
    (the result of [await Client(...).start()]).  Both are plain objects,
    hence truthy. *)
Inductive Handle :=
| ClientObj (name : cname) (api_id api_hash bot_token : pyval)
| Started (ident : nat).

(** Instances of [Exception], which is what [except Exception] catches.
    [ExtError] stands for whatever the client library, the cache updater
    or the web server raise.  ([KeyboardInterrupt] and the other
    exceptions outside [Exception] are not modelled: [__main__] installs
    its own handler for SIGINT and SIGTERM.) *)
Inductive exn :=
| KeyError (key : string)
| TypeError (what : string)
| RuntimeError (what : string)
| ExtError (code : nat).

(** An f-string: literal pieces and interpolated values. *)
Inductive frag :=
| Lit (s : string)
| Int (n : Z)
| Count (n : nat)
| Exc (e : exn)
| PyNone.
Definition msg := list frag.

Inductive level := INFO | ERROR.

Definition tid := nat.

(** The awaitables of the collaborators, on which a task suspends. *)
Inductive call :=
| CStart (c : Handle)                   (* await c.start() *)
| CStop (c : Handle)                    (* await c.stop() *)
| CSendInfo (m : msg)                   (* await send_info(bot, m) *)
| CSendError (m : msg) (cause : option exn) (* await send_error(bot, m, cause) *)
| CIdle                                 (* await idle() *)
| CCacheUpdater                         (* cache_manager.start_cache_updater() *)
| CServe.                               (* web.serve() *)

(** How an awaitable settles: it returns an object or raises. *)
Inductive outcome :=
| Ok (h : Handle)
| Err (e : exn).

(** The coroutines that [app.py] hands to [create_task]. *)
Inductive task_spec :=
| TStartClient (client_id : Z) (client_conf : conf)   (* start_client(i, conf) *)
| TCacheUpdater                                       (* start_cache_updater() *)
| TServe                                              (* serve() *)
| TShutdown (sig : Z).                                (* shutdown() of signal_handler(sig) *)

(** The done-callbacks that [app.py] attaches to a task. *)
Inductive callback :=
| CacheCrashCallback.   (* lambda t: handle_cache_crash(t) if t.exception() else None *)

(** What is observable of a run. *)
Inductive event :=
| EvLog (lvl : level) (m : msg)           (* LOGGER.info / LOGGER.error *)
| EvCreateTask (t : tid) (s : task_spec)  (* create_task(...) gave task t *)
| EvCall (t : tid) (c : call)             (* task t issued c and suspended *)
| EvRet (t : tid) (c : call) (o : outcome) (* c settled, task t resumed *)
| EvCloseConnections                      (* close_connections() *)
| EvLoopStop.                             (* loop.stop() *)

(** The value a task returns: [None], or the pair of [start_client]. *)
Definition task_result := option (Z * Handle).

(* ================================================================== *)
(** ** Coroutines *)
(* ================================================================== *)

(** Synchronous effects on the process state. *)
Inductive action :=
| Log (lvl : level) (m : msg)
| SetClient (k : Z) (h : Handle)            (* multi_clients[k] = h *)
| SetWorkLoad (k : Z) (v : Z)               (* work_loads[k] = v *)
| UpdateClients (d : dict Z Handle)         (* multi_clients.update(d) *)
| CloseConnections                          (* close_connections() *)
| LoopStop.                                 (* loop.stop() *)

(** The body of an [async def]. *)
Inductive coro (A : Type) : Type :=
| Ret (a : A)
| Raise (e : exn)
| Do (a : action) (k : coro A)
| GetClients (k : dict Z Handle -> coro A)
| Await (c : call) (k : outcome -> coro A)
| CreateTask (s : task_spec) (k : tid -> coro A)
| Gather (ts : list tid) (k : list task_result + exn -> coro A)
| AddDoneCallback (t : tid) (cb : callback) (k : coro A).

Arguments Ret {A} a.
Arguments Raise {A} e.
Arguments Do {A} a k.
Arguments GetClients {A} k.
Arguments Await {A} c k.
Arguments CreateTask {A} s k.
Arguments Gather {A} ts k.
Arguments AddDoneCallback {A} t cb k.

(** Sequencing. *)
Fixpoint bind {A B} (p : coro A) (f : A -> coro B) : coro B :=
  match p with
  | Ret a => f a
  | Raise e => Raise e
  | Do a k => Do a (bind k f)
  | GetClients k => GetClients (fun d => bind (k d) f)
  | Await c k => Await c (fun o => bind (k o) f)
  | CreateTask s k => CreateTask s (fun t => bind (k t) f)
  | Gather ts k => Gather ts (fun r => bind (k r) f)
  | AddDoneCallback t cb k => AddDoneCallback t cb (bind k f)
  end.

(** [try: p  except Exception as e: h e] *)
Fixpoint try_except {A} (p : coro A) (h : exn -> coro A) : coro A :=
  match p with
  | Ret a => Ret a
  | Raise e => h e
  | Do a k => Do a (try_except k h)
  | GetClients k => GetClients (fun d => try_except (k d) h)
  | Await c k => Await c (fun o => try_except (k o) h)
  | CreateTask s k => CreateTask s (fun t => try_except (k t) h)
  | Gather ts k => Gather ts (fun r => try_except (k r) h)
  | AddDoneCallback t cb k => AddDoneCallback t cb (try_except k h)
  end.

Declare Scope coro_scope.
Delimit Scope coro_scope with coro.
Notation "x <- p ;; q" := (bind p (fun x => q))
  (at level 61, p at next level, right associativity) : coro_scope.
Notation "p ;; q" := (bind p (fun _ => q))
  (at level 61, right associativity) : coro_scope.
Open Scope coro_scope.

(** One statement each. *)
Definition do (a : action) : coro unit := Do a (Ret tt).
Definition LOGGER_info (m : msg) : coro unit := do (Log INFO m).
Definition LOGGER_error (m : msg) : coro unit := do (Log ERROR m).

(** [await c]: the value the awaitable returns, or its exception. *)
Definition resume_with (o : outcome) : coro Handle :=
  match o with
  | Ok h => Ret h
  | Err e => Raise e
  end.
Definition await (c : call) : coro Handle := Await c resume_with.

(** [d[key]] on a configuration: [KeyError] when the key is missing. *)
Definition getitem (d : conf) (key : string) : coro pyval :=
  match get key d with
  | Some v => Ret v
  | None => Raise (KeyError key)
  end.

(** Modelled from the spec: [utils.telegram_logger] is not part of the
    sources at hand.  Its two operations are best-effort: a failure of the
    delivery is logged there and not propagated, so the awaiting coroutine
    always resumes normally. *)
Definition send_info (m : msg) : coro unit :=
  Await (CSendInfo m) (fun _ => Ret tt).
Definition send_error (m : msg) (cause : option exn) : coro unit :=
  Await (CSendError m cause) (fun _ => Ret tt).

(** Modelled from the spec: [utils.db_utils.mongo_client.close_connections]
    is not part of the sources at hand; it is idempotent and safe to call
    even when nothing was opened.  [shutdowndb] calls it without awaiting
    anything. *)
Definition shutdowndb : coro unit := do CloseConnections.

(** [create_task(c)], [await gather(...)], [t.add_done_callback(cb)],
    a read of [multi_clients]. *)
Definition create_task (s : task_spec) : coro tid := CreateTask s (fun t => Ret t).
Definition gathered (r : list task_result + exn) : coro (list task_result) :=
  match r with
  | inl l => Ret l
  | inr e => Raise e
  end.
Definition gather (ts : list tid) : coro (list task_result) := Gather ts gathered.
Definition add_done_callback (t : tid) (cb : callback) : coro unit :=
  AddDoneCallback t cb (Ret tt).
Definition get_clients : coro (dict Z Handle) := GetClients (fun d => Ret d).

(** [bool(client)] for a client object: it defines neither [__bool__] nor
    [__len__]. *)
Definition handle_truthy (h : Handle) : bool := true.

(** [task.exception()] of a task that is done. *)
Definition task_exception (r : task_result + exn) : option exn :=
  match r with
  | inl _ => None
  | inr e => Some e
  end.

Definition frag_of_exception (e : option exn) : frag :=
  match e with
  | Some x => Exc x
  | None => PyNone
  end.

(* ================================================================== *)
(** ** The functions of [app.py] *)
(* ================================================================== *)

Section App.

(** [from config import CLIENTS_CONFIG]; [bot] is the module-level client
    built from the entry for identifier 0 (see [make_bot] below). *)
Variable CLIENTS_CONFIG : dict Z conf.
Variable bot : Handle.

(** [async def start_client(client_id, client_conf)] *)
Definition start_client (client_id : Z) (client_conf : conf) : coro task_result :=
  try_except
    (LOGGER_info [Lit "Starting - Bot Client "; Int client_id] ;;
     api_id <- getitem client_conf "API_ID" ;;
     api_hash <- getitem client_conf "API_HASH" ;;
     bot_token <- getitem client_conf "BOT_TOKEN" ;;
     client <- await (CStart (ClientObj (NameOf client_id) api_id api_hash bot_token)) ;;
     do (SetWorkLoad client_id 0) ;;
     Ret (Some (client_id, client)))
    (fun e =>
       LOGGER_error [Lit "Failed to start Client - "; Int client_id;
                     Lit " Error: "; Exc e] ;;
       Ret None).

(** [{cid: conf for cid, conf in CLIENTS_CONFIG.items() if cid != 0}] *)
Definition additional_clients_conf : dict Z conf :=
  of_items (filter (fun kv => negb (fst kv =? 0)%Z) (items CLIENTS_CONFIG)).

(** [[create_task(start_client(i, conf)) for i, conf in ....items()]] *)
Fixpoint create_start_tasks (l : list (Z * conf)) : coro (list tid) :=
  match l with
  | [] => Ret []
  | (i, c) :: l' =>
      t <- create_task (TStartClient i c) ;;
      ts <- create_start_tasks l' ;;
      Ret (t :: ts)
  end.

(** [{client_id: client for client_id, client in clients if client}]:
    every element is unpacked into two names before the filter sees it. *)
Fixpoint collect_clients (clients : list task_result) (acc : dict Z Handle)
  : coro (dict Z Handle) :=
  match clients with
  | [] => Ret acc
  | None :: _ => Raise (TypeError "cannot unpack non-iterable NoneType object")
  | Some (client_id, client) :: rest =>
      if handle_truthy client
      then collect_clients rest (set client_id client acc)
      else collect_clients rest acc
  end.

(** [async def initialize_clients()] *)
Definition initialize_clients : coro unit :=
  try_except
    (do (SetClient 0 bot) ;;
     do (SetWorkLoad 0 0) ;;
     LOGGER_info [Lit "Default client initialized successfully"])
    (fun e =>
       LOGGER_error [Lit "Failed to initialize default client: "; Exc e] ;;
       do (SetClient 0 bot) ;;
       do (SetWorkLoad 0 0)) ;;
  if negb (truthy additional_clients_conf) then
    LOGGER_info [Lit "No additional Bot Clients found, Using default client"]
  else
    n <- create_start_tasks (items additional_clients_conf) ;;
    clients <- gather n ;;
    clients <- collect_clients clients [] ;;
    do (UpdateClients clients) ;;
    mc <- get_clients ;;
    if (1 <? len mc)%nat then
      LOGGER_info [Lit "Multi-Client Mode Enabled with "; Count (len mc); Lit " clients"]
    else
      LOGGER_info [Lit "No additional clients were initialized, using default client"].

(** [async def handle_cache_crash(task)] *)
Definition handle_cache_crash (task : task_result + exn) : coro unit :=
  let exception := task_exception task in
  let error_message := [Lit "Cache manager crashed: "; frag_of_exception exception] in
  LOGGER_error error_message ;;
  send_error [Lit "❌ Cache manager crashed"] exception.

(** [async def init()] *)
Definition init : coro unit :=
  await (CStart bot) ;;
  LOGGER_info [Lit "Bot Started Successfully!"] ;;
  initialize_clients ;;
  LOGGER_info [Lit "Starting cache manager..."] ;;
  cache_task <- create_task TCacheUpdater ;;
  add_done_callback cache_task CacheCrashCallback ;;
  LOGGER_info [Lit "Initializing Web Server..."] ;;
  create_task TServe ;;
  LOGGER_info [Lit "Backend Started Successfully!"] ;;
  send_info [Lit "🚀 Bot Started Successfully!"] ;;
  await CIdle ;;
  Ret tt.

(** The body of the [for] loop of [stop_clients], over the items of
    [multi_clients] as they are when the loop is entered. *)
Fixpoint stop_each (l : list (Z * Handle)) : coro unit :=
  match l with
  | [] => Ret tt
  | (client_id, client) :: rest =>
      (if negb (client_id =? 0)%Z then
         try_except
           (await (CStop client) ;;
            LOGGER_info [Lit "Client "; Int client_id; Lit " stopped successfully"])
           (fun e =>
              LOGGER_error [Lit "Error stopping client "; Int client_id; Lit ": "; Exc e] ;;
              send_error [Lit "Error stopping client "; Int client_id] (Some e))
       else Ret tt) ;;
      stop_each rest
  end.

(** [async def stop_clients()] *)
Definition stop_clients : coro unit :=
  LOGGER_info [Lit "Stopping all clients ..."] ;;
  send_info [Lit "Stopping all clients ..."] ;;
  shutdowndb ;;
  await (CStop bot) ;;
  mc <- get_clients ;;
  stop_each (items mc).

(** [async def shutdown()], local to [signal_handler(sig)] *)
Definition shutdown (sig : Z) : coro unit :=
  send_info [Lit "⚠️ Signal "; Int sig; Lit " received, initiating shutdown..."] ;;
  stop_clients ;;
  do LoopStop.

(** A coroutine used as a task returns [None] unless it is [start_client]. *)
Definition as_task (p : coro unit) : coro task_result := p ;; Ret None.

(** What each task runs.  The cache updater and the web server are
    opaque: one awaitable that returns or raises. *)
Definition task_body (s : task_spec) : coro task_result :=
  match s with
  | TStartClient i c => start_client i c
  | TCacheUpdater => await CCacheUpdater ;; Ret None
  | TServe => await CServe ;; Ret None
  | TShutdown sig => as_task (shutdown sig)
  end.

(** The lambda given to [cache_task.add_done_callback]: calling the
    [async def] only builds a coroutine object. *)
Definition callback_fun (cb : callback) (t : task_result + exn) : option (coro unit) :=
  match cb with
  | CacheCrashCallback =>
      match task_exception t with
      | Some _ => Some (handle_cache_crash t)
      | None => None
      end
  end.

End App.

(* ================================================================== *)
(** ** The event loop *)
(* ================================================================== *)

(** A task is scheduled to run, suspended on an awaitable, or done. *)
Inductive tstate :=
| Runnable (p : coro task_result)
| Waiting (c : call) (k : outcome -> coro task_result)
| Finished (r : task_result + exn).

Record task := Task {
  state : tstate;
  callbacks : list callback
}.

(** The process: the two shared dictionaries of [state.py], the log and
    the calls made so far, the tasks of the loop (a task identifier is a
    position in [tasks]) and the loop's stop request. *)
Record Loop := MkLoop {
  multi_clients : dict Z Handle;
  work_loads : dict Z Z;
  trace : list event;
  tasks : list task;
  stopping : bool
}.

(** Modelled from the spec: [state.py] is not part of the sources at hand.
    The pool and the registry are process-wide maps that are filled at
    client start only, so both begin empty. *)
Definition initial_loop : Loop :=
  {| multi_clients := []; work_loads := []; trace := []; tasks := []; stopping := false |}.

Definition emit (e : event) (L : Loop) : Loop :=
  {| multi_clients := multi_clients L; work_loads := work_loads L;
     trace := trace L ++ [e]; tasks := tasks L; stopping := stopping L |}.

Definition with_tasks (ts : list task) (L : Loop) : Loop :=
  {| multi_clients := multi_clients L; work_loads := work_loads L;
     trace := trace L; tasks := ts; stopping := stopping L |}.

Definition with_stopping (b : bool) (L : Loop) : Loop :=
  {| multi_clients := multi_clients L; work_loads := work_loads L;
     trace := trace L; tasks := tasks L; stopping := b |}.

(** The effect of one synchronous statement. *)
Definition perform (a : action) (L : Loop) : Loop :=
  match a with
  | Log lvl m => emit (EvLog lvl m) L
  | SetClient k h =>
      {| multi_clients := set k h (multi_clients L); work_loads := work_loads L;
         trace := trace L; tasks := tasks L; stopping := stopping L |}
  | SetWorkLoad k v =>
      {| multi_clients := multi_clients L; work_loads := set k v (work_loads L);
         trace := trace L; tasks := tasks L; stopping := stopping L |}
  | UpdateClients d =>
      {| multi_clients := update (multi_clients L) d; work_loads := work_loads L;
         trace := trace L; tasks := tasks L; stopping := stopping L |}
  | CloseConnections => emit EvCloseConnections L
  | LoopStop => with_stopping true (emit EvLoopStop L)
  end.

Fixpoint replace_nth {A} (n : nat) (x : A) (l : list A) : list A :=
  match l, n with
  | [], _ => []
  | _ :: l', O => x :: l'
  | y :: l', S n' => y :: replace_nth n' x l'
  end.

Definition task_state (t : tid) (L : Loop) : option tstate :=
  option_map state (nth_error (tasks L) t).

Definition task_callbacks (t : tid) (L : Loop) : list callback :=
  match nth_error (tasks L) t with
  | Some tk => callbacks tk
  | None => []
  end.

Definition set_state (t : tid) (st : tstate) (L : Loop) : Loop :=
  with_tasks (replace_nth t (Task st (task_callbacks t L)) (tasks L)) L.

Definition is_finished (t : tid) (L : Loop) : bool :=
  match task_state t L with
  | Some (Finished _) => true
  | _ => false
  end.

(** [gather]: the first exception of a child is propagated as soon as the
    gathering task looks; otherwise the results of all children, in the
    order of the arguments, once every child is done.  [None]: not yet. *)
Fixpoint first_exception (ts : list tid) (L : Loop) : option exn :=
  match ts with
  | [] => None
  | t :: ts' =>
      match task_state t L with
      | Some (Finished (inr e)) => Some e
      | _ => first_exception ts' L
      end
  end.

Fixpoint all_results (ts : list tid) (L : Loop) : option (list task_result) :=
  match ts with
  | [] => Some []
  | t :: ts' =>
      match task_state t L, all_results ts' L with
      | Some (Finished (inl r)), Some rs => Some (r :: rs)
      | _, _ => None
      end
  end.

Definition gather_status (ts : list tid) (L : Loop) : option (list task_result + exn) :=
  match first_exception ts L with
  | Some e => Some (inr e)
  | None => option_map inl (all_results ts L)
  end.

Section Scheduler.

Variable CLIENTS_CONFIG : dict Z conf.
Variable bot : Handle.

(** The collaborators: how an awaitable settles, given everything that
    has happened so far. *)
Variable env : call -> list event -> outcome.

(** The loop calls a done-callback and drops what it returns; a coroutine
    object returned by the callback is neither awaited nor scheduled. *)
Definition run_callback (cb : callback) (r : task_result + exn) (L : Loop) : Loop :=
  match callback_fun cb r with
  | Some _never_awaited => L
  | None => L
  end.

Definition run_callbacks (cbs : list callback) (r : task_result + exn) (L : Loop) : Loop :=
  fold_left (fun acc cb => run_callback cb r acc) cbs L.

(** Task [t] is done with [r]: its done-callbacks are called. *)
Definition finish (t : tid) (r : task_result + exn) (L : Loop) : Loop :=
  run_callbacks (task_callbacks t L) r (set_state t (Finished r) L).

(** [create_task]: the new task is appended, to run later. *)
Definition add_task (s : task_spec) (L : Loop) : Loop :=
  emit (EvCreateTask (List.length (tasks L)) s)
       (with_tasks (tasks L ++ [Task (Runnable (task_body bot s)) []]) L).

(** [t.add_done_callback(cb)] *)
Definition add_callback (t : tid) (cb : callback) (L : Loop) : Loop :=
  match nth_error (tasks L) t with
  | Some (Task (Finished r) _) => run_callback cb r L
  | Some (Task st cbs) => with_tasks (replace_nth t (Task st (cbs ++ [cb])) (tasks L)) L
  | None => L
  end.

(** Task [me] runs [p] until it suspends on an awaitable, blocks in
    [gather], or is done. *)
Fixpoint advance (me : tid) (p : coro task_result) (L : Loop) : Loop :=
  match p with
  | Ret a => finish me (inl a) L
  | Raise e => finish me (inr e) L
  | Do a k => advance me k (perform a L)
  | GetClients k => advance me (k (multi_clients L)) L
  | Await c k => set_state me (Waiting c k) (emit (EvCall me c) L)
  | CreateTask s k => advance me (k (List.length (tasks L))) (add_task s L)
  | Gather ts k =>
      match gather_status ts L with
      | Some r => advance me (k r) L
      | None => set_state me (Runnable (Gather ts k)) L
      end
  | AddDoneCallback t cb k => advance me k (add_callback t cb L)
  end.

(** One turn of task [t]. *)
Definition step (t : tid) (L : Loop) : Loop :=
  match task_state t L with
  | Some (Runnable p) => advance t p L
  | Some (Waiting c k) =>
      let o := env c (trace L) in
      advance t (k o) (emit (EvRet t c o) L)
  | Some (Finished _) => L
  | None => L
  end.

(** [def signal_handler(sig)]: what the body does once [sig] is bound. *)
Definition signal_handler (sig : Z) (L : Loop) : Loop :=
  add_task (TShutdown sig)
    (perform (Log INFO [Lit "Signal "; Int sig; Lit " received, initiating shutdown..."]) L).

(** A call of [signal_handler] with [nargs] positional arguments, the
    first of which is [sig].  The function has the one parameter [sig]:
    with any other number of arguments the call raises [TypeError] and
    the body does not run.  (The text is that of a call with two
    arguments, the only call the program makes.) *)
Definition call_signal_handler (sig : Z) (nargs : nat) (L : Loop) : Loop + exn :=
  if Nat.eqb nargs 1 then inl (signal_handler sig L)
  else inr (TypeError "signal_handler() takes 1 positional argument but 2 were given").

(** [signal.signal(signal.SIGINT, signal_handler)] and the same for
    [SIGTERM]: when signal [signum] arrives, the interpreter calls the
    handler in the main thread with two arguments, the signal number and
    the current stack frame.  (A delivery is one to [signal_handler]: a
    signal that a handler of the client library takes care of shows only
    in how [idle()] settles.) *)
Definition deliver (signum : Z) (L : Loop) : Loop + exn :=
  call_signal_handler signum 2 L.

(** What happens next: a task gets its turn, or a signal arrives while
    the loop waits for the next turn. *)
Inductive sched_item :=
| Tick (t : tid)
| Signal (sig : Z).

(** An exception raised by a signal handler is raised inside the loop's
    [run_forever]. *)
Definition do_item (it : sched_item) (L : Loop) : Loop + exn :=
  match it with
  | Tick t => inl (step t L)
  | Signal sig => deliver sig L
  end.

(** The states a run of the loop goes through.  An exception raised by a
    signal handler ends the run. *)
Fixpoint run_schedule (sched : list sched_item) (L : Loop) : Loop :=
  match sched with
  | [] => L
  | it :: rest =>
      match do_item it L with
      | inl L' => run_schedule rest L'
      | inr _ => L
      end
  end.

(** The loop runs until task [main] is done or [loop.stop()] was called,
    or until a signal handler raises: the exception leaves [run_forever]
    and every task stays as it is. *)
Fixpoint run_loop (main : tid) (sched : list sched_item) (L : Loop) : Loop * option exn :=
  match sched with
  | [] => (L, None)
  | it :: rest =>
      if is_finished main L || stopping L then (L, None)
      else
        match do_item it L with
        | inl L' => run_loop main rest L'
        | inr e => (L, Some e)
        end
  end.

(** [loop.run_until_complete(p)]: the result of [p], the exception that
    a signal handler raised while the loop ran, the [RuntimeError] of a
    loop stopped before [p] was done, or [None] while none of these has
    happened within the schedule. *)
Definition run_until_complete (p : coro task_result) (sched : list sched_item) (L : Loop)
  : Loop * option (task_result + exn) :=
  let main := List.length (tasks L) in
  let L0 := with_tasks (tasks L ++ [Task (Runnable p) []]) (with_stopping false L) in
  let '(L1, raised) := run_loop main sched L0 in
  match raised with
  | Some e => (L1, Some (inr e))
  | None =>
      match task_state main L1 with
      | Some (Finished r) => (L1, Some r)
      | _ =>
          if stopping L1
          then (L1, Some (inr (RuntimeError "Event loop stopped before Future completed.")))
          else (L1, None)
      end
  end.

(** A coroutine run on its own, every awaitable settling at once:
    [None] when it blocks in a [gather] whose children are not done. *)
Fixpoint exec {A} (me : tid) (p : coro A) (L : Loop) : Loop * option (A + exn) :=
  match p with
  | Ret a => (L, Some (inl a))
  | Raise e => (L, Some (inr e))
  | Do a k => exec me k (perform a L)
  | GetClients k => exec me (k (multi_clients L)) L
  | Await c k =>
      let L1 := emit (EvCall me c) L in
      let o := env c (trace L1) in
      exec me (k o) (emit (EvRet me c o) L1)
  | CreateTask s k => exec me (k (List.length (tasks L))) (add_task s L)
  | Gather ts k =>
      match gather_status ts L with
      | Some r => exec me (k r) L
      | None => (L, None)
      end
  | AddDoneCallback t cb k => exec me k (add_callback t cb L)
  end.

(** How the process ended. *)
Inductive status :=
| Exited (e : option exn)
| StillRunning.

(** The [if __name__ == "__main__":] block.  [sched1] drives the loop
    while [init()] is run, [sched2] while the [finally] clause runs
    [stop_clients()]; a [Signal] in a schedule is the delivery of a signal
    to the handler installed by [signal.signal] while the loop runs.  An
    exception of [run_until_complete(init())] is logged with its
    traceback, and the [finally] clause runs in every case; an exception
    of [run_until_complete(stop_clients())] leaves the [finally] clause
    before [loop.stop()]. *)
Definition main_block (sched1 sched2 : list sched_item) : Loop * status :=
  let '(L1, r1) := run_until_complete (as_task (init CLIENTS_CONFIG bot)) sched1 initial_loop in
  match r1 with
  | None => (L1, StillRunning)
  | Some r =>
      let L2 := match r with
                | inl _ => L1
                | inr e => perform (Log ERROR [Lit "Traceback: "; Exc e]) L1
                end in
      let '(L3, r3) := run_until_complete (as_task (stop_clients bot)) sched2 L2 in
      match r3 with
      | None => (L3, StillRunning)
      | Some (inr e) => (L3, Exited (Some e))
      | Some (inl _) => (perform LoopStop L3, Exited None)
      end
  end.

End Scheduler.

(** The module-level statements that build [bot]:
    [bot_conf = CLIENTS_CONFIG.get(0)], the check, [Client(name="bot", ...)]. *)
Definition make_bot (CLIENTS_CONFIG : dict Z conf) : Handle + exn :=
  match get 0%Z CLIENTS_CONFIG with
  | None => inr (RuntimeError "CLIENTS_CONFIG must contain a configuration for client_id 0")
  | Some bot_conf =>
      if negb (truthy bot_conf)
      then inr (RuntimeError "CLIENTS_CONFIG must contain a configuration for client_id 0")
      else
        match get "API_ID"%string bot_conf with
        | None => inr (KeyError "API_ID")
        | Some api_id =>
            match get "API_HASH"%string bot_conf with
            | None => inr (KeyError "API_HASH")
            | Some api_hash =>
                match get "BOT_TOKEN"%string bot_conf with
                | None => inr (KeyError "BOT_TOKEN")
                | Some bot_token => inl (ClientObj NameBot api_id api_hash bot_token)
                end
            end
        end
  end.

(** Running [app.py] as a script: the module level, then [__main__]. *)
Definition program (CLIENTS_CONFIG : dict Z conf) (env : call -> list event -> outcome)
  (sched1 sched2 : list (sched_item)) : Loop * status :=
  match make_bot CLIENTS_CONFIG with
  | inr e => (initial_loop, Exited (Some e))
  | inl bot => main_block CLIENTS_CONFIG bot env sched1 sched2
  end.


(* ================================================================== *)
(** ** Vocabulary of the properties *)
(* ================================================================== *)

(** Two dictionaries with the same set of keys. *)
Definition same_keys {V W : Type} (d1 : dict Z V) (d2 : dict Z W) : Prop :=
  forall k, In k (keys d1) <-> In k (keys d2).

(** The client object that [start_client] builds from a configuration, or
    the [KeyError] of the first parameter that is missing. *)
Definition client_args (client_id : Z) (client_conf : conf) : Handle + exn :=
  match get "API_ID"%string client_conf with
  | None => inr (KeyError "API_ID")
  | Some api_id =>
      match get "API_HASH"%string client_conf with
      | None => inr (KeyError "API_HASH")
      | Some api_hash =>
          match get "BOT_TOKEN"%string client_conf with
          | None => inr (KeyError "BOT_TOKEN")
          | Some bot_token => inl (ClientObj (NameOf client_id) api_id api_hash bot_token)
          end
      end
  end.

(** The two log records of [start_client]. *)
Definition starting_log (client_id : Z) : event :=
  EvLog INFO [Lit "Starting - Bot Client "; Int client_id].
Definition failed_log (client_id : Z) (e : exn) : event :=
  EvLog ERROR [Lit "Failed to start Client - "; Int client_id; Lit " Error: "; Exc e].

(** The stop attempts of a run, in the order of the trace: [Begin h] when
    [h.stop()] is issued, [Settle h o] when it has returned or raised. *)
Inductive stop_ev :=
| Begin (h : Handle)
| Settle (h : Handle) (o : outcome).

Fixpoint stop_events (tr : list event) : list stop_ev :=
  match tr with
  | [] => []
  | EvCall _ (CStop h) :: tr' => Begin h :: stop_events tr'
  | EvRet _ (CStop h) o :: tr' => Settle h o :: stop_events tr'
  | _ :: tr' => stop_events tr'
  end.

(** The secondary clients of a pool, in the order of the pool. *)
Definition secondaries (d : dict Z Handle) : list Handle :=
  map snd (filter (fun kv => negb (fst kv =? 0)%Z) (items d)).

(** Stop attempts made one after another: each is settled before the next
    begins. *)
Definition one_after_another (hs : list Handle) (os : list outcome) : list stop_ev :=
  flat_map (fun ho => [Begin (fst ho); Settle (fst ho) (snd ho)]) (combine hs os).

(** Stop attempts that are fanned out: all of them begin before the first
    of them settles. *)
Definition is_settle (s : stop_ev) : bool :=
  match s with
  | Settle _ _ => true
  | Begin _ => false
  end.

Fixpoint fanned_out (l : list stop_ev) : bool :=
  match l with
  | Begin _ :: l' => fanned_out l'
  | _ => forallb is_settle l
  end.

(** The shutdown ordering as the specification words it: the primary stop
    is attempted and settled first, then the secondary stops are fanned
    out. *)
Definition primary_then_fan_out (bot : Handle) (tr : list event) : Prop :=
  exists o rest,
    stop_events tr = Begin bot :: Settle bot o :: rest /\ fanned_out rest = true.

Definition pyval_eq_dec (a b : pyval) : {a = b} + {a <> b}.
Proof. decide equality; [apply Z.eq_dec | apply string_dec]. Defined.

Definition cname_eq_dec (a b : cname) : {a = b} + {a <> b}.
Proof. decide equality; apply Z.eq_dec. Defined.

Definition Handle_eq_dec (a b : Handle) : {a = b} + {a <> b}.
Proof.
  decide equality;
    [apply pyval_eq_dec | apply pyval_eq_dec | apply pyval_eq_dec
    | apply cname_eq_dec | apply Nat.eq_dec].
Defined.

(** Counting the events of a kind in a trace. *)
Definition count_events (f : event -> bool) (tr : list event) : nat :=
  List.length (filter f tr).

(** [h.stop()] is issued. *)
Definition is_stop_of (h : Handle) (e : event) : bool :=
  match e with
  | EvCall _ (CStop h') => if Handle_eq_dec h h' then true else false
  | _ => false
  end.

(** The steps by which a run of the shutdown sequence shows in a trace:
    the notification of the operator, the close of the storage, the stop
    of the primary client. *)
Definition is_shutdown_notification (e : event) : bool :=
  match e with
  | EvCall _ (CSendInfo [Lit s]) => String.eqb s "Stopping all clients ..."
  | _ => false
  end.

Definition is_storage_close (e : event) : bool :=
  match e with
  | EvCloseConnections => true
  | _ => false
  end.

Definition stop_attempts (h : Handle) (tr : list event) : nat :=
  count_events (is_stop_of h) tr.
Definition shutdown_notifications (tr : list event) : nat :=
  count_events is_shutdown_notification tr.
Definition storage_closes (tr : list event) : nat :=
  count_events is_storage_close tr.

(** The sequence has run exactly once. *)
Definition ran_exactly_once (bot : Handle) (tr : list event) : Prop :=
  shutdown_notifications tr = 1%nat /\ storage_closes tr = 1%nat /\
  stop_attempts bot tr = 1%nat.

(** The reports of a crash of the cache manager. *)
Definition is_error_notification (e : event) : bool :=
  match e with
  | EvCall _ (CSendError _ _) => true
  | _ => false
  end.

Definition is_error_log (e : event) : bool :=
  match e with
  | EvLog ERROR _ => true
  | _ => false
  end.

(** The signals of a schedule. *)
Definition is_signal (it : sched_item) : bool :=
  match it with
  | Signal _ => true
  | Tick _ => false
  end.

Definition signals (sched : list sched_item) : nat := List.length (filter is_signal sched).

(** A loop with a given pool and registry and nothing else. *)
Definition loop_with (pool : dict Z Handle) (loads : dict Z Z) : Loop :=
  {| multi_clients := pool; work_loads := loads; trace := []; tasks := []; stopping := false |}.

(* ------------------------------------------------------------------ *)
(** *** Concrete configurations and collaborators *)

Definition valid_conf : conf :=
  [("API_ID"%string, VInt 12345); ("API_HASH"%string, VStr "hash");
   ("BOT_TOKEN"%string, VStr "token")].

(** A configuration whose token the client library rejects. *)
Definition revoked_conf : conf :=
  [("API_ID"%string, VInt 12345); ("API_HASH"%string, VStr "hash");
   ("BOT_TOKEN"%string, VStr "revoked")].

Definition config_primary_only : dict Z conf := [(0%Z, valid_conf)].
Definition config_all_valid : dict Z conf :=
  [(0%Z, valid_conf); (1%Z, valid_conf); (2%Z, valid_conf)].
Definition config_one_revoked : dict Z conf :=
  [(0%Z, valid_conf); (1%Z, valid_conf); (2%Z, revoked_conf)].
Definition config_without_primary : dict Z conf :=
  [(1%Z, valid_conf); (2%Z, valid_conf)].

(** The primary client that the module level builds from [valid_conf]. *)
Definition bot0 : Handle := ClientObj NameBot (VInt 12345) (VStr "hash") (VStr "token").

Definition has_revoked_token (h : Handle) : bool :=
  match h with
  | ClientObj _ _ _ (VStr t) => String.eqb t "revoked"
  | _ => false
  end.

Definition started_object (h : Handle) : Handle :=
  match h with
  | ClientObj (NameOf i) _ _ _ => Started (Z.to_nat i)
  | _ => h
  end.

(** Collaborators that always succeed, except that a client with the
    revoked token fails to start. *)
Definition collaborators (c : call) (tr : list event) : outcome :=
  match c with
  | CStart h => if has_revoked_token h then Err (ExtError 401) else Ok (started_object h)
  | CStop h => Ok h
  | _ => Ok (Started 0)
  end.

(** The same, but the stop of the primary client fails. *)
Definition primary_stop_fails (c : call) (tr : list event) : outcome :=
  match c with
  | CStop (ClientObj NameBot _ _ _) => Err (ExtError 500)
  | _ => collaborators c tr
  end.

(** The same, but the cache updater crashes. *)
Definition cache_updater_crashes (c : call) (tr : list event) : outcome :=
  match c with
  | CCacheUpdater => Err (ExtError 7)
  | _ => collaborators c tr
  end.

(** A pool of three started clients. *)
Definition pool_012 : Loop :=
  loop_with [(0%Z, bot0); (1%Z, Started 1); (2%Z, Started 2)]
            [(0%Z, 0%Z); (1%Z, 0%Z); (2%Z, 0%Z)].

(* ------------------------------------------------------------------ *)
(** *** Start-up *)

(** [create_task(start_client(...))]. *)
Definition start_creation (e : event) : bool :=
  match e with
  | EvCreateTask _ (TStartClient _ _) => true
  | _ => false
  end.

(** The two log records of [start_client], by their shape. *)
Definition is_start_client_log (lvl : level) (m : msg) : bool :=
  match lvl, m with
  | INFO, [Lit s; Int _] => String.eqb s "Starting - Bot Client "
  | ERROR, [Lit s; Int _; Lit _; Exc _] => String.eqb s "Failed to start Client - "
  | _, _ => false
  end.

(** An event of a running [start_client] task: its log records, and the
    start of a client by a task other than the main task 0. *)
Definition child_run (e : event) : bool :=
  match e with
  | EvLog lvl m => is_start_client_log lvl m
  | EvCall t (CStart _) => negb (t =? 0)%nat
  | EvRet t (CStart _) _ => negb (t =? 0)%nat
  | _ => false
  end.

(** Anything that belongs to the start of a secondary client. *)
Definition secondary_event (e : event) : bool := start_creation e || child_run e.

(** The log record that [init] writes when [initialize_clients] has
    returned. *)
Definition initialized_log : event := EvLog INFO [Lit "Starting cache manager..."].

Definition is_initialized_log (lvl : level) (m : msg) : bool :=
  match lvl, m with
  | INFO, [Lit s] => String.eqb s "Starting cache manager..."
  | _, _ => false
  end.

Definition is_start (c : call) : bool :=
  match c with
  | CStart _ => true
  | _ => false
  end.

Definition is_start_spec (s : task_spec) : bool :=
  match s with
  | TStartClient _ _ => true
  | _ => false
  end.

(** Events that have nothing to do with the start of the clients. *)
Definition quiet (e : event) : bool :=
  match e with
  | EvLog lvl m => negb (is_start_client_log lvl m) && negb (is_initialized_log lvl m)
  | EvCreateTask _ s => negb (is_start_spec s)
  | EvCall _ c => negb (is_start c)
  | EvRet _ c _ => negb (is_start c)
  | EvCloseConnections => true
  | EvLoopStop => true
  end.

Definition quiet_action (a : action) : bool :=
  match a with
  | Log lvl m => quiet (EvLog lvl m)
  | CloseConnections => true
  | LoopStop => true
  | SetClient _ _ => false
  | SetWorkLoad _ _ => false
  | UpdateClients _ => false
  end.

(** Coroutines that leave the pool and the registry alone and start no
    client: the cache updater, the web server, [shutdown], and [init] once
    [initialize_clients] is over. *)
Inductive benign {A : Type} : coro A -> Prop :=
| benign_Ret (a : A) : benign (Ret a)
| benign_Raise (e : exn) : benign (Raise e)
| benign_Do (a : action) (k : coro A) :
    quiet_action a = true -> benign k -> benign (Do a k)
| benign_GetClients (k : dict Z Handle -> coro A) :
    (forall d, benign (k d)) -> benign (GetClients k)
| benign_Await (c : call) (k : outcome -> coro A) :
    is_start c = false -> (forall o, benign (k o)) -> benign (Await c k)
| benign_CreateTask (s : task_spec) (k : tid -> coro A) :
    is_start_spec s = false -> (forall t, benign (k t)) -> benign (CreateTask s k)
| benign_AddDoneCallback (t : tid) (cb : callback) (k : coro A) :
    benign k -> benign (AddDoneCallback t cb k).

Definition benign_state (st : tstate) : Prop :=
  match st with
  | Runnable p => benign p
  | Waiting c k => is_start c = false /\ forall o, benign (k o)
  | Finished _ => True
  end.

(** A turn of a benign task [me]: what it may change. *)
Record quiet_step (me : tid) (L L' : Loop) : Prop := QuietStep {
  qs_clients : multi_clients L' = multi_clients L;
  qs_loads : work_loads L' = work_loads L;
  qs_trace : exists evs, trace L' = trace L ++ evs /\ forallb quiet evs = true;
  qs_length : (List.length (tasks L) <= List.length (tasks L'))%nat;
  qs_old : forall t, t <> me -> (t < List.length (tasks L))%nat ->
                     task_state t L' = task_state t L;
  qs_new : forall t st, (List.length (tasks L) <= t)%nat ->
                        task_state t L' = Some st -> benign_state st
}.

(** The task that takes a quiet turn is benign and not done. *)
Definition takes_turn (me : tid) (L : Loop) : Prop :=
  forall st, task_state me L = Some st -> benign_state st /\ forall r, st <> Finished r.

Definition is_initialized (e : event) : bool :=
  match e with
  | EvLog lvl m => is_initialized_log lvl m
  | _ => false
  end.

Section StartupVocabulary.

Variable CLIENTS_CONFIG : dict Z conf.
Variable bot : Handle.

(** The pieces of [init] and [initialize_clients] between two
    suspensions of the main task. *)
Definition init_tail_quiet : coro unit :=
  cache_task <- create_task TCacheUpdater ;;
  add_done_callback cache_task CacheCrashCallback ;;
  LOGGER_info [Lit "Initializing Web Server..."] ;;
  create_task TServe ;;
  LOGGER_info [Lit "Backend Started Successfully!"] ;;
  send_info [Lit "🚀 Bot Started Successfully!"] ;;
  await CIdle ;;
  Ret tt.

Definition init_tail : coro unit :=
  LOGGER_info [Lit "Starting cache manager..."] ;;
  init_tail_quiet.

Definition merge_clients (clients : list task_result) : coro unit :=
  clients <- collect_clients clients [] ;;
  do (UpdateClients clients) ;;
  mc <- get_clients ;;
  if (1 <? len mc)%nat then
    LOGGER_info [Lit "Multi-Client Mode Enabled with "; Count (len mc); Lit " clients"]
  else
    LOGGER_info [Lit "No additional clients were initialized, using default client"].

(** [initialize_clients] after the primary client is registered. *)
Definition start_secondaries : coro unit :=
  if negb (truthy (additional_clients_conf CLIENTS_CONFIG)) then
    LOGGER_info [Lit "No additional Bot Clients found, Using default client"]
  else
    n <- create_start_tasks (items (additional_clients_conf CLIENTS_CONFIG)) ;;
    clients <- gather n ;;
    merge_clients clients.

Definition init_rest : coro unit :=
  LOGGER_info [Lit "Bot Started Successfully!"] ;;
  initialize_clients CLIENTS_CONFIG bot ;;
  init_tail.

(** The main task when [bot.start()] has settled. *)
Definition after_start (o : outcome) : coro task_result :=
  as_task (resume_with o ;; init_rest).

(** The main task when [gather] has its results. *)
Definition after_gather (r : list task_result + exn) : coro task_result :=
  as_task ((clients <- gathered r ;; merge_clients clients) ;; init_tail).

(** A [start_client] task when the start of its client has settled. *)
Definition start_k (client_id : Z) (o : outcome) : coro task_result :=
  try_except
    (client <- resume_with o ;;
     do (SetWorkLoad client_id 0) ;;
     Ret (Some (client_id, client)))
    (fun e =>
       LOGGER_error [Lit "Failed to start Client - "; Int client_id;
                     Lit " Error: "; Exc e] ;;
       Ret None).

(** The loop as [run_until_complete(init())] finds and sets it up: the
    main task is task 0. *)
Definition startup_loop : Loop :=
  with_tasks [Task (Runnable (as_task (init CLIENTS_CONFIG bot))) []] initial_loop.

(** The secondary entries of the configuration. *)
Definition secondary_confs : list (Z * conf) := items (additional_clients_conf CLIENTS_CONFIG).

(** The list comprehension of [create_task] calls, as an effect on the
    loop, and the events it leaves. *)
Definition add_start_tasks (l : list (Z * conf)) (L : Loop) : Loop :=
  fold_left (fun acc ic => add_task bot (TStartClient (fst ic) (snd ic)) acc) l L.

Fixpoint creation_events (n : nat) (l : list (Z * conf)) : list event :=
  match l with
  | [] => []
  | (i, c) :: l' => EvCreateTask n (TStartClient i c) :: creation_events (S n) l'
  end.

(** The ordering of the start-up, as properties of a trace and of the
    loop.  [primary_first]: whatever belongs to the start of a secondary
    client comes after the primary start has returned. *)
Definition primary_first (tr : list event) : Prop :=
  forall pre e post,
    tr = pre ++ e :: post -> secondary_event e = true ->
    exists h, In (EvRet 0 (CStart bot) (Ok h)) pre.

(** [issued_before_run]: when a [start_client] task is created, no
    [start_client] task has run yet. *)
Definition issued_before_run (tr : list event) : Prop :=
  forall pre e post,
    tr = pre ++ e :: post -> start_creation e = true ->
    forall e', In e' pre -> child_run e' = false.

(** [waits_for_all]: as long as one [start_client] task is not done, the
    main task is blocked in the [gather] that lists it. *)
Definition waits_for_all (L : Loop) : Prop :=
  forall t i c,
    In (EvCreateTask t (TStartClient i c)) (trace L) ->
    (exists r, task_state t L = Some (Finished r)) \/
    (exists ts k, task_state 0 L = Some (Runnable (Gather ts k)) /\ In t ts).

(** The state of the [j]-th [start_client] task. *)
Definition child_state (L : Loop) (t : tid) (ic : Z * conf) : Prop :=
  match task_state t L with
  | Some (Runnable p) => p = start_client (fst ic) (snd ic)
  | Some (Waiting c k) => is_start c = true /\ k = start_k (fst ic)
  | Some (Finished (inl None)) => True
  | Some (Finished (inl (Some (i, _)))) => i = fst ic /\ In i (keys (work_loads L))
  | _ => False
  end.

(** What the dictionary comprehension over the gathered results builds,
    when no result is [None]. *)
Fixpoint collected (clients : list task_result) (acc : dict Z Handle)
  : option (dict Z Handle) :=
  match clients with
  | [] => Some acc
  | None :: _ => None
  | Some (client_id, client) :: rest => collected rest (set client_id client acc)
  end.

(** The result of a [start_client] task that is done. *)
Definition result_ok (L : Loop) (ic : Z * conf) (r : task_result) : Prop :=
  match r with
  | None => True
  | Some (i, _) => i = fst ic /\ In i (keys (work_loads L))
  end.

Definition others_benign (special : tid -> Prop) (L : Loop) : Prop :=
  forall t st, task_state t L = Some st -> ~ special t -> benign_state st.

Definition no_secondary (tr : list event) : Prop :=
  forallb (fun e => negb (secondary_event e)) tr = true.

Definition started_shape (tr : list event) : Prop :=
  exists tr0 h mid tr1,
    tr = tr0 ++ EvRet 0 (CStart bot) (Ok h) :: mid ++ tr1 /\
    no_secondary tr0 /\
    forallb (fun e => negb (child_run e)) mid = true /\
    forallb (fun e => negb (start_creation e)) tr1 = true.

Definition not_initialized (tr : list event) : Prop :=
  forallb (fun e => negb (is_initialized e)) tr = true.

Definition loads_ok (L : Loop) : Prop :=
  In 0%Z (keys (work_loads L)) /\
  forall k, In k (keys (work_loads L)) -> k = 0%Z \/ In k (map fst secondary_confs).

(** The stages of the start-up. *)
Definition stage_fresh (L : Loop) : Prop :=
  task_state 0 L = Some (Runnable (as_task (init CLIENTS_CONFIG bot))) /\
  others_benign (fun t => t = 0%nat) L /\
  multi_clients L = [] /\ work_loads L = [] /\
  no_secondary (trace L) /\ not_initialized (trace L).

Definition stage_primary (L : Loop) : Prop :=
  task_state 0 L = Some (Waiting (CStart bot) after_start) /\
  others_benign (fun t => t = 0%nat) L /\
  multi_clients L = [] /\ work_loads L = [] /\
  no_secondary (trace L) /\ not_initialized (trace L).

Definition is_child (n : nat) (t : tid) : Prop :=
  (n <= t < n + List.length secondary_confs)%nat.

Definition stage_gather (L : Loop) : Prop :=
  exists n,
    (0 < n)%nat /\
    task_state 0 L = Some (Runnable (Gather (seq n (List.length secondary_confs)) after_gather)) /\
    (forall j ic, nth_error secondary_confs j = Some ic -> child_state L (n + j) ic) /\
    others_benign (fun t => t = 0%nat \/ is_child n t) L /\
    multi_clients L = [(0%Z, bot)] /\
    loads_ok L /\
    started_shape (trace L) /\ not_initialized (trace L) /\
    (forall t i c, In (EvCreateTask t (TStartClient i c)) (trace L) -> is_child n t).

(** [bot.start()] has not returned. *)
Definition primary_not_started (tr : list event) : Prop :=
  forall h, ~ In (EvRet 0 (CStart bot) (Ok h)) tr.

Definition stage_settled (L : Loop) : Prop :=
  others_benign (fun _ => False) L /\
  (no_secondary (trace L) \/ started_shape (trace L)) /\
  (In initialized_log (trace L) \/ primary_not_started (trace L) ->
   same_keys (work_loads L) (multi_clients L)) /\
  (forall t i c, In (EvCreateTask t (TStartClient i c)) (trace L) ->
                 exists r, task_state t L = Some (Finished r)).

Definition startup_inv (L : Loop) : Prop :=
  stage_fresh L \/ stage_primary L \/ stage_gather L \/ stage_settled L.

End StartupVocabulary.

(* ------------------------------------------------------------------ *)
(** *** A coroutine on its own and as a task *)

(** Coroutines that create no task, gather nothing and attach no
    callback: [start_client], [stop_clients], [shutdown],
    [handle_cache_crash]. *)
Inductive plain {A : Type} : coro A -> Prop :=
| plain_Ret (a : A) : plain (Ret a)
| plain_Raise (e : exn) : plain (Raise e)
| plain_Do (a : action) (k : coro A) : plain k -> plain (Do a k)
| plain_GetClients (k : dict Z Handle -> coro A) :
    (forall d, plain (k d)) -> plain (GetClients k)
| plain_Await (c : call) (k : outcome -> coro A) :
    (forall o, plain (k o)) -> plain (Await c k).

(** Two loops that differ at most in the record of task [me]. *)
Definition same_but (me : tid) (L1 L2 : Loop) : Prop :=
  multi_clients L1 = multi_clients L2 /\
  work_loads L1 = work_loads L2 /\
  trace L1 = trace L2 /\
  stopping L1 = stopping L2 /\
  List.length (tasks L1) = List.length (tasks L2) /\
  forall t, t <> me -> nth_error (tasks L1) t = nth_error (tasks L2) t.

Unset Implicit Arguments.

(* ================================================================== *)
(** ** [TokenParser] *)
(* ================================================================== *)

(** What [from config import MULTI_TOKENS] raises when the module
    [config] has no such name. *)
Inductive import_error :=
| ImportError (what : string).

(** The module [config] as [parse_from_config] sees it: its attribute
    [MULTI_TOKENS], a dictionary from client identifier to token, or no
    such attribute. *)
Definition hasattr_MULTI_TOKENS (MULTI_TOKENS : option (dict Z string)) : bool :=
  match MULTI_TOKENS with
  | Some _ => true
  | None => false
  end.

(** [TokenParser.parse_from_config()]: the [import] statement comes
    first, then the [hasattr] test, then the comprehension over the
    items. *)
Definition parse_from_config (MULTI_TOKENS : option (dict Z string))
  : dict Z string + import_error :=
  match MULTI_TOKENS with
  | None => inr (ImportError "cannot import name 'MULTI_TOKENS' from 'config'")
  | Some tokens_of_config =>
      if negb (hasattr_MULTI_TOKENS MULTI_TOKENS) then inl []
      else
        let tokens := of_items (items tokens_of_config) in
        inl tokens
  end.

(** The filter of the comprehension that builds
    [additional_clients_conf]. *)
Definition is_secondary_entry {V : Type} (kv : Z * V) : bool := negb (fst kv =? 0)%Z.

(* ================================================================== *)
(** ** What [stop_clients] and [shutdown] report *)
(* ================================================================== *)

(** The records of the loop of [stop_clients]: the log record of a stop
    that returned, the log record and the notification of a stop that
    raised. *)
Definition stopped_log (client_id : Z) : event :=
  EvLog INFO [Lit "Client "; Int client_id; Lit " stopped successfully"].
Definition stop_error_log (client_id : Z) (e : exn) : event :=
  EvLog ERROR [Lit "Error stopping client "; Int client_id; Lit ": "; Exc e].
Definition stop_error_notification (me : tid) (client_id : Z) (e : exn) : event :=
  EvCall me (CSendError [Lit "Error stopping client "; Int client_id] (Some e)).

(** How the stop of the client of entry [ic] shows in the events [evs],
    given its outcome. *)
Definition stop_reported (me : tid) (evs : list event) (ic : Z * Handle) (o : outcome)
  : Prop :=
  match o with
  | Ok _ => In (stopped_log (fst ic)) evs
  | Err e =>
      In (stop_error_log (fst ic) e) evs /\ In (stop_error_notification me (fst ic) e) evs
  end.

Definition is_failure (o : outcome) : bool :=
  match o with
  | Err _ => true
  | Ok _ => false
  end.

(** The number of stops that raised. *)
Definition failures (os : list outcome) : nat := List.length (filter is_failure os).

Definition is_stopped_log (e : event) : bool :=
  match e with
  | EvLog INFO [Lit a; Int _; Lit b] =>
      String.eqb a "Client " && String.eqb b " stopped successfully"
  | _ => false
  end.

Definition is_loop_stop (e : event) : bool :=
  match e with
  | EvLoopStop => true
  | _ => false
  end.

(** The first five events of [stop_clients]: the log record, the
    notification of the operator and its return, the close of the
    storage, the stop of the primary client. *)
Definition stop_prologue (bot : Handle) (me : tid) (o : outcome) : list event :=
  [EvLog INFO [Lit "Stopping all clients ..."];
   EvCall me (CSendInfo [Lit "Stopping all clients ..."]);
   EvRet me (CSendInfo [Lit "Stopping all clients ..."]) o;
   EvCloseConnections;
   EvCall me (CStop bot)].

(** The notification that [shutdown] sends first. *)
Definition signal_notification (me : tid) (sig : Z) : event :=
  EvCall me (CSendInfo [Lit "⚠️ Signal "; Int sig; Lit " received, initiating shutdown..."]).

(* ================================================================== *)
(** ** The pool and the registry during the start-up *)
(* ================================================================== *)

Section PoolVocabulary.

Variable CLIENTS_CONFIG : dict Z conf.
Variable bot : Handle.

(** [bot.start()] has returned. *)
Definition primary_started (tr : list event) : Prop :=
  exists h, In (EvRet 0 (CStart bot) (Ok h)) tr.

(** The client [h] is what the start of the client built from the entry
    [ic] of the configuration has returned. *)
Definition started_for (ic : Z * conf) (h : Handle) (tr : list event) : Prop :=
  exists t cl,
    client_args (fst ic) (snd ic) = inl cl /\ In (EvRet t (CStart cl) (Ok h)) tr.

(** Where the [start_client] task [t] of the entry [ic] stands: it waits
    for the start of the client built from [ic], or the handle it has
    returned is what that start has returned to it. *)
Definition child_origin (L : Loop) (t : tid) (ic : Z * conf) : Prop :=
  match task_state t L with
  | Some (Waiting c k) => exists cl, client_args (fst ic) (snd ic) = inl cl /\ c = CStart cl
  | Some (Finished (inl (Some (_, h)))) =>
      exists cl, client_args (fst ic) (snd ic) = inl cl /\
                 In (EvRet t (CStart cl) (Ok h)) (trace L)
  | _ => True
  end.

(** While the main task is in [gather], this holds of every task that it
    gathers. *)
Definition children_origin (L : Loop) : Prop :=
  forall n k,
    task_state 0 L =
      Some (Runnable (Gather (seq n (List.length (secondary_confs CLIENTS_CONFIG))) k)) ->
    secondary_confs CLIENTS_CONFIG <> [] /\
    forall j ic, nth_error (secondary_confs CLIENTS_CONFIG) j = Some ic ->
                 child_origin L (n + j) ic.

(** The two records that [init] and [initialize_clients] log in the turn
    in which [bot.start()] has returned. *)
Definition registered_logs : list event :=
  [EvLog INFO [Lit "Bot Started Successfully!"];
   EvLog INFO [Lit "Default client initialized successfully"]].

(** No [start_client] task is created. *)
Definition no_creation (evs : list event) : Prop :=
  forallb (fun e => negb (start_creation e)) evs = true.

(** The main task, which is task 0, issues the start of no client. *)
Definition no_main_start (evs : list event) : Prop :=
  forall c, ~ In (EvCall 0 (CStart c)) evs.

(** The fan-out of the secondary starts, as it shows in a trace: right
    after the return of [bot.start()] and the two records of the
    registration, one [start_client] task is created for every secondary
    entry, in the order of the configuration, with nothing in between.
    Before that the main task has started the primary client and nothing
    of a secondary start has happened; after that no further
    [start_client] task is created, and the main task starts no client
    itself. *)
Definition starts_fanned_out (tr : list event) : Prop :=
  exists tr0 h n tr1,
    tr = tr0 ++ EvRet 0 (CStart bot) (Ok h) :: registered_logs ++
         creation_events n (secondary_confs CLIENTS_CONFIG) ++ tr1 /\
    no_secondary tr0 /\ (forall c, In (EvCall 0 (CStart c)) tr0 -> c = bot) /\
    no_creation tr1 /\ no_main_start tr1.

(** Once [initialize_clients] has returned, every [start_client] task is
    done. *)
Definition settled_when_initialized (L : Loop) : Prop :=
  In initialized_log (trace L) ->
  forall t i c, In (EvCreateTask t (TStartClient i c)) (trace L) ->
                exists r, task_state t L = Some (Finished r).

(** Every client of the pool has a counter in the registry. *)
Definition pool_within_registry (L : Loop) : Prop :=
  forall k, In k (keys (multi_clients L)) -> In k (keys (work_loads L)).

(** Every counter of the registry is that of the primary client or of a
    secondary entry of the configuration. *)
Definition registry_within_config (L : Loop) : Prop :=
  forall k, In k (keys (work_loads L)) ->
            k = 0%Z \/ In k (keys (additional_clients_conf CLIENTS_CONFIG)).

(** The fan-out has happened, or [bot.start()] has not returned and the
    main task has started no client but the primary. *)
Definition fan_out_inv (L : Loop) : Prop :=
  (primary_not_started bot (trace L) /\
   forall c, In (EvCall 0 (CStart c)) (trace L) -> c = bot) \/
  starts_fanned_out (trace L).

(** The two summary records of [initialize_clients]. *)
Definition single_client_log : event :=
  EvLog INFO [Lit "No additional Bot Clients found, Using default client"].
Definition multi_client_log (members : nat) : event :=
  EvLog INFO [Lit "Multi-Client Mode Enabled with "; Count members; Lit " clients"].

(** The summary that fits the configuration: the pool has one member more
    than there are secondary entries. *)
Definition summary_log : event :=
  match secondary_confs CLIENTS_CONFIG with
  | [] => single_client_log
  | _ :: _ => multi_client_log (S (List.length (secondary_confs CLIENTS_CONFIG)))
  end.

(** Every member of the pool is the primary client under 0, or what the
    start of the client built from a secondary entry has returned, under
    the identifier of that entry. *)
Definition pool_origin (L : Loop) : Prop :=
  forall i h,
    In (i, h) (multi_clients L) ->
    (i = 0%Z /\ h = bot) \/
    exists client_conf,
      get i (additional_clients_conf CLIENTS_CONFIG) = Some client_conf /\
      started_for (i, client_conf) h (trace L).

(** What one turn of the loop does to the pool and to the registry while
    [init()] runs, [evs] being the events of the turn: nothing; or the
    registration of the primary client by [initialize_clients]; or
    [work_loads[i] = 0] by the [start_client] task of a secondary entry
    [i]; or the merge of the started clients into the pool. *)
Inductive startup_effect (L L' : Loop) (evs : list event) : Prop :=
| effect_none :
    multi_clients L' = multi_clients L -> work_loads L' = work_loads L ->
    not_initialized evs -> primary_not_started bot evs ->
    no_creation evs ->
    (forall c, In (EvCall 0 (CStart c)) evs -> c = bot /\ multi_clients L = []) ->
    startup_effect L L' evs
| effect_primary :
    multi_clients L = [] -> work_loads L = [] ->
    multi_clients L' = [(0%Z, bot)] -> work_loads L' = [(0%Z, 0%Z)] ->
    primary_started evs ->
    (In initialized_log evs ->
     secondary_confs CLIENTS_CONFIG = [] /\ In single_client_log evs) ->
    (exists h tail,
       evs = EvRet 0 (CStart bot) (Ok h) :: registered_logs ++
             creation_events (List.length (tasks L)) (secondary_confs CLIENTS_CONFIG) ++ tail /\
       no_creation tail /\ no_main_start tail) ->
    startup_effect L L' evs
| effect_child (i : Z) :
    multi_clients L = [(0%Z, bot)] -> multi_clients L' = multi_clients L ->
    In i (map fst (secondary_confs CLIENTS_CONFIG)) ->
    work_loads L' = set i 0%Z (work_loads L) ->
    not_initialized evs -> primary_not_started bot evs ->
    no_creation evs -> no_main_start evs ->
    startup_effect L L' evs
| effect_merge (d : dict Z Handle) :
    multi_clients L = [(0%Z, bot)] -> multi_clients L' = (0%Z, bot) :: d ->
    keys d = map fst (secondary_confs CLIENTS_CONFIG) ->
    work_loads L' = work_loads L ->
    primary_not_started bot evs ->
    (children_origin L ->
     forall i h, In (i, h) d ->
       exists client_conf,
         In (i, client_conf) (secondary_confs CLIENTS_CONFIG) /\
         started_for (i, client_conf) h (trace L)) ->
    (children_origin L ->
     secondary_confs CLIENTS_CONFIG <> [] /\
     In (multi_client_log (S (List.length d))) evs) ->
    no_creation evs -> no_main_start evs ->
    (forall k, In k (keys d) -> In k (keys (work_loads L))) ->
    startup_effect L L' evs.

(** Nothing is registered as long as [bot.start()] has not returned;
    from then on the primary client is registered under 0. *)
Definition registered (L : Loop) : Prop :=
  (multi_clients L = [] /\ work_loads L = [] /\ primary_not_started bot (trace L)) \/
  (get 0%Z (multi_clients L) = Some bot /\ In 0%Z (keys (work_loads L)) /\
   primary_started (trace L)).

(** Once [initialize_clients] has returned, the pool holds the primary
    client followed by one client per secondary entry, in the order of
    the configuration. *)
Definition merged (L : Loop) : Prop :=
  In initialized_log (trace L) ->
  exists d, multi_clients L = (0%Z, bot) :: d /\
            keys d = map fst (secondary_confs CLIENTS_CONFIG).

(** Once [initialize_clients] has returned, the summary that fits the
    configuration is in the log. *)
Definition summarized (L : Loop) : Prop :=
  In initialized_log (trace L) -> In summary_log (trace L).

Definition pool_inv (L : Loop) : Prop :=
  registered L /\ merged L /\ NoDup (keys (work_loads L)) /\
  pool_within_registry L /\ registry_within_config L.

End PoolVocabulary.

(** Collaborators with which the primary client fails to start. *)
Definition primary_start_fails (c : call) (tr : list event) : outcome :=
  match c with
  | CStart (ClientObj NameBot _ _ _) => Err (ExtError 503)
  | _ => collaborators c tr
  end.

(* ================================================================== *)
(** ** Coroutines that take no part in a shutdown *)
(* ================================================================== *)

(** The statements, awaitables and tasks of the shutdown sequence: the
    close of the storage and [loop.stop()]; the stop of a client and the
    notification "Stopping all clients ..."; the [shutdown] task. *)
Definition stop_free_action (a : action) : bool :=
  match a with
  | CloseConnections => false
  | LoopStop => false
  | _ => true
  end.

Definition stop_free_call (c : call) : bool :=
  match c with
  | CStop _ => false
  | CSendInfo [Lit s] => negb (String.eqb s "Stopping all clients ...")
  | _ => true
  end.

Definition stop_free_spec (s : task_spec) : bool :=
  match s with
  | TShutdown _ => false
  | _ => true
  end.

(** The events that belong to no shutdown. *)
Definition stop_free (e : event) : bool :=
  match e with
  | EvLog _ _ => true
  | EvCreateTask _ s => stop_free_spec s
  | EvCall _ c => stop_free_call c
  | EvRet _ c _ => stop_free_call c
  | EvCloseConnections => false
  | EvLoopStop => false
  end.

(** Coroutines that do nothing of a shutdown: [init], [start_client], the
    cache updater and the web server. *)
Inductive starts_only {A : Type} : coro A -> Prop :=
| starts_only_Ret (a : A) : starts_only (Ret a)
| starts_only_Raise (e : exn) : starts_only (Raise e)
| starts_only_Do (a : action) (k : coro A) :
    stop_free_action a = true -> starts_only k -> starts_only (Do a k)
| starts_only_GetClients (k : dict Z Handle -> coro A) :
    (forall d, starts_only (k d)) -> starts_only (GetClients k)
| starts_only_Await (c : call) (k : outcome -> coro A) :
    stop_free_call c = true -> (forall o, starts_only (k o)) -> starts_only (Await c k)
| starts_only_CreateTask (s : task_spec) (k : tid -> coro A) :
    stop_free_spec s = true -> (forall t, starts_only (k t)) -> starts_only (CreateTask s k)
| starts_only_Gather (ts : list tid) (k : list task_result + exn -> coro A) :
    (forall r, starts_only (k r)) -> starts_only (Gather ts k)
| starts_only_AddDoneCallback (t : tid) (cb : callback) (k : coro A) :
    starts_only k -> starts_only (AddDoneCallback t cb k).

Definition starts_only_state (st : tstate) : Prop :=
  match st with
  | Runnable p => starts_only p
  | Waiting c k => stop_free_call c = true /\ forall o, starts_only (k o)
  | Finished _ => True
  end.

(** A loop on which nothing of a shutdown has happened, and whose tasks
    do nothing of a shutdown. *)
Definition no_shutdown (L : Loop) : Prop :=
  (forall t st, task_state t L = Some st -> starts_only_state st) /\
  forallb stop_free (trace L) = true /\
  stopping L = false.

(* ================================================================== *)
(** ** What has happened when a task returns *)
(* ================================================================== *)

Section ReturnsAfter.

(** [Q] singles out an event; [me] is the task that runs the coroutine. *)
Variable Q : event -> bool.
Variable me : tid.

(** The event that a synchronous statement leaves in the trace, if any,
    is one that [Q] singles out. *)
Definition action_hits (a : action) : bool :=
  match a with
  | Log lvl m => Q (EvLog lvl m)
  | CloseConnections => Q EvCloseConnections
  | LoopStop => Q EvLoopStop
  | _ => false
  end.

(** [returns_after p]: on every path through [p] that ends in a normal
    return, task [me] leaves an event that [Q] singles out. *)
Inductive returns_after {A : Type} : coro A -> Prop :=
| returns_after_Raise (e : exn) : returns_after (Raise e)
| returns_after_hit (a : action) (k : coro A) :
    action_hits a = true -> returns_after (Do a k)
| returns_after_Do (a : action) (k : coro A) :
    returns_after k -> returns_after (Do a k)
| returns_after_GetClients (k : dict Z Handle -> coro A) :
    (forall d, returns_after (k d)) -> returns_after (GetClients k)
| returns_after_call (c : call) (k : outcome -> coro A) :
    Q (EvCall me c) = true -> returns_after (Await c k)
| returns_after_Await (c : call) (k : outcome -> coro A) :
    (forall o, Q (EvRet me c o) = false -> returns_after (k o)) ->
    returns_after (Await c k)
| returns_after_created (s : task_spec) (k : tid -> coro A) :
    (forall t, Q (EvCreateTask t s) = true) -> returns_after (CreateTask s k)
| returns_after_CreateTask (s : task_spec) (k : tid -> coro A) :
    (forall t, returns_after (k t)) -> returns_after (CreateTask s k)
| returns_after_Gather (ts : list tid) (k : list task_result + exn -> coro A) :
    (forall r, returns_after (k r)) -> returns_after (Gather ts k)
| returns_after_AddDoneCallback (t : tid) (cb : callback) (k : coro A) :
    returns_after k -> returns_after (AddDoneCallback t cb k).

(** The event has happened, or task [me] cannot return without it. *)
Definition pending (L : Loop) : Prop :=
  existsb Q (trace L) = true \/
  match task_state me L with
  | Some (Runnable p) => returns_after p
  | Some (Waiting c k) => forall o, Q (EvRet me c o) = false -> returns_after (k o)
  | Some (Finished (inl _)) => False
  | Some (Finished (inr _)) => True
  | None => True
  end.

End ReturnsAfter.

(** The events of a complete start-up: the start of the primary client
    has returned, the cache updater and the web server have been given
    their tasks, [idle()] has returned. *)
Definition is_started (h : Handle) (e : event) : bool :=
  match e with
  | EvRet _ (CStart h') (Ok _) => if Handle_eq_dec h h' then true else false
  | _ => false
  end.

Definition creates_cache_task (e : event) : bool :=
  match e with
  | EvCreateTask _ TCacheUpdater => true
  | _ => false
  end.

Definition creates_server_task (e : event) : bool :=
  match e with
  | EvCreateTask _ TServe => true
  | _ => false
  end.

Definition is_idle_return (e : event) : bool :=
  match e with
  | EvRet _ CIdle _ => true
  | _ => false
  end.

(** The stop of the client [h] has returned. *)
Definition is_stopped (h : Handle) (e : event) : bool :=
  match e with
  | EvRet _ (CStop h') (Ok _) => if Handle_eq_dec h h' then true else false
  | _ => false
  end.


(** A [shutdown] task is created. *)
Definition creates_shutdown_task (e : event) : bool :=
  match e with
  | EvCreateTask _ (TShutdown _) => true
  | _ => false
  end.

(* ================================================================== *)
(** ** Counting the steps of the shutdown sequence *)
(* ================================================================== *)

Section Counting.

(** [cnt] singles out the events that are counted. *)
Variable cnt : event -> bool.

Definition action_count (a : action) : nat :=
  match a with
  | Log lvl m => Nat.b2n (cnt (EvLog lvl m))
  | CloseConnections => Nat.b2n (cnt EvCloseConnections)
  | LoopStop => Nat.b2n (cnt EvLoopStop)
  | _ => 0%nat
  end.

(** [owes me n p]: on every path through [p], run by task [me], exactly
    [n] counted events are still to come. *)
Inductive owes {A : Type} (me : tid) : nat -> coro A -> Prop :=
| owes_Ret (a : A) : owes me 0 (Ret a)
| owes_Raise (e : exn) : owes me 0 (Raise e)
| owes_Do (a : action) (k : coro A) (n : nat) :
    owes me n k -> owes me (action_count a + n) (Do a k)
| owes_GetClients (k : dict Z Handle -> coro A) (n : nat) :
    (forall d, owes me n (k d)) -> owes me n (GetClients k)
| owes_Await (c : call) (k : outcome -> coro A) (n : nat) :
    (forall o, cnt (EvRet me c o) = false) ->
    (forall o, owes me n (k o)) ->
    owes me (Nat.b2n (cnt (EvCall me c)) + n) (Await c k).

Definition owes_state (me : tid) (n : nat) (st : tstate) : Prop :=
  match st with
  | Runnable p => owes me n p
  | Waiting c k => (forall o, cnt (EvRet me c o) = false) /\ forall o, owes me n (k o)
  | Finished _ => n = 0%nat
  end.

(** The counted events are events of a shutdown other than the return of
    an awaitable and the stop of a client. *)
Record sequence_counter : Prop := SequenceCounter {
  sc_free : forall e, stop_free e = true -> cnt e = false;
  sc_ret : forall t c o, cnt (EvRet t c o) = false;
  sc_stop : forall t h, cnt (EvCall t (CStop h)) = false
}.

(** How many counted events one run of [stop_clients] by task [me]
    leaves. *)
Definition per_run (me : tid) : nat :=
  (Nat.b2n (cnt (EvCall me (CSendInfo [Lit "Stopping all clients ..."]))) +
   Nat.b2n (cnt EvCloseConnections))%nat.

(** The loop while the [finally] clause runs [stop_clients()] as task
    [m]: the other tasks do nothing of a shutdown, and what has been
    counted so far plus what task [m] still owes is [total]. *)
Definition cleanup_inv (total : nat) (m : tid) (L : Loop) : Prop :=
  (forall t st, t <> m -> task_state t L = Some st -> starts_only_state st) /\
  exists n st,
    task_state m L = Some st /\ owes_state m n st /\
    (count_events cnt (trace L) + n)%nat = total.

End Counting.

Unset Implicit Arguments.
(* ================================================================== *)
(** ** Facts about dictionaries *)
(* ================================================================== *)

Section DictFacts.
Context {K V : Type} `{EqKey K}.

Lemma keqb_refl (k : K) : keqb k k = true.
Proof. destruct (keqb_spec k k); congruence. Qed.

Lemma keqb_neq (a b : K) : a <> b -> keqb a b = false.
Proof. intros; destruct (keqb_spec a b); congruence. Qed.

Lemma get_set_same (k : K) (v : V) (d : dict K V) : get k (set k v d) = Some v.
Proof.
  induction d as [|[k' v'] d IH]; simpl.
  - now rewrite keqb_refl.
  - destruct (keqb_spec k k'); simpl.
    + now rewrite keqb_refl.
    + rewrite keqb_neq by assumption. exact IH.
Qed.

Lemma get_set_other (k k0 : K) (v : V) (d : dict K V) :
  k <> k0 -> get k (set k0 v d) = get k d.
Proof.
  intros Hne. induction d as [|[k' v'] d IH]; simpl.
  - now rewrite keqb_neq.
  - destruct (keqb_spec k0 k'); simpl.
    + subst k'. now rewrite !keqb_neq.
    + destruct (keqb k k'); [reflexivity | exact IH].
Qed.

Lemma in_keys_set (k k0 : K) (v : V) (d : dict K V) :
  In k (keys (set k0 v d)) <-> k = k0 \/ In k (keys d).
Proof.
  induction d as [|[k' v'] d IH]; simpl.
  - intuition.
  - destruct (keqb_spec k0 k'); simpl.
    + subst. intuition.
    + unfold keys in IH. rewrite IH. intuition.
Qed.

Lemma in_keys_update (k : K) (other d : dict K V) :
  In k (keys (update d other)) <-> In k (keys d) \/ In k (keys other).
Proof.
  unfold update. revert d.
  induction other as [|[k' v'] other IH]; intros d; simpl.
  - intuition.
  - rewrite IH, in_keys_set. simpl. intuition.
Qed.

Lemma NoDup_keys_set (k0 : K) (v : V) (d : dict K V) :
  NoDup (keys d) -> NoDup (keys (set k0 v d)).
Proof.
  induction d as [|[k' v'] d IH]; simpl; intros Hnd.
  - constructor; [intros [] | constructor].
  - inversion Hnd as [|? ? Hnotin Hnd']; subst.
    destruct (keqb_spec k0 k'); simpl.
    + subst. now constructor.
    + constructor; [|now apply IH].
      intros Hin. apply in_keys_set in Hin. destruct Hin; [congruence | contradiction].
Qed.

Lemma NoDup_keys_update (other d : dict K V) :
  NoDup (keys d) -> NoDup (keys (update d other)).
Proof.
  unfold update. revert d.
  induction other as [|[k' v'] other IH]; intros d Hnd; simpl; [assumption|].
  apply IH. now apply NoDup_keys_set.
Qed.

Lemma len_set_new (k0 : K) (v : V) (d : dict K V) :
  ~ In k0 (keys d) -> len (set k0 v d) = S (len d).
Proof.
  unfold len.
  induction d as [|[k' v'] d IH]; simpl; intros Hnotin; [reflexivity|].
  destruct (keqb_spec k0 k'); simpl.
  - subst. exfalso. apply Hnotin. now left.
  - rewrite IH; [reflexivity | tauto].
Qed.
End DictFacts.


(* ================================================================== *)
(** ** [start_client] *)
(* ================================================================== *)

Section StartClient.

Variable bot : Handle.
Variable env : call -> list event -> outcome.

(** What one run of [start_client] does, case by case. *)
Lemma start_client_exec (me : tid) (client_id : Z) (client_conf : conf) (L : Loop) :
  exec bot env me (start_client client_id client_conf) L =
  let L0 := emit (starting_log client_id) L in
  match client_args client_id client_conf with
  | inr e => (emit (failed_log client_id e) L0, Some (inl None))
  | inl c =>
      let L1 := emit (EvCall me (CStart c)) L0 in
      match env (CStart c) (trace L1) with
      | Ok h =>
          (perform (SetWorkLoad client_id 0) (emit (EvRet me (CStart c) (Ok h)) L1),
           Some (inl (Some (client_id, h))))
      | Err e =>
          (emit (failed_log client_id e) (emit (EvRet me (CStart c) (Err e)) L1),
           Some (inl None))
      end
  end.
Proof.
  unfold start_client, client_args, getitem.
  destruct (get "API_ID"%string client_conf); [|reflexivity].
  destruct (get "API_HASH"%string client_conf); [|reflexivity].
  destruct (get "BOT_TOKEN"%string client_conf); [|reflexivity].
  cbv -[set].
  match goal with |- context [env ?c ?tr] => destruct (env c tr) end; reflexivity.
Qed.

(** A missing parameter is reported by the [KeyError] of its name. *)
Lemma client_args_missing (client_id : Z) (client_conf : conf) (e : exn) :
  client_args client_id client_conf = inr e ->
  exists key, e = KeyError key /\ get key client_conf = None.
Proof.
  unfold client_args.
  destruct (get "API_ID"%string client_conf) eqn:H1;
    [|intros [= <-]; now exists "API_ID"%string].
  destruct (get "API_HASH"%string client_conf) eqn:H2;
    [|intros [= <-]; now exists "API_HASH"%string].
  destruct (get "BOT_TOKEN"%string client_conf) eqn:H3;
    [discriminate | intros [= <-]; now exists "BOT_TOKEN"%string].
Qed.

(** C5. [start_client] always returns, whatever the configuration and
    whatever the client library does; no exception leaves it.  With the
    three parameters present it issues the start of the client built from
    them, once: when that start returns the handle [h] the result is the
    pair [(client_id, h)] and nothing is logged as failed; when it raises
    [e] the failure is logged with [client_id] and [e] and the result is
    [None].  With a parameter missing no start is issued, the failure is
    logged with [client_id] and the [KeyError] of the missing name, and
    the result is [None]. *)
Theorem start_client_never_raises (me : tid) (client_id : Z) (client_conf : conf) (L : Loop) :
  exists L' r evs,
    exec bot env me (start_client client_id client_conf) L = (L', Some (inl r)) /\
    trace L' = trace L ++ evs /\
    match client_args client_id client_conf with
    | inl c =>
        match env (CStart c) (trace L ++ [starting_log client_id; EvCall me (CStart c)]) with
        | Ok h =>
            evs = [starting_log client_id; EvCall me (CStart c); EvRet me (CStart c) (Ok h)] /\
            r = Some (client_id, h)
        | Err e =>
            evs = [starting_log client_id; EvCall me (CStart c); EvRet me (CStart c) (Err e);
                   failed_log client_id e] /\
            r = None
        end
    | inr e =>
        evs = [starting_log client_id; failed_log client_id e] /\ r = None /\
        exists key, e = KeyError key /\ get key client_conf = None
    end.
Proof.
  rewrite start_client_exec. cbv zeta.
  destruct (client_args client_id client_conf) as [c|e] eqn:Hargs.
  - cbn [emit trace]. rewrite <- app_assoc. cbn [app].
    destruct (env (CStart c) (trace L ++ [starting_log client_id; EvCall me (CStart c)]))
      as [h|e].
    + eexists _, _, _. split; [reflexivity|]. split; [|split; reflexivity].
      cbn. rewrite <- !app_assoc. reflexivity.
    + eexists _, _, _. split; [reflexivity|]. split; [|split; reflexivity].
      cbn. rewrite <- !app_assoc. reflexivity.
  - eexists _, _, _. split; [reflexivity|]. split; [|split; [reflexivity|split; [reflexivity|]]].
    + cbn. rewrite <- !app_assoc. reflexivity.
    + now apply (client_args_missing client_id).
Qed.

(** C10. [start_client] never touches [multi_clients], and of
    [work_loads] it changes at most the entry of its own identifier.
    When the start of the client fails, or is not issued because a
    parameter is missing, [work_loads] is left as it is and the result is
    [None]; when the start returns the handle [h] the one change is
    [work_loads[client_id] = 0] and the result is [(client_id, h)]. *)
Theorem start_client_frame (me : tid) (client_id : Z) (client_conf : conf) (L : Loop) :
  exists L' r,
    exec bot env me (start_client client_id client_conf) L = (L', Some (inl r)) /\
    multi_clients L' = multi_clients L /\
    (forall k, k <> client_id -> get k (work_loads L') = get k (work_loads L)) /\
    match client_args client_id client_conf with
    | inl c =>
        match env (CStart c) (trace L ++ [starting_log client_id; EvCall me (CStart c)]) with
        | Ok h =>
            r = Some (client_id, h) /\ work_loads L' = set client_id 0%Z (work_loads L)
        | Err _ => r = None /\ work_loads L' = work_loads L
        end
    | inr _ => r = None /\ work_loads L' = work_loads L
    end.
Proof.
  rewrite start_client_exec. cbv zeta.
  destruct (client_args client_id client_conf) as [c|e].
  - cbn [emit trace]. rewrite <- app_assoc. cbn [app].
    destruct (env (CStart c) (trace L ++ [starting_log client_id; EvCall me (CStart c)]))
      as [h|e].
    + eexists _, _. split; [reflexivity|]. cbn. repeat split.
      intros k Hk. now apply get_set_other.
    + eexists _, _. split; [reflexivity|]. cbn. repeat split.
  - eexists _, _. split; [reflexivity|]. cbn. repeat split.
Qed.

End StartClient.

(* ================================================================== *)
(** ** Running a coroutine on its own *)
(* ================================================================== *)

Section Exec.

Variable bot : Handle.
Variable env : call -> list event -> outcome.

Lemma exec_bind {A B} (me : tid) (p : coro A) (f : A -> coro B) (L : Loop) :
  exec bot env me (bind p f) L =
  match exec bot env me p L with
  | (L', Some (inl a)) => exec bot env me (f a) L'
  | (L', Some (inr e)) => (L', Some (inr e))
  | (L', None) => (L', None)
  end.
Proof.
  revert L. induction p as [a|e|a k IH|k IH|c k IH|s k IH|ts k IH|t cb k IH];
    intros L; cbn.
  - destruct (exec bot env me (f a) L) as [L' [[b|e]|]]; reflexivity.
  - reflexivity.
  - apply IH.
  - apply IH.
  - apply IH.
  - apply IH.
  - destruct (gather_status ts L); [apply IH | reflexivity].
  - apply IH.
Qed.

Lemma exec_try_except {A} (me : tid) (p : coro A) (h : exn -> coro A) (L : Loop) :
  exec bot env me (try_except p h) L =
  match exec bot env me p L with
  | (L', Some (inr e)) => exec bot env me (h e) L'
  | other => other
  end.
Proof.
  revert L. induction p as [a|e|a k IH|k IH|c k IH|s k IH|ts k IH|t cb k IH];
    intros L; cbn.
  - reflexivity.
  - destruct (exec bot env me (h e) L) as [L' [[b|e']|]]; reflexivity.
  - apply IH.
  - apply IH.
  - apply IH.
  - apply IH.
  - destruct (gather_status ts L); [apply IH | reflexivity].
  - apply IH.
Qed.

End Exec.

Lemma stop_events_app (a b : list event) :
  stop_events (a ++ b) = stop_events a ++ stop_events b.
Proof.
  induction a as [|e a IH]; [reflexivity|].
  destruct e as [| | t c | t c o | |]; cbn; try exact IH;
    destruct c; cbn; try exact IH; now rewrite IH.
Qed.

(* ================================================================== *)
(** ** [stop_clients] *)
(* ================================================================== *)

Section StopClients.

Variable bot : Handle.
Variable env : call -> list event -> outcome.

(** The loop of [stop_clients] attempts every secondary client once, in
    order, whatever the attempts before it did, and never raises. *)
Lemma stop_each_exec (me : tid) (l : list (Z * Handle)) (L : Loop) :
  exists L' evs os,
    exec bot env me (stop_each l) L = (L', Some (inl tt)) /\
    trace L' = trace L ++ evs /\
    multi_clients L' = multi_clients L /\
    work_loads L' = work_loads L /\
    List.length os = List.length (secondaries l) /\
    stop_events evs = one_after_another (secondaries l) os.
Proof.
  revert L. induction l as [|[client_id client] rest IH]; intros L.
  - exists L, [], []. cbn. rewrite app_nil_r. repeat split.
  - cbn [stop_each]. rewrite exec_bind.
    unfold secondaries, items. cbn [filter fst].
    destruct (client_id =? 0)%Z; cbn [negb].
    + cbn [exec]. apply IH.
    + cbn -[stop_each stop_events one_after_another].
      destruct (env (CStop client) (trace L ++ [EvCall me (CStop client)]))
        as [h|e] eqn:Ho;
        cbn -[stop_each stop_events one_after_another];
        match goal with |- context [exec bot env me (stop_each rest) ?L1] =>
          destruct (IH L1) as (L' & evs & os & Hex & Htr & Hmc & Hwl & Hlen & Hsev)
        end.
      * eexists L', _, (Ok h :: os).
        split; [exact Hex|]. split.
        { rewrite Htr. cbn. rewrite <- !app_assoc. reflexivity. }
        split; [exact Hmc|]. split; [exact Hwl|]. split.
        { cbn. now rewrite Hlen. }
        cbn. now rewrite Hsev.
      * eexists L', _, (Err e :: os).
        split; [exact Hex|]. split.
        { rewrite Htr. cbn. rewrite <- !app_assoc. reflexivity. }
        split; [exact Hmc|]. split; [exact Hwl|]. split.
        { cbn. now rewrite Hlen. }
        cbn. now rewrite Hsev.
Qed.

(** C9, as amended.  [stop_clients] always returns or raises; the stop of
    the primary client is attempted and settled before anything else is
    stopped; and when it settles normally the secondary clients of the
    pool are stopped one after another, in the order of the pool, each
    attempt settled before the next begins, and [stop_clients] returns
    after the last of them. *)
Theorem stop_clients_sequential (me : tid) (L : Loop) :
  exists L' r evs o,
    exec bot env me (stop_clients bot) L = (L', Some r) /\
    trace L' = trace L ++ evs /\
    firstn 2 (stop_events evs) = [Begin bot; Settle bot o] /\
    (forall h, o = Ok h ->
       r = inl tt /\
       exists os,
         List.length os = List.length (secondaries (multi_clients L)) /\
         stop_events evs =
           Begin bot :: Settle bot o :: one_after_another (secondaries (multi_clients L)) os).
Proof.
  unfold stop_clients. cbn -[stop_each stop_events one_after_another].
  match goal with |- context [env (CStop bot) ?tr] =>
    destruct (env (CStop bot) tr) as [h|e] eqn:Ho end.
  - cbn -[stop_each stop_events one_after_another].
    match goal with |- context [exec bot env me (stop_each ?l) ?L1] =>
      destruct (stop_each_exec me l L1) as (L' & evs & os & Hex & Htr & Hmc & Hwl & Hlen & Hsev)
    end.
    eexists L', (inl tt), _, (Ok h).
    split; [exact Hex|]. split.
    { rewrite Htr. cbn. rewrite <- !app_assoc. reflexivity. }
    split; [reflexivity|].
    intros _ _. split; [reflexivity|]. exists os. split; [exact Hlen|].
    cbn. now rewrite Hsev.
  - cbn -[stop_each stop_events one_after_another].
    eexists _, (inr e), _, (Err e).
    split; [reflexivity|]. split.
    { cbn. rewrite <- !app_assoc. reflexivity. }
    split; [reflexivity|].
    intros h Hh. discriminate.
Qed.

End StopClients.

(* ================================================================== *)
(** ** Facts about the loop *)
(* ================================================================== *)

Lemma replace_nth_length {A} (n : nat) (x : A) (l : list A) :
  List.length (replace_nth n x l) = List.length l.
Proof.
  revert n. induction l as [|y l IH]; intros [|n]; cbn; auto.
Qed.

Lemma nth_error_replace_nth_same {A} (n : nat) (x : A) (l : list A) :
  (n < List.length l)%nat -> nth_error (replace_nth n x l) n = Some x.
Proof.
  revert n. induction l as [|y l IH]; intros [|n] Hlt; cbn in *; try lia; auto.
  apply IH. lia.
Qed.

Lemma nth_error_replace_nth_other {A} (n m : nat) (x : A) (l : list A) :
  n <> m -> nth_error (replace_nth n x l) m = nth_error l m.
Proof.
  revert n m. induction l as [|y l IH]; intros [|n] [|m] Hne; cbn; auto; try congruence.
Qed.

Lemma replace_nth_same {A} (n : nat) (x : A) (l : list A) :
  nth_error l n = Some x -> replace_nth n x l = l.
Proof.
  revert n. induction l as [|y l IH]; intros [|n] Hn; cbn in *; try congruence.
  f_equal. now apply IH.
Qed.

Lemma task_state_lt (t : tid) (L : Loop) (st : tstate) :
  task_state t L = Some st -> (t < List.length (tasks L))%nat.
Proof.
  unfold task_state. intros Hst. apply nth_error_Some.
  destruct (nth_error (tasks L) t); [discriminate | discriminate].
Qed.

Lemma task_state_set_same (t : tid) (st : tstate) (L : Loop) :
  (t < List.length (tasks L))%nat -> task_state t (set_state t st L) = Some st.
Proof.
  intros Hlt. unfold task_state, set_state. cbn.
  now rewrite nth_error_replace_nth_same.
Qed.

Lemma task_state_set_other (t t' : tid) (st : tstate) (L : Loop) :
  t <> t' -> task_state t' (set_state t st L) = task_state t' L.
Proof.
  intros Hne. unfold task_state, set_state. cbn.
  now rewrite nth_error_replace_nth_other.
Qed.

Lemma set_state_length (t : tid) (st : tstate) (L : Loop) :
  List.length (tasks (set_state t st L)) = List.length (tasks L).
Proof. unfold set_state. cbn. apply replace_nth_length. Qed.

Lemma task_state_emit (t : tid) (e : event) (L : Loop) :
  task_state t (emit e L) = task_state t L.
Proof. reflexivity. Qed.

Lemma task_state_perform (t : tid) (a : action) (L : Loop) :
  task_state t (perform a L) = task_state t L.
Proof. destruct a; reflexivity. Qed.

Lemma tasks_perform (a : action) (L : Loop) : tasks (perform a L) = tasks L.
Proof. destruct a; reflexivity. Qed.

Section LoopFacts.

Variable bot : Handle.

Lemma run_callback_id (cb : callback) (r : task_result + exn) (L : Loop) :
  run_callback cb r L = L.
Proof. unfold run_callback. now destruct (callback_fun cb r). Qed.

Lemma run_callbacks_id (cbs : list callback) (r : task_result + exn) (L : Loop) :
  run_callbacks cbs r L = L.
Proof.
  unfold run_callbacks. induction cbs as [|cb cbs IH]; cbn; [reflexivity|].
  now rewrite run_callback_id.
Qed.

Lemma finish_eq (t : tid) (r : task_result + exn) (L : Loop) :
  finish t r L = set_state t (Finished r) L.
Proof. unfold finish. apply run_callbacks_id. Qed.

Lemma add_task_length (s : task_spec) (L : Loop) :
  List.length (tasks (add_task bot s L)) = S (List.length (tasks L)).
Proof. unfold add_task. cbn. rewrite length_app. cbn. lia. Qed.

Lemma task_state_add_task_old (t : tid) (s : task_spec) (L : Loop) :
  (t < List.length (tasks L))%nat -> task_state t (add_task bot s L) = task_state t L.
Proof.
  intros Hlt. unfold task_state, add_task. cbn. now rewrite nth_error_app1.
Qed.

Lemma task_state_add_task_new (s : task_spec) (L : Loop) :
  task_state (List.length (tasks L)) (add_task bot s L) = Some (Runnable (task_body bot s)).
Proof.
  unfold task_state, add_task. cbn.
  rewrite nth_error_app2 by lia. now rewrite Nat.sub_diag.
Qed.

Lemma task_state_add_task_inv (t : tid) (s : task_spec) (L : Loop) (st : tstate) :
  task_state t (add_task bot s L) = Some st ->
  task_state t L = Some st \/
  (t = List.length (tasks L) /\ st = Runnable (task_body bot s)).
Proof.
  intros Hst. destruct (Nat.lt_ge_cases t (List.length (tasks L))) as [Hlt|Hge].
  - left. now rewrite task_state_add_task_old in Hst.
  - right. pose proof (task_state_lt _ _ _ Hst) as Hlt. rewrite add_task_length in Hlt.
    assert (t = List.length (tasks L)) by lia. subst t.
    rewrite task_state_add_task_new in Hst. split; congruence.
Qed.

Lemma add_callback_clients (t : tid) (cb : callback) (L : Loop) :
  multi_clients (add_callback t cb L) = multi_clients L /\
  work_loads (add_callback t cb L) = work_loads L /\
  trace (add_callback t cb L) = trace L /\
  List.length (tasks (add_callback t cb L)) = List.length (tasks L) /\
  forall t', task_state t' (add_callback t cb L) = task_state t' L.
Proof.
  unfold add_callback.
  destruct (nth_error (tasks L) t) as [[st cbs]|] eqn:Hn; [|repeat split].
  destruct st; try (rewrite run_callback_id; repeat split);
    (repeat split; cbn; [apply replace_nth_length|];
     intros t'; unfold task_state; cbn;
     destruct (Nat.eq_dec t t') as [<-|Hne];
     [ rewrite nth_error_replace_nth_same, Hn; [reflexivity|];
       apply nth_error_Some; congruence
     | now rewrite nth_error_replace_nth_other ]).
Qed.

End LoopFacts.

(* ================================================================== *)
(** ** Benign tasks *)
(* ================================================================== *)

Lemma benign_bind {A B} (p : coro A) (f : A -> coro B) :
  benign p -> (forall a, benign (f a)) -> benign (bind p f).
Proof.
  intros Hp Hf. induction Hp; cbn; try (constructor; auto); auto.
Qed.

Lemma benign_try_except {A} (p : coro A) (h : exn -> coro A) :
  benign p -> (forall e, benign (h e)) -> benign (try_except p h).
Proof.
  intros Hp Hh. induction Hp; cbn; try (constructor; auto); auto.
Qed.

Lemma benign_resume_with (o : outcome) : benign (resume_with o).
Proof. destruct o; constructor. Qed.

Lemma benign_stop_each (l : list (Z * Handle)) : benign (stop_each l).
Proof.
  induction l as [|[client_id client] rest IH]; cbn [stop_each]; [constructor|].
  apply benign_bind; [|intros _; exact IH].
  destruct (negb (client_id =? 0)%Z); [|constructor].
  apply benign_try_except.
  - apply benign_bind.
    + constructor; [reflexivity | apply benign_resume_with].
    + intros _. repeat constructor.
  - intros e. repeat constructor.
Qed.

Lemma benign_stop_clients (bot : Handle) : benign (stop_clients bot).
Proof.
  unfold stop_clients. cbn -[stop_each].
  constructor; [reflexivity|].
  constructor; [reflexivity|]. intros _.
  constructor; [reflexivity|].
  constructor; [reflexivity|]. intros o.
  destruct o as [h|e]; cbn -[stop_each]; [|constructor].
  constructor. intros d. apply benign_stop_each.
Qed.

Lemma benign_task_body (bot : Handle) (s : task_spec) :
  is_start_spec s = false -> benign (task_body bot s).
Proof.
  destruct s as [i c| | |sig]; cbn -[stop_clients]; intros Hs; try discriminate.
  - constructor; [reflexivity|]. intros [h|e]; constructor.
  - constructor; [reflexivity|]. intros [h|e]; constructor.
  - constructor; [reflexivity|]. intros _. cbn -[stop_clients].
    apply benign_bind; [|intros; constructor].
    apply benign_bind; [apply benign_stop_clients|]. intros _. repeat constructor.
Qed.

Lemma quiet_step_refl (me : tid) (L : Loop) : quiet_step me L L.
Proof.
  constructor; auto.
  - exists []. now rewrite app_nil_r.
  - intros t st Hge Hst. apply task_state_lt in Hst. lia.
Qed.

Lemma quiet_step_trans (me : tid) (L L' L'' : Loop) :
  (me < List.length (tasks L))%nat ->
  quiet_step me L L' -> quiet_step me L' L'' -> quiet_step me L L''.
Proof.
  intros Hme [Hc1 Hw1 (ev1 & Ht1 & Hq1) Hl1 Ho1 Hn1] [Hc2 Hw2 (ev2 & Ht2 & Hq2) Hl2 Ho2 Hn2].
  constructor.
  - congruence.
  - congruence.
  - exists (ev1 ++ ev2). split.
    + rewrite Ht2, Ht1. now rewrite app_assoc.
    + rewrite forallb_app. now rewrite Hq1, Hq2.
  - lia.
  - intros t Hne Hlt. rewrite Ho2 by (auto; lia). now apply Ho1.
  - intros t st Hge Hst.
    destruct (Nat.lt_ge_cases t (List.length (tasks L'))) as [Hlt|Hge'].
    + assert (t <> me) by lia. rewrite Ho2 in Hst by auto. eapply Hn1; eauto.
    + eapply Hn2; eauto.
Qed.

Lemma quiet_step_trans_same_length (me : tid) (L L' L'' : Loop) :
  List.length (tasks L') = List.length (tasks L) ->
  quiet_step me L L' -> quiet_step me L' L'' -> quiet_step me L L''.
Proof.
  intros Hlen [Hc1 Hw1 (ev1 & Ht1 & Hq1) Hl1 Ho1 Hn1] [Hc2 Hw2 (ev2 & Ht2 & Hq2) Hl2 Ho2 Hn2].
  constructor.
  - congruence.
  - congruence.
  - exists (ev1 ++ ev2). split.
    + rewrite Ht2, Ht1. now rewrite app_assoc.
    + rewrite forallb_app. now rewrite Hq1, Hq2.
  - lia.
  - intros t Hne Hlt. rewrite Ho2 by (auto; lia). now apply Ho1.
  - intros t st Hge Hst. apply (Hn2 t st); [lia | exact Hst].
Qed.

Section Benign.

Variable bot : Handle.

Lemma quiet_step_perform (me : tid) (a : action) (L : Loop) :
  quiet_action a = true -> quiet_step me L (perform a L).
Proof.
  intros Ha. destruct a; try discriminate; cbn in Ha.
  - constructor; auto.
    + exists [EvLog lvl m]. cbn. now rewrite Ha.
    + intros t st Hge Hst. apply task_state_lt in Hst. cbn in Hst. lia.
  - constructor; auto.
    + now exists [EvCloseConnections].
    + intros t st Hge Hst. apply task_state_lt in Hst. cbn in Hst. lia.
  - constructor; auto.
    + now exists [EvLoopStop].
    + intros t st Hge Hst. apply task_state_lt in Hst. cbn in Hst. lia.
Qed.

Lemma quiet_step_set_state (me : tid) (st : tstate) (L : Loop) :
  quiet_step me L (set_state me st L).
Proof.
  constructor; auto.
  - exists []. now rewrite app_nil_r.
  - now rewrite set_state_length.
  - intros t Hne Hlt. now apply task_state_set_other.
  - intros t st' Hge Hst. apply task_state_lt in Hst.
    rewrite set_state_length in Hst. lia.
Qed.

Lemma quiet_step_emit (me : tid) (e : event) (L : Loop) :
  quiet e = true -> quiet_step me L (emit e L).
Proof.
  intros He. constructor; auto.
  - exists [e]. cbn. now rewrite He.
  - intros t st Hge Hst. apply task_state_lt in Hst. cbn in Hst. lia.
Qed.

Lemma quiet_step_add_task (me : tid) (s : task_spec) (L : Loop) :
  is_start_spec s = false -> quiet_step me L (add_task bot s L).
Proof.
  intros Hs. constructor; auto.
  - exists [EvCreateTask (List.length (tasks L)) s]. cbn. now rewrite Hs.
  - rewrite add_task_length. lia.
  - intros t Hne Hlt. now apply task_state_add_task_old.
  - intros t st Hge Hst. apply task_state_add_task_inv in Hst.
    destruct Hst as [Hst|[-> ->]].
    + apply task_state_lt in Hst. lia.
    + cbn. now apply benign_task_body.
Qed.

Lemma quiet_step_add_callback (me t : tid) (cb : callback) (L : Loop) :
  quiet_step me L (add_callback t cb L).
Proof.
  destruct (add_callback_clients t cb L) as (Hc & Hw & Ht & Hl & Hs).
  constructor; auto.
  - exists []. now rewrite app_nil_r.
  - lia.
  - intros t' st Hge Hst. apply task_state_lt in Hst. lia.
Qed.

(** A turn of a benign coroutine changes neither dictionary, adds only
    quiet events, leaves the other tasks as they are, and leaves a
    benign task behind. *)
Lemma advance_benign (p : coro task_result) :
  benign p ->
  forall (me : tid) (L : Loop),
    (me < List.length (tasks L))%nat ->
    quiet_step me L (advance bot me p L) /\
    exists st, task_state me (advance bot me p L) = Some st /\ benign_state st.
Proof.
  induction 1 as [a|e|a k Ha Hk IH|k Hk IH|c k Hc Hk|s k Hs Hk IH|t cb k Hk IH];
    intros me L Hme; cbn [advance].
  - rewrite finish_eq. split; [apply quiet_step_set_state|].
    eexists. split; [now apply task_state_set_same | exact I].
  - rewrite finish_eq. split; [apply quiet_step_set_state|].
    eexists. split; [now apply task_state_set_same | exact I].
  - assert (Hme' : (me < List.length (tasks (perform a L)))%nat)
      by now rewrite tasks_perform.
    destruct (IH me _ Hme') as [Hq Hst]. split; [|exact Hst].
    eapply quiet_step_trans; [exact Hme | | exact Hq].
    apply quiet_step_perform. exact Ha.
  - apply IH. exact Hme.
  - split.
    + eapply quiet_step_trans; [exact Hme | apply quiet_step_emit | apply quiet_step_set_state].
      cbn. now rewrite Hc.
    + eexists. split; [now apply task_state_set_same|]. cbn. auto.
  - assert (Hme' : (me < List.length (tasks (add_task bot s L)))%nat)
      by (rewrite add_task_length; lia).
    destruct (IH (List.length (tasks L)) me _ Hme') as [Hq Hst]. split; [|exact Hst].
    eapply quiet_step_trans; [exact Hme | | exact Hq].
    apply quiet_step_add_task. exact Hs.
  - destruct (add_callback_clients t cb L) as (_ & _ & _ & Hl & _).
    assert (Hme' : (me < List.length (tasks (add_callback t cb L)))%nat) by lia.
    destruct (IH me _ Hme') as [Hq Hst]. split; [|exact Hst].
    eapply quiet_step_trans; [exact Hme | | exact Hq].
    apply quiet_step_add_callback.
Qed.

End Benign.

(* ================================================================== *)
(** ** Signals and schedules *)
(* ================================================================== *)

Section Schedules.

Variable bot : Handle.
Variable env : call -> list event -> outcome.

(** The handler cannot be called the way the interpreter calls it: a
    delivery raises and leaves the loop as it is. *)
Lemma deliver_raises (signum : Z) (L : Loop) :
  deliver bot signum L =
  inr (TypeError "signal_handler() takes 1 positional argument but 2 were given").
Proof. reflexivity. Qed.

Lemma do_item_turn (it : sched_item) (L L' : Loop) :
  do_item bot env it L = inl L' -> exists t, it = Tick t /\ L' = step bot env t L.
Proof.
  destruct it as [t|sig]; cbn [do_item].
  - intros [= <-]. now exists t.
  - rewrite deliver_raises. discriminate.
Qed.

(** What every turn preserves holds throughout a run. *)
Lemma run_schedule_ind (P : Loop -> Prop) :
  (forall t L, P L -> P (step bot env t L)) ->
  forall sched L, P L -> P (run_schedule bot env sched L).
Proof.
  intros Hstep sched. induction sched as [|it sched IH]; intros L HL; [exact HL|].
  cbn [run_schedule]. destruct (do_item bot env it L) as [L'|e] eqn:Hit; [|exact HL].
  apply do_item_turn in Hit. destruct Hit as (t & _ & ->). apply IH. now apply Hstep.
Qed.

Lemma run_loop_ind (P : Loop -> Prop) (main : tid) :
  (forall t L, P L -> P (step bot env t L)) ->
  forall sched L, P L -> P (fst (run_loop bot env main sched L)).
Proof.
  intros Hstep sched. induction sched as [|it sched IH]; intros L HL; [exact HL|].
  cbn [run_loop]. destruct (is_finished main L || stopping L); [exact HL|].
  destruct (do_item bot env it L) as [L'|e] eqn:Hit; [|exact HL].
  apply do_item_turn in Hit. destruct Hit as (t & _ & ->). apply IH. now apply Hstep.
Qed.

End Schedules.

(* ================================================================== *)
(** ** Start-up: the invariant of the loop *)
(* ================================================================== *)

Lemma quiet_not_secondary (e : event) : quiet e = true -> secondary_event e = false.
Proof.
  destruct e as [lvl m|t s|t c|t c o| |]; cbn; unfold secondary_event; cbn;
    try reflexivity.
  - intros H. apply andb_prop in H. destruct H as [H _].
    now destruct (is_start_client_log lvl m).
  - destruct s; cbn; congruence.
  - destruct c; cbn; congruence.
  - destruct c; cbn; congruence.
Qed.

Lemma quiet_not_initialized (e : event) : quiet e = true -> is_initialized e = false.
Proof.
  destruct e as [lvl m|t s|t c|t c o| |]; cbn; try reflexivity.
  intros H. apply andb_prop in H. destruct H as [_ H].
  now destruct (is_initialized_log lvl m).
Qed.

Lemma secondary_event_false (e : event) :
  secondary_event e = false -> start_creation e = false /\ child_run e = false.
Proof. unfold secondary_event. intros H. now apply orb_false_elim in H. Qed.

Lemma quiet_all_not_secondary (evs : list event) :
  forallb quiet evs = true -> forallb (fun e => negb (secondary_event e)) evs = true.
Proof.
  induction evs as [|e evs IH]; cbn; [reflexivity|].
  intros H. apply andb_prop in H. destruct H as [He Hevs].
  rewrite (quiet_not_secondary _ He). cbn. now apply IH.
Qed.

Lemma quiet_all_not_creation (evs : list event) :
  forallb quiet evs = true -> forallb (fun e => negb (start_creation e)) evs = true.
Proof.
  induction evs as [|e evs IH]; cbn; [reflexivity|].
  intros H. apply andb_prop in H. destruct H as [He Hevs].
  destruct (secondary_event_false _ (quiet_not_secondary _ He)) as [-> _].
  cbn. now apply IH.
Qed.

Lemma quiet_all_not_initialized (evs : list event) :
  forallb quiet evs = true -> forallb (fun e => negb (is_initialized e)) evs = true.
Proof.
  induction evs as [|e evs IH]; cbn; [reflexivity|].
  intros H. apply andb_prop in H. destruct H as [He Hevs].
  rewrite (quiet_not_initialized _ He). cbn. now apply IH.
Qed.

Lemma not_initialized_not_in (tr : list event) :
  not_initialized tr -> ~ In initialized_log tr.
Proof.
  unfold not_initialized. intros H Hin.
  rewrite forallb_forall in H. specialize (H _ Hin). discriminate.
Qed.

Section StartupFacts.

Variable CLIENTS_CONFIG : dict Z conf.
Variable bot : Handle.
Variable env : call -> list event -> outcome.

Lemma no_secondary_app (tr evs : list event) :
  no_secondary tr -> forallb (fun e => negb (secondary_event e)) evs = true ->
  no_secondary (tr ++ evs).
Proof. unfold no_secondary. intros H1 H2. rewrite forallb_app. now rewrite H1, H2. Qed.

Lemma not_initialized_app (tr evs : list event) :
  not_initialized tr -> forallb (fun e => negb (is_initialized e)) evs = true ->
  not_initialized (tr ++ evs).
Proof. unfold not_initialized. intros H1 H2. rewrite forallb_app. now rewrite H1, H2. Qed.

Lemma started_shape_app (tr evs : list event) :
  started_shape bot tr -> forallb (fun e => negb (start_creation e)) evs = true ->
  started_shape bot (tr ++ evs).
Proof.
  intros (tr0 & h & mid & tr1 & -> & H0 & Hmid & H1) Hevs.
  exists tr0, h, mid, (tr1 ++ evs). repeat split; auto.
  - rewrite <- !app_assoc. cbn. now rewrite <- app_assoc.
  - rewrite forallb_app. now rewrite H1, Hevs.
Qed.

(** The first suspension of the main task. *)
Lemma main_task_unfold :
  as_task (init CLIENTS_CONFIG bot) = Await (CStart bot) (after_start CLIENTS_CONFIG bot).
Proof. reflexivity. Qed.

Lemma as_task_init_not_benign : ~ benign (as_task (init CLIENTS_CONFIG bot)).
Proof. rewrite main_task_unfold. intros H. inversion H; subst. discriminate. Qed.

Lemma start_client_not_benign (i : Z) (c : conf) : ~ benign (start_client i c).
Proof.
  unfold start_client. cbn. intros H. inversion H; subst. discriminate.
Qed.

Lemma child_state_ext (L L' : Loop) (t : tid) (ic : Z * conf) :
  task_state t L' = task_state t L ->
  (forall k, In k (keys (work_loads L)) -> In k (keys (work_loads L'))) ->
  child_state L t ic -> child_state L' t ic.
Proof.
  unfold child_state. intros -> Hwl.
  destruct (task_state t L) as [[p|c k|[[[i h]|]|e]]|]; auto.
  intros [Hi Hin]. split; auto.
Qed.

Lemma child_state_lt (L : Loop) (t : tid) (ic : Z * conf) :
  child_state L t ic -> (t < List.length (tasks L))%nat.
Proof.
  unfold child_state. destruct (task_state t L) eqn:Hst; [|intros []].
  intros _. eapply task_state_lt; eauto.
Qed.

Lemma others_benign_quiet (special : tid -> Prop) (me : tid) (L L' : Loop) :
  others_benign special L -> quiet_step me L L' ->
  (forall st, task_state me L' = Some st -> benign_state st) ->
  others_benign special L'.
Proof.
  intros Hob Hq Hme t st Hst Hsp.
  destruct (Nat.eq_dec t me) as [->|Hne]; [now apply Hme|].
  destruct (Nat.lt_ge_cases t (List.length (tasks L))) as [Hlt|Hge].
  - rewrite (qs_old Hq) in Hst by assumption. eapply Hob; eauto.
  - eapply (qs_new Hq); eauto.
Qed.

Lemma takes_turn_not_main (me : tid) (L : Loop) (st : tstate) :
  takes_turn me L -> task_state 0 L = Some st -> ~ benign_state st -> me <> 0%nat.
Proof. intros Hme H0 Hnb ->. apply Hnb. now apply Hme. Qed.

Lemma takes_turn_not_child (me t : tid) (L : Loop) (ic : Z * conf) :
  takes_turn me L -> child_state L t ic -> me <> t.
Proof.
  intros Hme Hch ->. unfold child_state in Hch.
  destruct (task_state t L) as [st|] eqn:Hst; [|contradiction].
  destruct (Hme _ Hst) as [Hb Hnf].
  destruct st as [p|c k|r].
  - subst p. now apply start_client_not_benign in Hb.
  - destruct Hch as [Hc _]. destruct Hb as [Hb _]. congruence.
  - now apply (Hnf r).
Qed.

Lemma stage_fresh_quiet (me : tid) (L L' : Loop) :
  stage_fresh CLIENTS_CONFIG bot L -> quiet_step me L L' -> takes_turn me L ->
  (forall st, task_state me L' = Some st -> benign_state st) ->
  stage_fresh CLIENTS_CONFIG bot L'.
Proof.
  intros (H0 & Hob & Hmc & Hwl & Hns & Hni) Hq Hme Hst.
  destruct (qs_trace Hq) as (evs & Htr & Hev).
  repeat split.
  - rewrite (qs_old Hq); auto.
    + intros Heq. symmetry in Heq. revert Heq.
      eapply takes_turn_not_main; eauto. apply as_task_init_not_benign.
    + eapply task_state_lt; eauto.
  - eapply others_benign_quiet; eauto.
  - now rewrite (qs_clients Hq).
  - now rewrite (qs_loads Hq).
  - rewrite Htr. apply no_secondary_app; auto. now apply quiet_all_not_secondary.
  - rewrite Htr. apply not_initialized_app; auto. now apply quiet_all_not_initialized.
Qed.

Lemma stage_primary_quiet (me : tid) (L L' : Loop) :
  stage_primary CLIENTS_CONFIG bot L -> quiet_step me L L' -> takes_turn me L ->
  (forall st, task_state me L' = Some st -> benign_state st) ->
  stage_primary CLIENTS_CONFIG bot L'.
Proof.
  intros (H0 & Hob & Hmc & Hwl & Hns & Hni) Hq Hme Hst.
  destruct (qs_trace Hq) as (evs & Htr & Hev).
  repeat split.
  - rewrite (qs_old Hq); auto.
    + intros Heq. symmetry in Heq. revert Heq.
      eapply takes_turn_not_main; eauto. cbn. intros [Hc _]. discriminate.
    + eapply task_state_lt; eauto.
  - eapply others_benign_quiet; eauto.
  - now rewrite (qs_clients Hq).
  - now rewrite (qs_loads Hq).
  - rewrite Htr. apply no_secondary_app; auto. now apply quiet_all_not_secondary.
  - rewrite Htr. apply not_initialized_app; auto. now apply quiet_all_not_initialized.
Qed.

Lemma keys_premise_app (tr evs : list event) :
  forallb quiet evs = true ->
  In initialized_log (tr ++ evs) \/ primary_not_started bot (tr ++ evs) ->
  In initialized_log tr \/ primary_not_started bot tr.
Proof.
  intros Hev [Hin|Hnot].
  - left. apply in_app_or in Hin. destruct Hin as [Hin|Hin]; [exact Hin|]. exfalso.
    pose proof (quiet_all_not_initialized _ Hev) as Hni.
    rewrite forallb_forall in Hni. specialize (Hni _ Hin). discriminate.
  - right. intros h Hin. apply (Hnot h). apply in_or_app. now left.
Qed.

Lemma started_shape_not_started (tr : list event) :
  started_shape bot tr -> ~ primary_not_started bot tr.
Proof.
  intros (tr0 & h & mid & tr1 & -> & _) Hnot. apply (Hnot h).
  apply in_or_app. right. now left.
Qed.

Lemma in_quiet_not_creation (evs : list event) (t : tid) (i : Z) (c : conf) :
  forallb quiet evs = true -> ~ In (EvCreateTask t (TStartClient i c)) evs.
Proof.
  intros Hq Hin. rewrite forallb_forall in Hq. specialize (Hq _ Hin). discriminate.
Qed.

Lemma stage_gather_quiet (me : tid) (L L' : Loop) :
  stage_gather CLIENTS_CONFIG bot L -> quiet_step me L L' -> takes_turn me L ->
  (forall st, task_state me L' = Some st -> benign_state st) ->
  stage_gather CLIENTS_CONFIG bot L'.
Proof.
  intros (n & Hn & H0 & Hch & Hob & Hmc & [Hl0 Hl] & Hsh & Hni & Hcr) Hq Hme Hst.
  destruct (qs_trace Hq) as (evs & Htr & Hev).
  exists n. split; [exact Hn|]. split.
  { rewrite (qs_old Hq); auto.
    - intros Heq. symmetry in Heq. revert Heq.
      eapply takes_turn_not_main; eauto. cbn. intros Hb. inversion Hb.
    - eapply task_state_lt; eauto. }
  split.
  { intros j ic Hj. specialize (Hch j ic Hj).
    pose proof (child_state_lt _ _ _ Hch) as Hlt.
    eapply child_state_ext; [| |exact Hch].
    - apply (qs_old Hq); [|exact Hlt].
      intros Heq. symmetry in Heq. revert Heq. eapply takes_turn_not_child; eauto.
    - intros k. now rewrite (qs_loads Hq). }
  split; [eapply others_benign_quiet; eauto|].
  split; [now rewrite (qs_clients Hq)|].
  split; [split; rewrite (qs_loads Hq); auto|].
  split; [rewrite Htr; apply started_shape_app; auto; now apply quiet_all_not_creation|].
  split; [rewrite Htr; apply not_initialized_app; auto; now apply quiet_all_not_initialized|].
  intros t i c Hin. rewrite Htr in Hin. apply in_app_or in Hin.
  destruct Hin as [Hin|Hin]; [eauto|]. exfalso. eapply in_quiet_not_creation; eauto.
Qed.

Lemma stage_settled_quiet (me : tid) (L L' : Loop) :
  stage_settled bot L -> quiet_step me L L' -> takes_turn me L ->
  (forall st, task_state me L' = Some st -> benign_state st) ->
  stage_settled bot L'.
Proof.
  intros (Hob & Hsh & Hkeys & Hcr) Hq Hme Hst.
  destruct (qs_trace Hq) as (evs & Htr & Hev).
  split; [eapply others_benign_quiet; eauto|].
  split.
  { rewrite Htr. destruct Hsh as [Hns|Hsh].
    - left. apply no_secondary_app; auto. now apply quiet_all_not_secondary.
    - right. apply started_shape_app; auto. now apply quiet_all_not_creation. }
  split.
  { rewrite Htr, (qs_loads Hq), (qs_clients Hq). intros Hin. apply Hkeys.
    eapply keys_premise_app; eauto. }
  intros t i c Hin. rewrite Htr in Hin. apply in_app_or in Hin.
  destruct Hin as [Hin|Hin]; [|exfalso; eapply in_quiet_not_creation; eauto].
  destruct (Hcr t i c Hin) as [r Hr]. exists r.
  rewrite (qs_old Hq); auto.
  - intros ->. destruct (Hme _ Hr) as [_ Hnf]. now apply (Hnf r).
  - eapply task_state_lt; eauto.
Qed.

(** *** Turns of benign tasks *)

Lemma step_benign (t : tid) (L : Loop) (st : tstate) :
  task_state t L = Some st -> benign_state st ->
  quiet_step t L (step bot env t L) /\
  (forall st', task_state t (step bot env t L) = Some st' -> benign_state st').
Proof.
  intros Hst Hb. pose proof (task_state_lt _ _ _ Hst) as Hlt.
  unfold step. rewrite Hst. destruct st as [p|c k|r].
  - destruct (advance_benign bot p Hb t L Hlt) as [Hq (st' & Hst' & Hb')].
    split; [exact Hq|]. intros st'' Hst''. congruence.
  - destruct Hb as [Hc Hk].
    set (o := env c (trace L)).
    assert (Hlt' : (t < List.length (tasks (emit (EvRet t c o) L)))%nat) by exact Hlt.
    destruct (advance_benign bot (k o) (Hk o) t _ Hlt') as [Hq (st' & Hst' & Hb')].
    split.
    + eapply quiet_step_trans; [exact Hlt | | exact Hq].
      apply quiet_step_emit. cbn. now rewrite Hc.
    + intros st'' Hst''. congruence.
  - split; [apply quiet_step_refl|]. intros st' Hst'. rewrite Hst in Hst'.
    now injection Hst' as <-.
Qed.

(** *** The main task: from the start to [bot.start()] *)

Lemma stage_fresh_main (L : Loop) :
  stage_fresh CLIENTS_CONFIG bot L -> stage_primary CLIENTS_CONFIG bot (step bot env 0 L).
Proof.
  intros (H0 & Hob & Hmc & Hwl & Hns & Hni).
  pose proof (task_state_lt _ _ _ H0) as Hlt.
  unfold step. rewrite H0, main_task_unfold. cbn [advance].
  repeat split; auto.
  - now apply task_state_set_same.
  - intros t st Hst Ht. rewrite task_state_set_other in Hst by auto. eapply Hob; eauto.
  - cbn. apply no_secondary_app; auto.
  - cbn. apply not_initialized_app; auto.
Qed.

(** *** The main task: from [bot.start()] to [gather] *)

Lemma after_start_ok (h : Handle) :
  after_start CLIENTS_CONFIG bot (Ok h) =
  Do (Log INFO [Lit "Bot Started Successfully!"])
    (Do (SetClient 0 bot)
       (Do (SetWorkLoad 0 0)
          (Do (Log INFO [Lit "Default client initialized successfully"])
             (as_task (start_secondaries CLIENTS_CONFIG ;; init_tail))))).
Proof. reflexivity. Qed.

Lemma after_start_err (e : exn) : after_start CLIENTS_CONFIG bot (Err e) = Raise e.
Proof. reflexivity. Qed.

Lemma benign_init_tail_quiet : benign (as_task init_tail_quiet).
Proof.
  unfold as_task, init_tail_quiet. cbn.
  constructor; [reflexivity|]. intros t.
  constructor. constructor; [reflexivity|].
  constructor; [reflexivity|]. intros _.
  constructor; [reflexivity|].
  constructor; [reflexivity|]. intros _.
  constructor; [reflexivity|]. intros [h|e]; constructor.
Qed.

Lemma as_task_init_tail :
  as_task init_tail = Do (Log INFO [Lit "Starting cache manager..."]) (as_task init_tail_quiet).
Proof. reflexivity. Qed.

(** The comprehension creates one task per entry, in order. *)
Lemma advance_create_start_tasks (l : list (Z * conf)) :
  forall (F : coro (list tid) -> coro task_result),
    (forall s k, F (CreateTask s k) = CreateTask s (fun t => F (k t))) ->
    forall (me : tid) (L : Loop),
      advance bot me (F (create_start_tasks l)) L =
      advance bot me (F (Ret (seq (List.length (tasks L)) (List.length l))))
        (add_start_tasks bot l L).
Proof.
  induction l as [|[i c] l IH]; intros F HF me L; [reflexivity|].
  cbn [create_start_tasks]. unfold create_task. cbn [bind].
  rewrite HF. cbn [advance].
  rewrite (IH (fun p => F (bind p (fun ts => Ret (List.length (tasks L) :: ts))))).
  - cbn [bind add_start_tasks fold_left fst snd List.length seq].
    now rewrite add_task_length.
  - intros s k. cbn [bind]. now rewrite HF.
Qed.

Lemma add_start_tasks_facts (l : list (Z * conf)) :
  forall L,
    multi_clients (add_start_tasks bot l L) = multi_clients L /\
    work_loads (add_start_tasks bot l L) = work_loads L /\
    trace (add_start_tasks bot l L) =
      trace L ++ creation_events (List.length (tasks L)) l /\
    List.length (tasks (add_start_tasks bot l L)) = (List.length (tasks L) + List.length l)%nat /\
    (forall t, (t < List.length (tasks L))%nat ->
               task_state t (add_start_tasks bot l L) = task_state t L) /\
    (forall j ic, nth_error l j = Some ic ->
                  task_state (List.length (tasks L) + j) (add_start_tasks bot l L) =
                  Some (Runnable (start_client (fst ic) (snd ic)))).
Proof.
  induction l as [|[i c] l IH]; intros L.
  - cbn. rewrite app_nil_r. repeat split; auto.
    intros j ic Hj. destruct j; discriminate.
  - cbn [add_start_tasks fold_left fst snd].
    destruct (IH (add_task bot (TStartClient i c) L)) as (Hmc & Hwl & Htr & Hlen & Hold & Hnew).
    fold (add_start_tasks bot l (add_task bot (TStartClient i c) L)).
    rewrite add_task_length in *.
    split; [exact Hmc|]. split; [exact Hwl|]. split.
    { rewrite Htr. cbn. now rewrite <- app_assoc. }
    split; [cbn [List.length]; lia|]. split.
    { intros t Hlt. rewrite Hold by lia. now apply task_state_add_task_old. }
    intros [|j] ic Hj.
    + injection Hj as <-. rewrite Nat.add_0_r, Hold by lia.
      apply task_state_add_task_new.
    + cbn in Hj. replace (List.length (tasks L) + S j)%nat
        with (S (List.length (tasks L)) + j)%nat by lia.
      now apply Hnew.
Qed.

Lemma creation_events_no_child_run (n : nat) (l : list (Z * conf)) :
  forallb (fun e => negb (child_run e)) (creation_events n l) = true.
Proof. revert n. induction l as [|[i c] l IH]; intros n; cbn; auto. Qed.

Lemma creation_events_no_initialized (n : nat) (l : list (Z * conf)) :
  forallb (fun e => negb (is_initialized e)) (creation_events n l) = true.
Proof. revert n. induction l as [|[i c] l IH]; intros n; cbn; auto. Qed.

Lemma in_creation_events (n : nat) (l : list (Z * conf)) (t : tid) (i : Z) (c : conf) :
  In (EvCreateTask t (TStartClient i c)) (creation_events n l) ->
  (n <= t < n + List.length l)%nat.
Proof.
  revert n. induction l as [|[i' c'] l IH]; intros n; cbn; [intros []|].
  intros [Heq|Hin].
  - injection Heq as <- _ _. lia.
  - apply IH in Hin. lia.
Qed.

Lemma children_tail (L : Loop) (n : nat) (ic0 : Z * conf) (l : list (Z * conf)) :
  (forall j ic, nth_error (ic0 :: l) j = Some ic -> child_state L (n + j) ic) ->
  child_state L n ic0 /\
  (forall j ic, nth_error l j = Some ic -> child_state L (S n + j) ic).
Proof.
  intros H. split.
  - specialize (H 0%nat ic0 eq_refl). now rewrite Nat.add_0_r in H.
  - intros j ic Hj. specialize (H (S j) ic Hj).
    now replace (n + S j)%nat with (S n + j)%nat in H by lia.
Qed.

Lemma first_exception_children (l : list (Z * conf)) :
  forall n L,
    (forall j ic, nth_error l j = Some ic -> child_state L (n + j) ic) ->
    first_exception (seq n (List.length l)) L = None.
Proof.
  induction l as [|ic0 l IH]; intros n L H; [reflexivity|].
  apply children_tail in H. destruct H as [H0 H].
  cbn. unfold child_state in H0.
  destruct (task_state n L) as [[p|c k|[r|e]]|]; try contradiction; now apply IH.
Qed.

Lemma all_results_children (l : list (Z * conf)) :
  forall n L,
    (forall j ic, nth_error l j = Some ic -> child_state L (n + j) ic) ->
    match all_results (seq n (List.length l)) L with
    | Some rs =>
        Forall2 (result_ok L) l rs /\
        (forall j, (j < List.length l)%nat ->
                   exists r, task_state (n + j) L = Some (Finished r))
    | None => True
    end.
Proof.
  induction l as [|ic0 l IH]; intros n L H.
  - cbn. split; [constructor | intros j Hj; lia].
  - apply children_tail in H. destruct H as [H0 H].
    specialize (IH (S n) L H). cbn.
    unfold child_state in H0.
    destruct (task_state n L) as [[p|c k|[r|e]]|] eqn:Hst; try exact I.
    destruct (all_results (seq (S n) (List.length l)) L) as [rs|]; [|exact I].
    destruct IH as [Hrs Hfin]. split.
    + constructor; [|exact Hrs]. unfold result_ok. destruct r as [[i h]|]; auto.
    + intros [|j] Hj.
      * rewrite Nat.add_0_r. eauto.
      * replace (n + S j)%nat with (S n + j)%nat by lia. apply Hfin. cbn in Hj. lia.
Qed.

Lemma gather_status_children (l : list (Z * conf)) (n : nat) (L : Loop) :
  (forall j ic, nth_error l j = Some ic -> child_state L (n + j) ic) ->
  gather_status (seq n (List.length l)) L = None \/
  exists rs,
    gather_status (seq n (List.length l)) L = Some (inl rs) /\
    Forall2 (result_ok L) l rs /\
    (forall j, (j < List.length l)%nat ->
               exists r, task_state (n + j) L = Some (Finished r)).
Proof.
  intros H. unfold gather_status. rewrite (first_exception_children l n L H).
  pose proof (all_results_children l n L H) as Hall.
  destruct (all_results (seq n (List.length l)) L) as [rs|]; [|now left].
  right. exists rs. now split.
Qed.

Lemma gather_status_runnable (n : nat) (ts : list tid) (L : Loop) (p : coro task_result) :
  task_state n L = Some (Runnable p) ->
  first_exception (n :: ts) L = None ->
  gather_status (n :: ts) L = None.
Proof.
  intros Hst Hfe. unfold gather_status. rewrite Hfe. cbn. now rewrite Hst.
Qed.

End StartupFacts.

Section StartupMain.

Variable CLIENTS_CONFIG : dict Z conf.
Variable bot : Handle.
Variable env : call -> list event -> outcome.

(** Once the main task is benign, the start-up is settled. *)
Lemma settle (p : coro task_result) (L : Loop) :
  benign p ->
  (0 < List.length (tasks L))%nat ->
  (forall t st, task_state t L = Some st -> t <> 0%nat -> benign_state st) ->
  no_secondary (trace L) \/ started_shape bot (trace L) ->
  (In initialized_log (trace L) \/ primary_not_started bot (trace L) ->
   same_keys (work_loads L) (multi_clients L)) ->
  (forall t i c, In (EvCreateTask t (TStartClient i c)) (trace L) ->
                 t <> 0%nat /\ exists r, task_state t L = Some (Finished r)) ->
  stage_settled bot (advance bot 0 p L).
Proof.
  intros Hp Hlt Hob Hsh Hkeys Hcr.
  destruct (advance_benign bot p Hp 0%nat L Hlt) as [Hq (st & Hst & Hb)].
  destruct (qs_trace Hq) as (evs & Htr & Hev).
  split.
  { intros t st' Hst' _. destruct (Nat.eq_dec t 0) as [->|Hne]; [congruence|].
    destruct (Nat.lt_ge_cases t (List.length (tasks L))) as [Hlt'|Hge].
    - rewrite (qs_old Hq) in Hst' by assumption. eapply Hob; eauto.
    - eapply (qs_new Hq); eauto. }
  split.
  { rewrite Htr. destruct Hsh as [Hns|Hsh].
    - left. apply no_secondary_app; auto. now apply quiet_all_not_secondary.
    - right. apply started_shape_app; auto. now apply quiet_all_not_creation. }
  split.
  { rewrite Htr, (qs_loads Hq), (qs_clients Hq). intros Hin. apply Hkeys.
    eapply keys_premise_app; eauto. }
  intros t i c Hin. rewrite Htr in Hin. apply in_app_or in Hin.
  destruct Hin as [Hin|Hin]; [|exfalso; eapply in_quiet_not_creation; eauto].
  destruct (Hcr t i c Hin) as [Hne [r Hr]]. exists r.
  rewrite (qs_old Hq); auto. eapply task_state_lt; eauto.
Qed.

Lemma no_secondary_no_creation (tr : list event) (t : tid) (i : Z) (c : conf) :
  no_secondary tr -> ~ In (EvCreateTask t (TStartClient i c)) tr.
Proof.
  unfold no_secondary. intros H Hin. rewrite forallb_forall in H.
  specialize (H _ Hin). discriminate.
Qed.

Lemma truthy_nonempty {V} (d : dict Z V) : negb (truthy d) = false -> d <> [].
Proof. intros H ->. discriminate. Qed.

Lemma stage_primary_main (L : Loop) :
  stage_primary CLIENTS_CONFIG bot L -> startup_inv CLIENTS_CONFIG bot (step bot env 0 L).
Proof.
  intros (H0 & Hob & Hmc & Hwl & Hns & Hni).
  pose proof (task_state_lt _ _ _ H0) as Hlt.
  unfold step. rewrite H0. cbv zeta.
  destruct (env (CStart bot) (trace L)) as [h|e].
  - rewrite after_start_ok. cbn [advance].
    unfold start_secondaries.
    destruct (negb (truthy (additional_clients_conf CLIENTS_CONFIG))) eqn:Hc.
    + change (as_task (LOGGER_info [Lit "No additional Bot Clients found, Using default client"] ;; init_tail))
        with (Do (Log INFO [Lit "No additional Bot Clients found, Using default client"])
                (Do (Log INFO [Lit "Starting cache manager..."]) (as_task init_tail_quiet))).
      cbn [advance].
      right; right; right. apply settle.
      * apply benign_init_tail_quiet.
      * exact Hlt.
      * intros t st Hst Hne. eapply Hob; eauto.
      * right. exists (trace L), h, [], (skipn 1 [EvRet 0 (CStart bot) (Ok h);
            EvLog INFO [Lit "Bot Started Successfully!"];
            EvLog INFO [Lit "Default client initialized successfully"];
            EvLog INFO [Lit "No additional Bot Clients found, Using default client"];
            EvLog INFO [Lit "Starting cache manager..."]]).
        split; [cbn; rewrite <- !app_assoc; reflexivity|]. now split.
      * intros _. cbn. rewrite Hmc, Hwl. intros k. reflexivity.
      * intros t i c Hin. exfalso. cbn in Hin. rewrite <- !app_assoc in Hin.
        apply in_app_or in Hin. destruct Hin as [Hin|Hin].
        -- eapply no_secondary_no_creation; eauto.
        -- cbn in Hin. repeat (destruct Hin as [Hin|Hin]; [discriminate|]). exact Hin.
    + match goal with |- context [as_task (bind (bind (create_start_tasks ?l) ?G) ?T)] =>
        change (as_task (bind (bind (create_start_tasks l) G) T))
          with ((fun p => as_task (bind (bind p G) T)) (create_start_tasks l))
      end.
      rewrite advance_create_start_tasks by reflexivity.
      cbv beta.
      match goal with |- context [advance bot 0 _ (add_start_tasks bot _ ?X)] => set (L3 := X) end.
      change (startup_inv CLIENTS_CONFIG bot
                (advance bot 0
                   (Gather (seq (List.length (tasks L)) (List.length (secondary_confs CLIENTS_CONFIG)))
                      after_gather)
                   (add_start_tasks bot (secondary_confs CLIENTS_CONFIG) L3))).
      destruct (add_start_tasks_facts bot (secondary_confs CLIENTS_CONFIG) L3)
        as (Fmc & Fwl & Ftr & Flen & Fold & Fnew).
      change (List.length (tasks L3)) with (List.length (tasks L)) in *.
      set (L4 := add_start_tasks bot (secondary_confs CLIENTS_CONFIG) L3) in *.
      set (n := List.length (tasks L)) in *.
      assert (Hch : forall j ic, nth_error (secondary_confs CLIENTS_CONFIG) j = Some ic ->
                                 child_state L4 (n + j) ic).
      { intros j ic Hj. unfold child_state. now rewrite (Fnew j ic Hj). }
      assert (Hgs : gather_status (seq n (List.length (secondary_confs CLIENTS_CONFIG))) L4 = None).
      { pose proof (first_exception_children _ _ _ Hch) as Hfe.
        pose proof (truthy_nonempty _ Hc) as Hne.
        change (secondary_confs CLIENTS_CONFIG <> []) in Hne.
        destruct (secondary_confs CLIENTS_CONFIG) as [|ic0 l] eqn:Hl; [congruence|].
        cbn [List.length seq] in *.
        eapply gather_status_runnable; [|exact Hfe].
        specialize (Fnew 0%nat ic0 eq_refl). rewrite Nat.add_0_r in Fnew. exact Fnew. }
      cbn [advance]. rewrite Hgs.
      right; right; left. exists n. split; [exact Hlt|]. split.
      { apply task_state_set_same. lia. }
      split.
      { intros j ic Hj. eapply child_state_ext; [| |apply (Hch j ic Hj)].
        - apply task_state_set_other. lia.
        - auto. }
      split.
      { intros t st Hst Hsp. destruct (Nat.eq_dec t 0) as [->|Hne]; [tauto|].
        rewrite task_state_set_other in Hst by auto.
        pose proof (task_state_lt _ _ _ Hst) as Hlt'. rewrite Flen in Hlt'.
        destruct (Nat.lt_ge_cases t n) as [Hlt''|Hge].
        - rewrite Fold in Hst by exact Hlt''. eapply Hob; eauto.
        - exfalso. apply Hsp. right. unfold is_child. lia. }
      split.
      { cbn. rewrite Fmc. cbn. now rewrite Hmc. }
      split.
      { unfold loads_ok. cbn. rewrite Fwl. cbn. rewrite Hwl. cbn. split; [now left|].
        intros k [Hk|[]]. now left. }
      split.
      { cbn. rewrite Ftr. cbn. rewrite <- !app_assoc.
        exists (trace L), h,
          ([EvLog INFO [Lit "Bot Started Successfully!"];
            EvLog INFO [Lit "Default client initialized successfully"]]
             ++ creation_events n (secondary_confs CLIENTS_CONFIG)), [].
        split; [cbn; now rewrite app_nil_r|]. split; [exact Hns|]. split; [|reflexivity].
        cbn. apply creation_events_no_child_run. }
      split.
      { cbn. rewrite Ftr. cbn. rewrite <- !app_assoc.
        apply not_initialized_app; [exact Hni|]. cbn.
        apply creation_events_no_initialized. }
      intros t i c Hin. cbn in Hin. rewrite Ftr in Hin. cbn in Hin.
      rewrite <- !app_assoc in Hin. apply in_app_or in Hin. destruct Hin as [Hin|Hin].
      { exfalso. eapply no_secondary_no_creation; eauto. }
      cbn in Hin. repeat (destruct Hin as [Hin|Hin]; [discriminate|]).
      apply in_creation_events in Hin. exact Hin.
  - rewrite after_start_err.
    right; right; right.
    apply settle.
    + constructor.
    + exact Hlt.
    + intros t st Hst Hne. eapply Hob; eauto.
    + left. cbn. apply no_secondary_app; auto.
    + intros _. cbn. rewrite Hmc, Hwl. intros k. reflexivity.
    + intros t i c Hin. exfalso. cbn in Hin. apply in_app_or in Hin.
      destruct Hin as [Hin|[Hin|[]]]; [|discriminate].
      eapply no_secondary_no_creation; eauto.
Qed.

End StartupMain.

Section StartupGather.

Variable CLIENTS_CONFIG : dict Z conf.
Variable bot : Handle.
Variable env : call -> list event -> outcome.

Lemma set_state_id (t : tid) (st : tstate) (L : Loop) :
  task_state t L = Some st -> set_state t st L = L.
Proof.
  unfold task_state, set_state, task_callbacks. intros Hst.
  destruct (nth_error (tasks L) t) as [[st' cbs]|] eqn:Hn; [|discriminate].
  cbn in Hst. injection Hst as ->.
  rewrite replace_nth_same by exact Hn. now destruct L.
Qed.

Lemma task_state_same_tasks (t : tid) (L L' : Loop) :
  tasks L' = tasks L -> task_state t L' = task_state t L.
Proof. unfold task_state. now intros ->. Qed.

(** The comprehension over the gathered results. *)
Lemma collect_clients_collected (rs : list task_result) (acc : dict Z Handle) :
  collect_clients rs acc =
  match collected rs acc with
  | Some d => Ret d
  | None => Raise (TypeError "cannot unpack non-iterable NoneType object")
  end.
Proof.
  revert acc. induction rs as [|[[i h]|] rs IH]; intros acc; cbn; auto.
Qed.

Lemma collected_keys (L : Loop) (l : list (Z * conf)) (rs : list task_result) :
  Forall2 (result_ok L) l rs ->
  forall acc d,
    collected rs acc = Some d ->
    (forall k, In k (keys d) -> In k (keys acc) \/ In k (keys (work_loads L))) /\
    (forall ic, In ic l -> In (fst ic) (keys d)) /\
    (forall k, In k (keys acc) -> In k (keys d)).
Proof.
  induction 1 as [|ic r l rs Hr Hrs IH]; intros acc d Hd; cbn in Hd.
  - injection Hd as <-. repeat split; auto. intros ic [].
  - destruct r as [[i h]|]; [|discriminate].
    destruct Hr as [Hi Hin]. destruct (IH _ _ Hd) as (H1 & H2 & H3).
    repeat split.
    + intros k Hk. destruct (H1 k Hk) as [Hacc|Hwl]; [|now right].
      apply in_keys_set in Hacc. destruct Hacc as [->|Hacc]; [now right | now left].
    + intros ic' [<-|Hic']; [|now apply H2].
      apply H3. apply in_keys_set. left. now symmetry.
    + intros k Hk. apply H3. apply in_keys_set. now right.
Qed.

Lemma after_gather_results (rs : list task_result) :
  after_gather (inl rs) = as_task (merge_clients rs ;; init_tail).
Proof. reflexivity. Qed.


Lemma gather_done_others (n : nat) (L : Loop) :
  others_benign (fun t => t = 0%nat \/ is_child CLIENTS_CONFIG n t) L ->
  (forall j, (j < List.length (secondary_confs CLIENTS_CONFIG))%nat ->
             exists r, task_state (n + j) L = Some (Finished r)) ->
  forall t st, task_state t L = Some st -> t <> 0%nat -> benign_state st.
Proof.
  intros Hob Hfin t st Hst Hne.
  destruct (le_lt_dec n t) as [Hge|Hlt].
  - destruct (lt_dec t (n + List.length (secondary_confs CLIENTS_CONFIG))) as [Hlt|Hge'].
    + destruct (Hfin (t - n)%nat ltac:(lia)) as [r Hr].
      replace (n + (t - n))%nat with t in Hr by lia.
      rewrite Hst in Hr. injection Hr as ->. exact I.
    + eapply Hob; eauto. unfold is_child. lia.
  - eapply Hob; eauto. unfold is_child. lia.
Qed.

Lemma stage_gather_main (L : Loop) :
  stage_gather CLIENTS_CONFIG bot L -> startup_inv CLIENTS_CONFIG bot (step bot env 0 L).
Proof.
  intros (n & Hn & H0 & Hch & Hob & Hmc & [Hl0 Hl] & Hsh & Hni & Hcr).
  pose proof (task_state_lt _ _ _ H0) as Hlt.
  unfold step. rewrite H0. cbn [advance].
  destruct (gather_status_children _ _ _ Hch) as [Hg | (rs & Hg & Hrs & Hfin)]; rewrite Hg.
  - rewrite set_state_id by exact H0. right; right; left.
    exists n. repeat (split; [solve [auto | split; auto]|]). exact Hcr.
  - assert (Hcr' : forall t i c, In (EvCreateTask t (TStartClient i c)) (trace L) ->
                     t <> 0%nat /\ exists r, task_state t L = Some (Finished r)).
    { intros t i c Hin. apply Hcr in Hin. unfold is_child in Hin. split; [lia|].
      destruct (Hfin (t - n)%nat ltac:(lia)) as [r Hr].
      replace (n + (t - n))%nat with t in Hr by lia. eauto. }
    rewrite after_gather_results. unfold merge_clients.
    rewrite collect_clients_collected.
    right; right; right.
    destruct (collected rs []) as [d|] eqn:Hd.
    + cbn [bind as_task do]. cbn [advance].
      unfold get_clients. cbn [bind advance].
      set (L1 := perform (UpdateClients d) L).
      assert (Hkeys : same_keys (work_loads L1) (multi_clients L1)).
      { destruct (collected_keys _ _ _ Hrs _ _ Hd) as (K1 & K2 & K3).
        unfold L1. cbn. rewrite Hmc. intros k. rewrite in_keys_update. cbn. split.
        - intros Hk. destruct (Hl k Hk) as [->|Hin]; [now left; left|].
          right. apply in_map_iff in Hin. destruct Hin as (ic & <- & Hic). now apply K2.
        - intros [[<-|[]]|Hk]; [exact Hl0|].
          destruct (K1 k Hk) as [[]|Hwl]. exact Hwl. }
      assert (Hfinal : forall m,
                 quiet (EvLog INFO m) = true ->
                 stage_settled bot
                   (advance bot 0
                      (Do (Log INFO m)
                         (Do (Log INFO [Lit "Starting cache manager..."])
                            (as_task init_tail_quiet))) L1)).
      { intros m Hm. cbn [advance]. apply settle.
        - apply benign_init_tail_quiet.
        - exact Hlt.
        - intros t st Hst Hne. eapply gather_done_others; eauto.
        - right. cbn. rewrite <- app_assoc. apply started_shape_app; auto.
        - intros _. exact Hkeys.
        - intros t i c Hin. cbn in Hin. rewrite <- app_assoc in Hin.
          apply in_app_or in Hin. destruct Hin as [Hin|Hin]; [now apply (Hcr' t i c)|].
          cbn in Hin. destruct Hin as [Hin|[Hin|[]]]; discriminate. }
      destruct (1 <? len (multi_clients L1))%nat; apply Hfinal; reflexivity.
    + change (stage_settled bot
                (advance bot 0 (Raise (TypeError "cannot unpack non-iterable NoneType object")) L)).
      apply settle; auto.
      * constructor.
      * eapply gather_done_others; eauto.
      * intros [Hin|Hnot]; exfalso.
        -- eapply not_initialized_not_in; eauto.
        -- eapply started_shape_not_started; eauto.
Qed.


(** *** The [start_client] tasks *)

Lemma advance_start_client (t : tid) (i : Z) (c : conf) (L : Loop) :
  advance bot t (start_client i c) L =
  match client_args i c with
  | inr e => finish t (inl None) (emit (failed_log i e) (emit (starting_log i) L))
  | inl cl =>
      set_state t (Waiting (CStart cl) (start_k i))
        (emit (EvCall t (CStart cl)) (emit (starting_log i) L))
  end.
Proof.
  unfold start_client, client_args, getitem.
  destruct (get "API_ID"%string c); [|reflexivity].
  destruct (get "API_HASH"%string c); [|reflexivity].
  destruct (get "BOT_TOKEN"%string c); reflexivity.
Qed.

Lemma advance_start_k (t : tid) (i : Z) (o : outcome) (L : Loop) :
  advance bot t (start_k i o) L =
  match o with
  | Ok h => finish t (inl (Some (i, h))) (perform (SetWorkLoad i 0) L)
  | Err e => finish t (inl None) (emit (failed_log i e) L)
  end.
Proof. destruct o; reflexivity. Qed.

(** A turn of the [j]-th [start_client] task keeps the loop in the
    gather stage. *)
Lemma gather_child_update (n j : nat) (ic : Z * conf) (L L1 : Loop) (st' : tstate) :
  (0 < n)%nat ->
  task_state 0 L =
    Some (Runnable (Gather (seq n (List.length (secondary_confs CLIENTS_CONFIG))) after_gather)) ->
  (forall j ic, nth_error (secondary_confs CLIENTS_CONFIG) j = Some ic ->
                child_state L (n + j) ic) ->
  others_benign (fun t => t = 0%nat \/ is_child CLIENTS_CONFIG n t) L ->
  multi_clients L = [(0%Z, bot)] ->
  loads_ok CLIENTS_CONFIG L ->
  started_shape bot (trace L) -> not_initialized (trace L) ->
  (forall t i c, In (EvCreateTask t (TStartClient i c)) (trace L) ->
                 is_child CLIENTS_CONFIG n t) ->
  nth_error (secondary_confs CLIENTS_CONFIG) j = Some ic ->
  tasks L1 = tasks L ->
  multi_clients L1 = multi_clients L ->
  (exists evs, trace L1 = trace L ++ evs /\
               forallb (fun e => negb (start_creation e)) evs = true /\
               forallb (fun e => negb (is_initialized e)) evs = true) ->
  (work_loads L1 = work_loads L \/ work_loads L1 = set (fst ic) 0%Z (work_loads L)) ->
  child_state (set_state (n + j) st' L1) (n + j) ic ->
  stage_gather CLIENTS_CONFIG bot (set_state (n + j) st' L1).
Proof.
  intros Hn H0 Hch Hob Hmc [Hl0 Hl] Hsh Hni Hcr Hj Htasks Hmc1 (evs & Htr & Hev1 & Hev2) Hwl Hst'.
  assert (Hmono : forall k, In k (keys (work_loads L)) -> In k (keys (work_loads L1))).
  { intros k Hk. destruct Hwl as [->| ->]; [exact Hk|]. apply in_keys_set. now right. }
  exists n. split; [exact Hn|]. split.
  { rewrite task_state_set_other by lia. now rewrite (task_state_same_tasks 0 _ _ Htasks). }
  split.
  { intros j' ic' Hj'. destruct (Nat.eq_dec j' j) as [->|Hne].
    - rewrite Hj in Hj'. injection Hj' as <-. exact Hst'.
    - eapply child_state_ext; [| |apply (Hch j' ic' Hj')].
      + rewrite task_state_set_other by lia. now apply task_state_same_tasks.
      + exact Hmono. }
  split.
  { intros t st Hst Hsp.
    assert (Hne : n + j <> t).
    { intros <-. apply Hsp. right. unfold is_child.
      assert (nth_error (secondary_confs CLIENTS_CONFIG) j <> None) as Hlt by congruence.
      apply nth_error_Some in Hlt. lia. }
    rewrite task_state_set_other in Hst by exact Hne.
    rewrite (task_state_same_tasks t _ _ Htasks) in Hst. eapply Hob; eauto. }
  split; [cbn; congruence|].
  split.
  { split; cbn.
    - now apply Hmono.
    - intros k Hk. destruct Hwl as [Hw|Hw]; rewrite Hw in Hk; [now apply Hl|].
      apply in_keys_set in Hk. destruct Hk as [->|Hk]; [|now apply Hl].
      right. apply in_map. eapply nth_error_In; eauto. }
  split; [cbn; rewrite Htr; now apply started_shape_app|].
  split; [cbn; rewrite Htr; now apply not_initialized_app|].
  intros t i c Hin. cbn in Hin. rewrite Htr in Hin. apply in_app_or in Hin.
  destruct Hin as [Hin|Hin]; [now apply (Hcr t i c)|]. exfalso.
  rewrite forallb_forall in Hev1. specialize (Hev1 _ Hin). discriminate.
Qed.


Lemma benign_tick (P : Loop -> Prop) (t : tid) (L : Loop) (st : tstate) :
  (forall L', quiet_step t L L' -> takes_turn t L ->
              (forall st', task_state t L' = Some st' -> benign_state st') -> P L') ->
  P L -> task_state t L = Some st -> benign_state st ->
  P (step bot env t L).
Proof.
  intros HP HL Hst Hb.
  destruct (step_benign bot env t L st Hst Hb) as [Hq Hb'].
  destruct st as [p|c k|r].
  - apply HP; auto. intros st' Hst'. rewrite Hst in Hst'. injection Hst' as <-.
    split; [exact Hb | discriminate].
  - apply HP; auto. intros st' Hst'. rewrite Hst in Hst'. injection Hst' as <-.
    split; [exact Hb | discriminate].
  - unfold step. now rewrite Hst.
Qed.

Lemma stage_gather_tick (t : tid) (L : Loop) :
  stage_gather CLIENTS_CONFIG bot L -> startup_inv CLIENTS_CONFIG bot (step bot env t L).
Proof.
  intros Hstage.
  destruct (Nat.eq_dec t 0) as [->|Hne0]; [now apply stage_gather_main|].
  pose proof Hstage as (n & Hn & H0 & Hch & Hob & Hmc & Hloads & Hsh & Hni & Hcr).
  destruct (task_state t L) as [st|] eqn:Hts;
    [|unfold step; rewrite Hts; right; right; left; exact Hstage].
  destruct (le_lt_dec n t) as [Hge|Hlt];
    [destruct (lt_dec t (n + List.length (secondary_confs CLIENTS_CONFIG))) as [Hlt|Hge']|].
  - (* a start_client task *)
    destruct (nth_error (secondary_confs CLIENTS_CONFIG) (t - n)) as [ic|] eqn:Hj;
      [|apply nth_error_None in Hj; lia].
    pose proof (Hch _ _ Hj) as Hc. replace (n + (t - n))%nat with t in Hc by lia.
    unfold child_state in Hc. rewrite Hts in Hc.
    assert (Hlt' : (t < List.length (tasks L))%nat) by (eapply task_state_lt; eauto).
    right; right; left. unfold step. rewrite Hts.
    replace t with (n + (t - n))%nat by lia.
    destruct st as [p|c k|[[[i h]|]|e]]; try contradiction.
    + subst p. rewrite advance_start_client.
      destruct (client_args (fst ic) (snd ic)) as [cl|e].
      * eapply gather_child_update with (L := L) (ic := ic); eauto.
        -- eexists [_; _]. cbn. rewrite <- app_assoc. split; [reflexivity|]. split; reflexivity.
        -- unfold child_state. rewrite task_state_set_same by (cbn; lia). now split.
      * rewrite finish_eq.
        eapply gather_child_update with (L := L) (ic := ic); eauto.
        -- eexists [_; _]. cbn. rewrite <- app_assoc. split; [reflexivity|]. split; reflexivity.
        -- unfold child_state. rewrite task_state_set_same by (cbn; lia). exact I.
    + destruct Hc as [Hc ->]. cbv zeta. rewrite advance_start_k.
      destruct (env c (trace L)) as [h|e]; rewrite finish_eq.
      * eapply gather_child_update with (L := L) (ic := ic); eauto.
        -- eexists [_]. cbn. split; [reflexivity|]. split; [|reflexivity].
           destruct c; reflexivity.
        -- unfold child_state. rewrite task_state_set_same by (cbn; lia).
           split; [reflexivity|]. cbn. apply in_keys_set. now left.
      * eapply gather_child_update with (L := L) (ic := ic); eauto.
        -- eexists [_; _]. cbn. rewrite <- app_assoc. split; [reflexivity|].
           split; [|destruct c; reflexivity]. destruct c; reflexivity.
        -- unfold child_state. rewrite task_state_set_same by (cbn; lia). exact I.
    + exact Hstage.
    + exact Hstage.
  - right; right; left. eapply benign_tick; eauto.
    + intros L' Hq Htt Hb. eapply stage_gather_quiet; eauto.
    + eapply Hob; eauto. unfold is_child. lia.
  - right; right; left. eapply benign_tick; eauto.
    + intros L' Hq Htt Hb. eapply stage_gather_quiet; eauto.
    + eapply Hob; eauto. unfold is_child. lia.
Qed.

End StartupGather.

Section StartupInvariant.

Variable CLIENTS_CONFIG : dict Z conf.
Variable bot : Handle.
Variable env : call -> list event -> outcome.

Lemma startup_inv_initial : stage_fresh CLIENTS_CONFIG bot (startup_loop CLIENTS_CONFIG bot).
Proof.
  repeat split.
  intros t st Hst Hne. exfalso. apply Hne.
  apply task_state_lt in Hst. cbn in Hst. lia.
Qed.

Lemma startup_inv_step (t : tid) (L : Loop) :
  startup_inv CLIENTS_CONFIG bot L -> startup_inv CLIENTS_CONFIG bot (step bot env t L).
Proof.
  intros Hinv. destruct Hinv as [Hs|[Hs|[Hs|Hs]]].
  - destruct (Nat.eq_dec t 0) as [->|Hne].
    { right; left. now apply stage_fresh_main. }
    left. destruct (task_state t L) as [st|] eqn:Hts; [|unfold step; now rewrite Hts].
    eapply benign_tick; eauto.
    + intros L' Hq Htt Hb. eapply stage_fresh_quiet; eauto.
    + destruct Hs as (_ & Hob & _). eapply Hob; eauto.
  - destruct (Nat.eq_dec t 0) as [->|Hne].
    { now apply stage_primary_main. }
    right; left. destruct (task_state t L) as [st|] eqn:Hts; [|unfold step; now rewrite Hts].
    eapply benign_tick; eauto.
    + intros L' Hq Htt Hb. eapply stage_primary_quiet; eauto.
    + destruct Hs as (_ & Hob & _). eapply Hob; eauto.
  - now apply stage_gather_tick.
  - right; right; right.
    destruct (task_state t L) as [st|] eqn:Hts; [|unfold step; now rewrite Hts].
    eapply benign_tick; eauto.
    + intros L' Hq Htt Hb. eapply stage_settled_quiet; eauto.
    + destruct Hs as (Hob & _). eapply Hob; eauto.
Qed.

Lemma startup_inv_run (sched : list sched_item) (L : Loop) :
  startup_inv CLIENTS_CONFIG bot L ->
  startup_inv CLIENTS_CONFIG bot (run_schedule bot env sched L).
Proof. apply run_schedule_ind. intros t L0. apply startup_inv_step. Qed.

Lemma startup_inv_reachable (sched : list sched_item) :
  startup_inv CLIENTS_CONFIG bot
    (run_schedule bot env sched (startup_loop CLIENTS_CONFIG bot)).
Proof. apply startup_inv_run. left. apply startup_inv_initial. Qed.

(** *** What the invariant says about the trace *)

Lemma primary_return_not_secondary (h : Handle) :
  secondary_event (EvRet 0 (CStart bot) (Ok h)) = false.
Proof. reflexivity. Qed.

Lemma no_secondary_in (tr : list event) (e : event) :
  no_secondary tr -> In e tr -> secondary_event e = false.
Proof.
  unfold no_secondary. intros H Hin. rewrite forallb_forall in H.
  specialize (H _ Hin). now destruct (secondary_event e).
Qed.

Lemma forallb_negb_in (f : event -> bool) (tr : list event) (e : event) :
  forallb (fun e => negb (f e)) tr = true -> In e tr -> f e = false.
Proof.
  intros H Hin. rewrite forallb_forall in H.
  specialize (H _ Hin). now destruct (f e).
Qed.

Lemma no_secondary_primary_first (tr : list event) :
  no_secondary tr -> primary_first bot tr.
Proof.
  intros Hns pre e post -> He.
  rewrite (no_secondary_in _ e Hns) in He; [discriminate|].
  apply in_or_app. right. now left.
Qed.

Lemma no_secondary_issued_before_run (tr : list event) :
  no_secondary tr -> issued_before_run tr.
Proof.
  intros Hns pre e post -> He.
  assert (Hs : secondary_event e = false).
  { apply (no_secondary_in _ e Hns). apply in_or_app. right. now left. }
  unfold secondary_event in Hs. rewrite He in Hs. discriminate.
Qed.

Lemma started_shape_primary_first (tr : list event) :
  started_shape bot tr -> primary_first bot tr.
Proof.
  intros (tr0 & h & mid & tr1 & -> & H0 & Hmid & H1) pre e post Heq He.
  apply app_eq_app in Heq. destruct Heq as (l & [[-> Hl]|[-> Hl]]).
  - exfalso. destruct l as [|x l]; cbn in Hl.
    + injection Hl as -> _. now rewrite primary_return_not_secondary in He.
    + injection Hl as -> _. rewrite (no_secondary_in _ x H0) in He; [discriminate|].
      apply in_or_app. right. now left.
  - destruct l as [|x l]; cbn in Hl.
    + injection Hl as <- _. now rewrite primary_return_not_secondary in He.
    + injection Hl as <- _. exists h. apply in_or_app. right. now left.
Qed.

Lemma started_shape_issued_before_run (tr : list event) :
  started_shape bot tr -> issued_before_run tr.
Proof.
  intros (tr0 & h & mid & tr1 & -> & H0 & Hmid & H1) pre e post Heq He e' Hin.
  apply app_eq_app in Heq. destruct Heq as (l & [[-> Hl]|[-> Hl]]).
  - exfalso. destruct l as [|x l]; cbn in Hl.
    + injection Hl as -> _. discriminate.
    + injection Hl as -> _.
      assert (Hs : secondary_event x = false).
      { apply (no_secondary_in _ x H0). apply in_or_app. right. now left. }
      unfold secondary_event in Hs. rewrite He in Hs. discriminate.
  - destruct l as [|x l]; cbn in Hl.
    + injection Hl as <- _. discriminate.
    + injection Hl as <- Hl. apply app_eq_app in Hl.
      destruct Hl as (l2 & [[-> Hl2]|[-> Hl2]]).
      * destruct l2 as [|y l2]; cbn in Hl2.
        -- exfalso. rewrite (forallb_negb_in _ _ e H1) in He; [discriminate|].
           rewrite <- Hl2. now left.
        -- injection Hl2 as -> _.
           apply in_app_or in Hin. destruct Hin as [Hin|[<-|Hin]].
           ++ now destruct (secondary_event_false _ (no_secondary_in _ _ H0 Hin)).
           ++ reflexivity.
           ++ apply (forallb_negb_in _ _ _ Hmid). apply in_or_app. now left.
      * exfalso. rewrite (forallb_negb_in _ _ e H1) in He; [discriminate|].
        rewrite Hl2. apply in_or_app. right. now left.
Qed.

Lemma startup_inv_shape (L : Loop) :
  startup_inv CLIENTS_CONFIG bot L ->
  no_secondary (trace L) \/ started_shape bot (trace L).
Proof.
  intros [Hs|[Hs|[Hs|Hs]]].
  - left. apply Hs.
  - left. apply Hs.
  - right. destruct Hs as (n & Hs). apply Hs.
  - apply Hs.
Qed.

Lemma startup_inv_waits (L : Loop) :
  startup_inv CLIENTS_CONFIG bot L -> waits_for_all L.
Proof.
  intros [Hs|[Hs|[Hs|Hs]]] t i c Hin.
  - exfalso. destruct Hs as (_ & _ & _ & _ & Hns & _).
    eapply no_secondary_no_creation; eauto.
  - exfalso. destruct Hs as (_ & _ & _ & _ & Hns & _).
    eapply no_secondary_no_creation; eauto.
  - right. destruct Hs as (n & Hn & H0 & _ & _ & _ & _ & _ & _ & Hcr).
    eexists _, _. split; [exact H0|]. apply in_seq. apply (Hcr t i c Hin).
  - left. destruct Hs as (_ & _ & _ & Hcr). eauto.
Qed.

Lemma startup_inv_keys (L : Loop) :
  startup_inv CLIENTS_CONFIG bot L ->
  In initialized_log (trace L) \/ primary_not_started bot (trace L) ->
  same_keys (work_loads L) (multi_clients L).
Proof.
  intros [Hs|[Hs|[Hs|Hs]]] Hpre.
  - destruct Hs as (_ & _ & Hmc & Hwl & _). rewrite Hmc, Hwl. intros k. reflexivity.
  - destruct Hs as (_ & _ & Hmc & Hwl & _). rewrite Hmc, Hwl. intros k. reflexivity.
  - exfalso. destruct Hs as (n & _ & _ & _ & _ & _ & _ & Hsh & Hni & _).
    destruct Hpre as [Hin|Hnot].
    + eapply not_initialized_not_in; eauto.
    + eapply started_shape_not_started; eauto.
  - destruct Hs as (_ & _ & Hk & _). now apply Hk.
Qed.

End StartupInvariant.

(* ================================================================== *)
(** ** Counting events *)
(* ================================================================== *)

Lemma count_events_app (f : event -> bool) (a b : list event) :
  count_events f (a ++ b) = (count_events f a + count_events f b)%nat.
Proof. unfold count_events. now rewrite filter_app, length_app. Qed.

Lemma count_events_snoc (f : event -> bool) (a : list event) (e : event) :
  count_events f (a ++ [e]) = (count_events f a + Nat.b2n (f e))%nat.
Proof. rewrite count_events_app. unfold count_events. cbn. now destruct (f e). Qed.

Lemma in_secondaries (pool : dict Z Handle) (client_id : Z) (client : Handle) :
  In (client_id, client) pool -> client_id <> 0%Z -> In client (secondaries pool).
Proof.
  intros Hin Hne. unfold secondaries, items. apply in_map_iff.
  exists (client_id, client). split; [reflexivity|].
  apply filter_In. split; [exact Hin|]. cbn. now destruct (Z.eqb_spec client_id 0).
Qed.


(* ================================================================== *)
(** ** A coroutine run on its own is the task run turn by turn *)
(* ================================================================== *)

Lemma same_but_refl (me : tid) (L : Loop) : same_but me L L.
Proof. repeat split. Qed.

Lemma same_but_perform (me : tid) (a : action) (L1 L2 : Loop) :
  same_but me L1 L2 -> same_but me (perform a L1) (perform a L2).
Proof.
  intros (H1 & H2 & H3 & H4 & H5 & H6).
  destruct a; cbn; repeat split; cbn; congruence || auto.
Qed.

Lemma same_but_emit (me : tid) (e : event) (L1 L2 : Loop) :
  same_but me L1 L2 -> same_but me (emit e L1) (emit e L2).
Proof.
  intros (H1 & H2 & H3 & H4 & H5 & H6). repeat split; cbn; congruence || auto.
Qed.

Lemma same_but_set_state (me : tid) (st : tstate) (L1 L2 : Loop) :
  same_but me L1 L2 -> same_but me L1 (set_state me st L2).
Proof.
  intros (H1 & H2 & H3 & H4 & H5 & H6). repeat split; cbn; auto.
  - now rewrite replace_nth_length.
  - intros t Hne. rewrite nth_error_replace_nth_other by auto. now apply H6.
Qed.

Section ExecSteps.

Variable bot : Handle.
Variable env : call -> list event -> outcome.

(** Every plain coroutine settles; the turns of a task that runs it leave
    the loop as the run on its own does, and the task done with the same
    result. *)
Lemma exec_plain_steps (p : coro task_result) :
  plain p ->
  forall (me : tid) (L1 L2 : Loop),
    same_but me L1 L2 -> (me < List.length (tasks L2))%nat ->
    exists n L' r,
      exec bot env me p L1 = (L', Some r) /\
      same_but me L' (Nat.iter n (step bot env me) (advance bot me p L2)) /\
      task_state me (Nat.iter n (step bot env me) (advance bot me p L2)) = Some (Finished r).
Proof.
  induction 1 as [a|e|a k Hk IH|k Hk IH|c k Hk IH]; intros me L1 L2 Hsame Hme.
  - exists 0%nat, L1, (inl a). cbn [exec advance Nat.iter]. rewrite finish_eq.
    split; [reflexivity|]. split; [now apply same_but_set_state|].
    now apply task_state_set_same.
  - exists 0%nat, L1, (inr e). cbn [exec advance Nat.iter]. rewrite finish_eq.
    split; [reflexivity|]. split; [now apply same_but_set_state|].
    now apply task_state_set_same.
  - cbn [exec advance]. apply IH; [now apply same_but_perform|].
    now rewrite tasks_perform.
  - cbn [exec advance]. destruct Hsame as (H1 & Hrest). rewrite H1.
    apply IH; [|exact Hme]. now split.
  - cbn [exec advance].
    set (o := env c (trace (emit (EvCall me c) L1))).
    set (M := set_state me (Waiting c k) (emit (EvCall me c) L2)).
    assert (HsameM : same_but me (emit (EvCall me c) L1) M).
    { apply same_but_set_state. now apply same_but_emit. }
    assert (Htr : trace M = trace (emit (EvCall me c) L1)).
    { destruct HsameM as (_ & _ & Htr & _). now symmetry. }
    assert (HmeM : (me < List.length (tasks M))%nat).
    { unfold M. rewrite set_state_length. exact Hme. }
    assert (Hstep : step bot env me M = advance bot me (k o) (emit (EvRet me c o) M)).
    { unfold step, M. rewrite task_state_set_same by exact Hme.
      fold M. cbv zeta. rewrite Htr. reflexivity. }
    destruct (IH o me (emit (EvRet me c o) (emit (EvCall me c) L1)) (emit (EvRet me c o) M))
      as (n & L' & r & Hex & Hs & Hfin).
    { now apply same_but_emit. }
    { exact HmeM. }
    exists (S n), L', r. rewrite Nat.iter_succ_r, Hstep.
    split; [exact Hex|]. split; assumption.
Qed.

Lemma plain_bind {A B} (p : coro A) (f : A -> coro B) :
  plain p -> (forall a, plain (f a)) -> plain (bind p f).
Proof. intros Hp Hf. induction Hp; cbn; try constructor; auto. Qed.

Lemma plain_try_except {A} (p : coro A) (h : exn -> coro A) :
  plain p -> (forall e, plain (h e)) -> plain (try_except p h).
Proof. intros Hp Hh. induction Hp; cbn; try constructor; auto. Qed.

Lemma plain_resume_with (o : outcome) : plain (resume_with o).
Proof. destruct o; constructor. Qed.

Lemma plain_start_client (i : Z) (c : conf) : plain (start_client i c).
Proof.
  unfold start_client, getitem. apply plain_try_except; [|intros; repeat constructor].
  cbn [bind LOGGER_info do]. constructor.
  destruct (get "API_ID"%string c); [|constructor].
  destruct (get "API_HASH"%string c); [|constructor].
  destruct (get "BOT_TOKEN"%string c); [|constructor].
  cbn. constructor. intros [h|e]; repeat constructor.
Qed.

Lemma plain_stop_each (l : list (Z * Handle)) : plain (stop_each l).
Proof.
  induction l as [|[client_id client] rest IH]; cbn [stop_each]; [constructor|].
  apply plain_bind; [|intros _; exact IH].
  destruct (negb (client_id =? 0)%Z); [|constructor].
  apply plain_try_except.
  - apply plain_bind; [|intros; repeat constructor].
    constructor. apply plain_resume_with.
  - intros e. repeat constructor.
Qed.

Lemma plain_stop_clients : plain (stop_clients bot).
Proof.
  unfold stop_clients. cbn -[stop_each].
  constructor. constructor. intros _. constructor. constructor.
  intros [h|e]; cbn -[stop_each]; [|constructor].
  constructor. intros d. apply plain_stop_each.
Qed.

(** [start_client] and [stop_clients] as tasks: the turns of the task end
    with the result of the run on its own. *)
Lemma start_client_as_task (me : tid) (i : Z) (c : conf) (L : Loop) :
  (me < List.length (tasks L))%nat ->
  exists n L' r,
    exec bot env me (start_client i c) L = (L', Some r) /\
    same_but me L' (Nat.iter n (step bot env me) (advance bot me (start_client i c) L)) /\
    task_state me (Nat.iter n (step bot env me) (advance bot me (start_client i c) L))
      = Some (Finished r).
Proof.
  intros Hme. apply exec_plain_steps; [apply plain_start_client | apply same_but_refl | exact Hme].
Qed.

Lemma stop_clients_as_task (me : tid) (L : Loop) :
  (me < List.length (tasks L))%nat ->
  exists n L' r,
    exec bot env me (as_task (stop_clients bot)) L = (L', Some r) /\
    same_but me L'
      (Nat.iter n (step bot env me) (advance bot me (as_task (stop_clients bot)) L)) /\
    task_state me
      (Nat.iter n (step bot env me) (advance bot me (as_task (stop_clients bot)) L))
      = Some (Finished r).
Proof.
  intros Hme. apply exec_plain_steps; [|apply same_but_refl | exact Hme].
  apply plain_bind; [apply plain_stop_clients | intros; constructor].
Qed.

End ExecSteps.

(* ================================================================== *)
(** ** [run_until_complete] and the schedules *)
(* ================================================================== *)

(** The loop of [run_until_complete] runs a prefix of its schedule: its
    states are among those that [run_schedule] reaches. *)
Lemma run_loop_prefix (bot : Handle) (env : call -> list event -> outcome)
  (main : tid) (sched : list sched_item) :
  forall L, exists n,
    fst (run_loop bot env main sched L) = run_schedule bot env (firstn n sched) L.
Proof.
  induction sched as [|it sched IH]; intros L.
  - exists 0%nat. reflexivity.
  - cbn [run_loop]. destruct (is_finished main L || stopping L).
    + exists 0%nat. reflexivity.
    + destruct (do_item bot env it L) as [L'|e] eqn:Hit.
      * destruct (IH L') as [n Hn]. exists (S n). cbn [firstn run_schedule].
        rewrite Hit. exact Hn.
      * exists 0%nat. reflexivity.
Qed.

Lemma run_until_complete_init_prefix
  (CLIENTS_CONFIG : dict Z conf) (bot : Handle) (env : call -> list event -> outcome)
  (sched : list sched_item) :
  exists n,
    fst (run_until_complete bot env (as_task (init CLIENTS_CONFIG bot)) sched initial_loop) =
    run_schedule bot env (firstn n sched) (startup_loop CLIENTS_CONFIG bot).
Proof.
  unfold run_until_complete.
  change (with_tasks (tasks initial_loop ++ [Task (Runnable (as_task (init CLIENTS_CONFIG bot))) []])
            (with_stopping false initial_loop))
    with (startup_loop CLIENTS_CONFIG bot).
  destruct (run_loop_prefix bot env (List.length (tasks initial_loop)) sched
              (startup_loop CLIENTS_CONFIG bot)) as [n Hn].
  exists n. rewrite <- Hn.
  destruct (run_loop bot env (List.length (tasks initial_loop)) sched
              (startup_loop CLIENTS_CONFIG bot)) as [L1 [e|]]; [reflexivity|].
  cbn [fst]. destruct (task_state _ L1) as [[p|c k|r]|]; try reflexivity;
    destruct (stopping L1); reflexivity.
Qed.

(* ================================================================== *)
(** ** The module level *)
(* ================================================================== *)

(** C6.  Without an entry for identifier 0 the script stops at the module
    level with a [RuntimeError]: the loop has run nothing, no client was
    started, the pool and the registry are empty. *)
Theorem missing_primary_config_is_fatal
  (CLIENTS_CONFIG : dict Z conf) (env : call -> list event -> outcome)
  (sched1 sched2 : list sched_item) :
  get 0%Z CLIENTS_CONFIG = None ->
  exists L,
    program CLIENTS_CONFIG env sched1 sched2 =
      (L, Exited (Some (RuntimeError
                          "CLIENTS_CONFIG must contain a configuration for client_id 0"))) /\
    trace L = [] /\ tasks L = [] /\ multi_clients L = [] /\ work_loads L = [].
Proof.
  intros Hget. exists initial_loop. unfold program, make_bot. rewrite Hget.
  repeat split.
Qed.

Lemma missing_primary_config_is_fatal_witness :
  get 0%Z config_without_primary = None /\
  exists L,
    program config_without_primary collaborators [Tick 0; Tick 1] [Tick 0] =
      (L, Exited (Some (RuntimeError
                          "CLIENTS_CONFIG must contain a configuration for client_id 0"))) /\
    trace L = [] /\ tasks L = [] /\ multi_clients L = [] /\ work_loads L = [].
Proof.
  split; [reflexivity|].
  apply (missing_primary_config_is_fatal config_without_primary collaborators
           [Tick 0; Tick 1] [Tick 0]).
  reflexivity.
Defined.

(* ================================================================== *)
(** ** Scenarios *)
(* ================================================================== *)

(** C1.  The configuration [{0: valid, 1: valid, 2: revoked}]: client 1
    starts, client 2 fails to start.  [initialize_clients] raises the
    [TypeError] of unpacking [None]; the pool is left with the primary
    client alone, while the registry has the entries 0 and 1. *)
Theorem initialize_clients_raises_when_a_secondary_fails :
  let run := run_until_complete bot0 collaborators
               (as_task (initialize_clients config_one_revoked bot0))
               [Tick 0; Tick 1; Tick 2; Tick 1; Tick 2; Tick 0] initial_loop in
  snd run = Some (inr (TypeError "cannot unpack non-iterable NoneType object")) /\
  multi_clients (fst run) = [(0%Z, bot0)] /\
  work_loads (fst run) = [(0%Z, 0%Z); (1%Z, 0%Z)] /\
  is_finished 1 (fst run) = true /\ is_finished 2 (fst run) = true.
Proof. vm_compute. repeat split. Qed.

(** C3.  A pool of three clients, the stop of the primary client fails:
    [stop_clients] raises that failure and no secondary client is
    stopped. *)
Theorem primary_stop_failure_skips_secondaries :
  let run := exec bot0 primary_stop_fails 0 (stop_clients bot0) pool_012 in
  snd run = Some (inr (ExtError 500)) /\
  stop_events (trace (fst run)) = [Begin bot0; Settle bot0 (Err (ExtError 500))] /\
  stop_attempts (Started 1) (trace (fst run)) = 0%nat /\
  stop_attempts (Started 2) (trace (fst run)) = 0%nat.
Proof. vm_compute. repeat split. Qed.

(** C4.  The cache updater crashes while [init] waits in [idle()]: the
    task is done with the exception and its done-callback has been
    called, yet nothing was logged as an error and no error notification
    was sent. *)
Theorem cache_crash_is_not_reported :
  let L := run_schedule bot0 cache_updater_crashes
             [Tick 0; Tick 0; Tick 0; Tick 1; Tick 1]
             (startup_loop config_primary_only bot0) in
  In (EvCreateTask 1 TCacheUpdater) (trace L) /\
  task_callbacks 1 L = [CacheCrashCallback] /\
  In (EvRet 1 CCacheUpdater (Err (ExtError 7))) (trace L) /\
  is_finished 1 L = true /\
  count_events is_error_notification (trace L) = 0%nat /\
  count_events is_error_log (trace L) = 0%nat /\
  is_finished 0 L = false /\ stopping L = false.
Proof. vm_compute. repeat split; tauto. Qed.

(** Had the coroutine been awaited, it would have logged the cause and
    sent one notification, without raising. *)
Lemma handle_cache_crash_when_awaited
  (bot : Handle) (env : call -> list event -> outcome) (me : tid) (e : exn) (L : Loop) :
  exists L',
    exec bot env me (handle_cache_crash (inr e)) L = (L', Some (inl tt)) /\
    count_events is_error_notification (trace L') =
      S (count_events is_error_notification (trace L)) /\
    In (EvLog ERROR [Lit "Cache manager crashed: "; Exc e]) (trace L').
Proof.
  eexists. split; [reflexivity|]. cbn. split.
  - unfold count_events. rewrite <- !app_assoc, filter_app, length_app. cbn. lia.
  - rewrite <- !app_assoc. apply in_or_app. right. now left.
Qed.

(** Counterexample to C7 as stated: client 1 has started and its
    [start_client] task is done, while [gather] still waits for client 2;
    the registry has the key 1 and the pool does not. *)
Lemma keys_differ_before_the_merge :
  let L := run_schedule bot0 collaborators [Tick 0; Tick 0; Tick 1; Tick 1]
             (startup_loop config_all_valid bot0) in
  is_finished 1 L = true /\
  ~ same_keys (work_loads L) (multi_clients L).
Proof.
  split; [vm_compute; reflexivity|].
  intros H. specialize (H 1%Z). vm_compute in H.
  destruct H as [H _].
  destruct (H (or_intror (or_introl eq_refl))) as [H1|[]]. discriminate H1.
Qed.

(** The starts of the secondary clients do overlap: here both are issued
    before either has settled. *)
Lemma secondary_starts_can_overlap :
  let L := run_schedule bot0 collaborators [Tick 0; Tick 0; Tick 1; Tick 2]
             (startup_loop config_all_valid bot0) in
  count_events (fun e => match e with EvCall t (CStart _) => negb (t =? 0)%nat | _ => false end)
    (trace L) = 2%nat /\
  count_events (fun e => match e with EvRet t (CStart _) _ => negb (t =? 0)%nat | _ => false end)
    (trace L) = 0%nat.
Proof. vm_compute. split; reflexivity. Qed.

(** Counterexample to C9 as stated: with two secondary clients, the stop
    of the first is settled before the stop of the second begins. *)
Lemma secondary_stops_are_not_fanned_out :
  ~ primary_then_fan_out bot0
      (trace (fst (exec bot0 collaborators 0 (stop_clients bot0) pool_012))).
Proof.
  intros (o & rest & Hev & Hfan). vm_compute in Hev.
  injection Hev as _ <-. discriminate Hfan.
Qed.

(** C2.  First run: one signal arrives during the start-up, while
    [initialize_clients] waits in [gather] for the secondary starts.  The
    interpreter calls the handler with the signal number and the stack
    frame, [signal_handler] takes one parameter, so the call raises
    [TypeError]: no shutdown task is created, the exception leaves
    [run_until_complete(init())] and is logged, and the [finally] clause
    runs the sequence, once.  Second run: a second signal arrives while
    that [stop_clients()] waits for its notification to be delivered.
    The handler raises again, the exception leaves the [finally] clause,
    and the sequence stops where it was: the operator has been told that
    the clients are being stopped, but the storage is not closed, no
    client is stopped and [loop.stop()] is not called. *)
Theorem second_signal_cuts_the_shutdown_short :
  let one_signal :=
    program config_all_valid collaborators
      [Tick 0; Tick 0; Signal 15]
      [Tick 3; Tick 3; Tick 3] in
  let two_signals :=
    program config_all_valid collaborators
      [Tick 0; Tick 0; Signal 15]
      [Tick 3; Signal 2; Tick 3; Tick 3] in
  (snd one_signal = Exited None /\
   ran_exactly_once bot0 (trace (fst one_signal)) /\
   count_events is_loop_stop (trace (fst one_signal)) = 1%nat /\
   count_events creates_shutdown_task (trace (fst one_signal)) = 0%nat) /\
  (snd two_signals =
     Exited (Some (TypeError
                     "signal_handler() takes 1 positional argument but 2 were given")) /\
   ~ ran_exactly_once bot0 (trace (fst two_signals)) /\
   shutdown_notifications (trace (fst two_signals)) = 1%nat /\
   storage_closes (trace (fst two_signals)) = 0%nat /\
   stop_attempts bot0 (trace (fst two_signals)) = 0%nat /\
   count_events is_loop_stop (trace (fst two_signals)) = 0%nat /\
   count_events creates_shutdown_task (trace (fst two_signals)) = 0%nat).
Proof.
  cbv zeta. unfold ran_exactly_once. split.
  - vm_compute. repeat split.
  - split; [vm_compute; reflexivity|].
    split; [intros (_ & H & _); vm_compute in H; discriminate|].
    vm_compute. repeat split.
Qed.

(* ================================================================== *)
(** ** More about dictionaries *)
(* ================================================================== *)

Section DictMore.
Context {K V : Type} `{EqKey K}.

Lemma set_new (k : K) (v : V) (d : dict K V) :
  ~ In k (keys d) -> set k v d = d ++ [(k, v)].
Proof.
  induction d as [|[k' v'] d IH]; simpl; intros Hnotin; [reflexivity|].
  destruct (keqb_spec k k').
  - subst. exfalso. apply Hnotin. now left.
  - rewrite IH; [reflexivity | tauto].
Qed.

Lemma keys_app (d1 d2 : dict K V) : keys (d1 ++ d2) = keys d1 ++ keys d2.
Proof. unfold keys. apply map_app. Qed.

(** Updating with fresh, distinct keys appends the items in order. *)
Lemma update_fresh (other d : dict K V) :
  NoDup (keys other) ->
  (forall k, In k (keys other) -> ~ In k (keys d)) ->
  update d other = d ++ other.
Proof.
  unfold update. revert d.
  induction other as [|[k v] other IH]; intros d Hnd Hfresh; simpl.
  - now rewrite app_nil_r.
  - inversion Hnd as [|? ? Hnotin Hnd']; subst.
    rewrite set_new by (apply Hfresh; now left).
    rewrite IH; [now rewrite <- app_assoc | exact Hnd' |].
    intros k' Hin Hin'. rewrite keys_app in Hin'. apply in_app_or in Hin'.
    destruct Hin' as [Hin'|[<-|[]]].
    + apply (Hfresh k'); [now right | exact Hin'].
    + contradiction.
Qed.

Lemma of_items_NoDup (l : list (K * V)) : NoDup (keys l) -> of_items l = l.
Proof.
  intros Hnd. unfold of_items. rewrite update_fresh; auto.
Qed.

Lemma of_items_nil (l : list (K * V)) : of_items l = [] -> l = [].
Proof.
  destruct l as [|[k v] l]; [reflexivity|]. intros Heq. exfalso.
  assert (Hin : In k (keys (of_items ((k, v) :: l)))).
  { unfold of_items. apply in_keys_update. right. now left. }
  rewrite Heq in Hin. exact Hin.
Qed.

Lemma get_none (k : K) (d : dict K V) : get k d = None <-> ~ In k (keys d).
Proof.
  induction d as [|[k' v'] d IH]; simpl; [tauto|].
  destruct (keqb_spec k k').
  - subst. split; [discriminate | intros Hn; exfalso; apply Hn; now left].
  - rewrite IH. unfold keys. intuition congruence.
Qed.

Lemma get_some_in (k : K) (v : V) (d : dict K V) : get k d = Some v -> In (k, v) d.
Proof.
  induction d as [|[k' v'] d IH]; simpl; [discriminate|].
  destruct (keqb_spec k k').
  - subst. intros Heq. injection Heq as ->. now left.
  - intros Hg. right. now apply IH.
Qed.

Lemma in_get (k : K) (v : V) (d : dict K V) :
  NoDup (keys d) -> In (k, v) d -> get k d = Some v.
Proof.
  induction d as [|[k' v'] d IH]; simpl; intros Hnd Hin; [contradiction|].
  inversion Hnd as [|? ? Hnotin Hnd']; subst.
  destruct Hin as [Heq|Hin].
  - injection Heq as -> ->. now rewrite keqb_refl.
  - destruct (keqb_spec k k').
    + subst. exfalso. apply Hnotin. change (In (fst (k', v)) (map fst d)). now apply in_map.
    + now apply IH.
Qed.

Lemma in_set_value (k k0 : K) (v v0 : V) (d : dict K V) :
  In (k, v) (set k0 v0 d) -> (k = k0 /\ v = v0) \/ In (k, v) d.
Proof.
  induction d as [|[k' v'] d IH]; simpl.
  - intros [Heq|[]]. injection Heq as <- <-. now left.
  - destruct (keqb_spec k0 k'); simpl.
    + intros [Heq|Hin]; [injection Heq as <- <-; now left | now right; right].
    + intros [Heq|Hin]; [now right; left|]. destruct (IH Hin); [now left | now right; right].
Qed.
End DictMore.

(* ================================================================== *)
(** ** The module level: [bot_conf] and [bot] *)
(* ================================================================== *)

(** X2.  An entry for identifier 0 that is an empty dictionary counts as
    missing: the program ends at the module level with the same
    [RuntimeError], before any client is started and before the loop
    runs. *)
Theorem empty_primary_config_is_fatal
  (CLIENTS_CONFIG : dict Z conf) (env : call -> list event -> outcome)
  (sched1 sched2 : list sched_item) :
  get 0%Z CLIENTS_CONFIG = Some [] ->
  program CLIENTS_CONFIG env sched1 sched2 =
  (initial_loop,
   Exited (Some (RuntimeError "CLIENTS_CONFIG must contain a configuration for client_id 0"))).
Proof.
  intros H0. unfold program, make_bot. now rewrite H0.
Qed.

Lemma empty_primary_config_is_fatal_witness :
  get 0%Z [(1%Z, valid_conf); (0%Z, [])] = Some [] /\
  program [(1%Z, valid_conf); (0%Z, [])] collaborators [Tick 0] [Tick 0] =
  (initial_loop,
   Exited (Some (RuntimeError "CLIENTS_CONFIG must contain a configuration for client_id 0"))).
Proof.
  split; [reflexivity|].
  apply (empty_primary_config_is_fatal [(1%Z, valid_conf); (0%Z, [])] collaborators
           [Tick 0] [Tick 0]).
  reflexivity.
Defined.

(** X3.  When the entry for identifier 0 is not empty but lacks one of
    the three parameters, the program ends at the module level with the
    [KeyError] of a parameter that is missing; nothing has been started
    or logged. *)
Theorem incomplete_primary_config_is_fatal
  (CLIENTS_CONFIG : dict Z conf) (bot_conf : conf) (env : call -> list event -> outcome)
  (sched1 sched2 : list sched_item) :
  get 0%Z CLIENTS_CONFIG = Some bot_conf ->
  bot_conf <> [] ->
  get "API_ID"%string bot_conf = None \/ get "API_HASH"%string bot_conf = None \/
  get "BOT_TOKEN"%string bot_conf = None ->
  exists key,
    get key bot_conf = None /\
    program CLIENTS_CONFIG env sched1 sched2 = (initial_loop, Exited (Some (KeyError key))).
Proof.
  intros H0 Hne Hmiss. unfold program, make_bot. rewrite H0.
  destruct bot_conf as [|kv rest]; [congruence|].
  cbn [truthy len List.length Nat.eqb negb].
  destruct (get "API_ID"%string (kv :: rest)) as [a|] eqn:Ha; [|now exists "API_ID"%string].
  destruct (get "API_HASH"%string (kv :: rest)) as [h|] eqn:Hh; [|now exists "API_HASH"%string].
  destruct (get "BOT_TOKEN"%string (kv :: rest)) as [t|] eqn:Ht; [|now exists "BOT_TOKEN"%string].
  exfalso. destruct Hmiss as [Hm|[Hm|Hm]]; discriminate.
Qed.

Lemma incomplete_primary_config_is_fatal_witness :
  let bot_conf := [("API_ID"%string, VInt 12345); ("BOT_TOKEN"%string, VStr "token")] in
  get 0%Z [(0%Z, bot_conf)] = Some bot_conf /\
  bot_conf <> [] /\
  get "API_HASH"%string bot_conf = None /\
  exists key,
    get key bot_conf = None /\
    program [(0%Z, bot_conf)] collaborators [Tick 0] [Tick 0] =
    (initial_loop, Exited (Some (KeyError key))).
Proof.
  intros bot_conf.
  assert (H0 : get 0%Z [(0%Z, bot_conf)] = Some bot_conf) by reflexivity.
  assert (Hne : bot_conf <> []) by discriminate.
  assert (Hm : get "API_HASH"%string bot_conf = None) by reflexivity.
  split; [exact H0|]. split; [exact Hne|]. split; [exact Hm|].
  exact (incomplete_primary_config_is_fatal [(0%Z, bot_conf)] bot_conf collaborators
           [Tick 0] [Tick 0] H0 Hne (or_intror (or_introl Hm))).
Defined.

(* ================================================================== *)
(** ** [additional_clients_conf] *)
(* ================================================================== *)

Lemma keys_filter_secondary {V : Type} (k : Z) (l : list (Z * V)) :
  In k (keys (filter is_secondary_entry l)) <-> k <> 0%Z /\ In k (keys l).
Proof.
  unfold keys. rewrite !in_map_iff. split.
  - intros ([k' v] & <- & Hin). apply filter_In in Hin. destruct Hin as [Hin Hf].
    unfold is_secondary_entry in Hf. cbn in *. split.
    + intros ->. discriminate.
    + exists (k', v). now split.
  - intros (Hne & [k' v] & <- & Hin). exists (k', v). split; [reflexivity|].
    apply filter_In. split; [exact Hin|]. unfold is_secondary_entry. cbn in *.
    destruct (Z.eqb_spec k' 0); [contradiction | reflexivity].
Qed.

Lemma NoDup_keys_filter {V : Type} (f : Z * V -> bool) (l : list (Z * V)) :
  NoDup (keys l) -> NoDup (keys (filter f l)).
Proof.
  induction l as [|[k v] l IH]; cbn; intros Hnd; [constructor|].
  inversion Hnd as [|? ? Hnotin Hnd']; subst.
  destruct (f (k, v)); cbn; [|now apply IH].
  constructor; [|now apply IH].
  intros Hin. apply Hnotin. unfold keys in *. apply in_map_iff in Hin.
  destruct Hin as (kv & Hk & Hin). apply filter_In in Hin.
  apply in_map_iff. exists kv. tauto.
Qed.

Lemma additional_clients_conf_in (CLIENTS_CONFIG : dict Z conf) (k : Z) :
  In k (keys (additional_clients_conf CLIENTS_CONFIG)) <->
  k <> 0%Z /\ In k (keys CLIENTS_CONFIG).
Proof.
  unfold additional_clients_conf, of_items, items.
  rewrite in_keys_update, <- (keys_filter_secondary k CLIENTS_CONFIG).
  split; [intros [[]|Hin]; exact Hin | intros Hin; right; exact Hin].
Qed.

Lemma additional_clients_conf_not_primary (CLIENTS_CONFIG : dict Z conf) :
  ~ In 0%Z (keys (additional_clients_conf CLIENTS_CONFIG)).
Proof. intros Hin. apply additional_clients_conf_in in Hin. now destruct Hin. Qed.

Lemma additional_clients_conf_NoDup (CLIENTS_CONFIG : dict Z conf) :
  NoDup (keys (additional_clients_conf CLIENTS_CONFIG)).
Proof. unfold additional_clients_conf, of_items. apply NoDup_keys_update. constructor. Qed.

(** X4.  The dictionary of the secondary entries never has the key 0, has
    no key twice, and its keys are the keys of [CLIENTS_CONFIG] other
    than 0. *)
Theorem additional_clients_conf_keys (CLIENTS_CONFIG : dict Z conf) :
  ~ In 0%Z (keys (additional_clients_conf CLIENTS_CONFIG)) /\
  NoDup (keys (additional_clients_conf CLIENTS_CONFIG)) /\
  forall k, In k (keys (additional_clients_conf CLIENTS_CONFIG)) <->
            k <> 0%Z /\ In k (keys CLIENTS_CONFIG).
Proof.
  split; [|split].
  - apply additional_clients_conf_not_primary.
  - apply additional_clients_conf_NoDup.
  - apply additional_clients_conf_in.
Qed.

Lemma get_filter_secondary {V : Type} (k : Z) (l : dict Z V) :
  k <> 0%Z -> get k (filter is_secondary_entry l) = get k l.
Proof.
  intros Hne. induction l as [|[k' v] l IH]; [reflexivity|].
  cbn [filter]. unfold is_secondary_entry at 1. cbn [fst].
  destruct (Z.eqb_spec k' 0) as [->|Hk']; cbn [negb get].
  - change (keqb k 0%Z) with (k =? 0)%Z.
    destruct (Z.eqb_spec k 0); [contradiction | exact IH].
  - now rewrite IH.
Qed.

(** X5.  For a configuration without repeated keys, the dictionary of the
    secondary entries holds the entries of [CLIENTS_CONFIG] other than
    the one for 0, in the same order and with the same connection
    parameters. *)
Theorem additional_clients_conf_entries (CLIENTS_CONFIG : dict Z conf) :
  NoDup (keys CLIENTS_CONFIG) ->
  additional_clients_conf CLIENTS_CONFIG = filter is_secondary_entry (items CLIENTS_CONFIG) /\
  get 0%Z (additional_clients_conf CLIENTS_CONFIG) = None /\
  forall k, k <> 0%Z ->
            get k (additional_clients_conf CLIENTS_CONFIG) = get k CLIENTS_CONFIG.
Proof.
  intros Hnd.
  assert (Heq : additional_clients_conf CLIENTS_CONFIG =
                filter is_secondary_entry (items CLIENTS_CONFIG)).
  { unfold additional_clients_conf. apply of_items_NoDup. now apply NoDup_keys_filter. }
  split; [exact Heq|]. split.
  - apply get_none. apply additional_clients_conf_not_primary.
  - intros k Hne. rewrite Heq. now apply get_filter_secondary.
Qed.

Lemma additional_clients_conf_entries_witness :
  NoDup (keys config_one_revoked) /\
  additional_clients_conf config_one_revoked =
    filter is_secondary_entry (items config_one_revoked) /\
  get 0%Z (additional_clients_conf config_one_revoked) = None /\
  forall k, k <> 0%Z ->
            get k (additional_clients_conf config_one_revoked) = get k config_one_revoked.
Proof.
  assert (Hnd : NoDup (keys config_one_revoked)).
  { repeat constructor; cbn; intuition discriminate. }
  split; [exact Hnd|].
  exact (additional_clients_conf_entries config_one_revoked Hnd).
Defined.

(* ================================================================== *)
(** ** [TokenParser.parse_from_config] *)
(* ================================================================== *)

(** X6.  For a [MULTI_TOKENS] dictionary, [parse_from_config] returns a
    dictionary with the same items in the same order. *)
Theorem parse_from_config_copies (tokens : dict Z string) :
  NoDup (keys tokens) -> parse_from_config (Some tokens) = inl tokens.
Proof.
  intros Hnd. unfold parse_from_config. cbn [hasattr_MULTI_TOKENS negb].
  unfold items. now rewrite of_items_NoDup.
Qed.

Lemma parse_from_config_copies_witness :
  NoDup (keys [(1%Z, "token-1"%string); (2%Z, "token-2"%string)]) /\
  parse_from_config (Some [(1%Z, "token-1"%string); (2%Z, "token-2"%string)]) =
  inl [(1%Z, "token-1"%string); (2%Z, "token-2"%string)].
Proof.
  assert (Hnd : NoDup (keys [(1%Z, "token-1"%string); (2%Z, "token-2"%string)])).
  { repeat constructor; cbn; intuition discriminate. }
  split; [exact Hnd|].
  exact (parse_from_config_copies [(1%Z, "token-1"%string); (2%Z, "token-2"%string)] Hnd).
Defined.

(** X7.  [parse_from_config] returns a dictionary only when the module
    [config] has the name [MULTI_TOKENS], and the empty dictionary only
    when [MULTI_TOKENS] is empty.  When the name is missing the [import]
    statement raises [ImportError]: the [hasattr] guard that would return
    [{}] is never reached. *)
Theorem parse_from_config_cases (MULTI_TOKENS : option (dict Z string)) :
  match parse_from_config MULTI_TOKENS with
  | inl tokens =>
      exists tokens_of_config,
        MULTI_TOKENS = Some tokens_of_config /\
        (forall k, In k (keys tokens) <-> In k (keys tokens_of_config)) /\
        (tokens = [] <-> tokens_of_config = [])
  | inr (ImportError _) => MULTI_TOKENS = None
  end.
Proof.
  unfold parse_from_config. destruct MULTI_TOKENS as [tokens|]; [|reflexivity].
  cbn [hasattr_MULTI_TOKENS negb]. exists tokens. split; [reflexivity|]. split.
  - intros k. unfold of_items, items. rewrite in_keys_update. cbn. tauto.
  - split.
    + intros Heq. apply of_items_nil in Heq. exact Heq.
    + intros ->. reflexivity.
Qed.

(* ================================================================== *)
(** ** [start_client] and a configuration that lacks a parameter *)
(* ================================================================== *)

(** X8.  When the configuration of a secondary client lacks one of the
    three parameters, [start_client] does not reach the client library:
    it logs the start and then the [KeyError] of a missing parameter,
    returns [None], and changes neither dictionary. *)
Theorem start_client_missing_parameter
  (bot : Handle) (env : call -> list event -> outcome)
  (me : tid) (client_id : Z) (client_conf : conf) (L : Loop) :
  get "API_ID"%string client_conf = None \/ get "API_HASH"%string client_conf = None \/
  get "BOT_TOKEN"%string client_conf = None ->
  exists key,
    get key client_conf = None /\
    exec bot env me (start_client client_id client_conf) L =
    (emit (failed_log client_id (KeyError key)) (emit (starting_log client_id) L),
     Some (inl None)).
Proof.
  intros Hmiss. rewrite start_client_exec. unfold client_args. cbv zeta.
  destruct (get "API_ID"%string client_conf) as [a|] eqn:Ha; [|now exists "API_ID"%string].
  destruct (get "API_HASH"%string client_conf) as [h|] eqn:Hh; [|now exists "API_HASH"%string].
  destruct (get "BOT_TOKEN"%string client_conf) as [t|] eqn:Ht; [|now exists "BOT_TOKEN"%string].
  exfalso. destruct Hmiss as [Hm|[Hm|Hm]]; discriminate.
Qed.

Lemma start_client_missing_parameter_witness :
  let client_conf := [("API_ID"%string, VInt 12345); ("API_HASH"%string, VStr "hash")] in
  get "BOT_TOKEN"%string client_conf = None /\
  exists key,
    get key client_conf = None /\
    exec bot0 collaborators 1 (start_client 7 client_conf) pool_012 =
    (emit (failed_log 7 (KeyError key)) (emit (starting_log 7) pool_012), Some (inl None)).
Proof.
  intros client_conf.
  assert (Hm : get "BOT_TOKEN"%string client_conf = None) by reflexivity.
  split; [exact Hm|].
  exact (start_client_missing_parameter bot0 collaborators 1%nat 7%Z client_conf pool_012
           (or_intror (or_intror Hm))).
Defined.

(* ================================================================== *)
(** ** What [stop_clients] reports and what it leaves alone *)
(* ================================================================== *)

Lemma stop_reported_more (me : tid) (pre evs : list event) (ic : Z * Handle) (o : outcome) :
  stop_reported me evs ic o -> stop_reported me (pre ++ evs) ic o.
Proof.
  unfold stop_reported. destruct o as [h|e].
  - intros Hin. apply in_or_app. now right.
  - intros [H1 H2]. split; apply in_or_app; now right.
Qed.

Lemma count_events_cons (f : event -> bool) (e : event) (evs : list event) :
  count_events f (e :: evs) = (Nat.b2n (f e) + count_events f evs)%nat.
Proof. unfold count_events. cbn. now destruct (f e). Qed.

Section StopReport.

Variable bot : Handle.
Variable env : call -> list event -> outcome.

(** The loop of [stop_clients], with what it logs and notifies. *)
Lemma stop_each_report (me : tid) (l : list (Z * Handle)) (L : Loop) :
  exists L' evs os,
    exec bot env me (stop_each l) L = (L', Some (inl tt)) /\
    trace L' = trace L ++ evs /\
    (multi_clients L' = multi_clients L /\ work_loads L' = work_loads L /\
     stopping L' = stopping L /\ tasks L' = tasks L) /\
    stop_events evs = one_after_another (secondaries l) os /\
    Forall2 (stop_reported me evs) (filter is_secondary_entry l) os /\
    count_events is_error_notification evs = failures os /\
    count_events is_error_log evs = failures os /\
    (count_events is_stopped_log evs + failures os)%nat = List.length os /\
    count_events is_loop_stop evs = 0%nat.
Proof.
  revert L. induction l as [|[client_id client] rest IH]; intros L.
  - exists L, [], []. cbn. rewrite app_nil_r. repeat split. constructor.
  - cbn [stop_each]. rewrite exec_bind.
    unfold secondaries, items. cbn [filter]. unfold is_secondary_entry at 1 3. cbn [fst].
    destruct (client_id =? 0)%Z; cbn [negb].
    + cbn [exec]. apply IH.
    + cbn -[stop_each stop_events one_after_another count_events].
      destruct (env (CStop client) (trace L ++ [EvCall me (CStop client)]))
        as [h|e] eqn:Ho;
        cbn -[stop_each stop_events one_after_another count_events];
        match goal with |- context [exec bot env me (stop_each rest) ?L1] =>
          destruct (IH L1)
            as (L' & evs & os & Hex & Htr & Hframe & Hsev & Hrep & Hn & Hl & Hs & Hls)
        end.
      * eexists L', ([_; _; _] ++ evs), (Ok h :: os).
        split; [exact Hex|]. split.
        { rewrite Htr. cbn. rewrite <- !app_assoc. reflexivity. }
        split; [exact Hframe|]. split.
        { cbn. now rewrite Hsev. }
        split.
        { constructor.
          - cbn. right; right; left. reflexivity.
          - eapply Forall2_impl; [|exact Hrep]. intros ic o. apply stop_reported_more. }
        cbn [app]. rewrite !count_events_cons, Hn, Hl, Hls.
        unfold failures in *. cbn. repeat split. lia.
      * eexists L', ([_; _; _; _; _] ++ evs), (Err e :: os).
        split; [exact Hex|]. split.
        { rewrite Htr. cbn. rewrite <- !app_assoc. reflexivity. }
        split; [exact Hframe|]. split.
        { cbn. now rewrite Hsev. }
        split.
        { constructor.
          - cbn. split; [right; right; left; reflexivity | right; right; right; left; reflexivity].
          - eapply Forall2_impl; [|exact Hrep]. intros ic o. apply stop_reported_more. }
        cbn [app]. rewrite !count_events_cons, Hn, Hl, Hls.
        unfold failures in *. cbn. repeat split. lia.
Qed.

(** One run of [stop_clients], case by case. *)
Lemma stop_clients_report (me : tid) (L : Loop) :
  exists L' r o_info o evs,
    exec bot env me (stop_clients bot) L = (L', Some r) /\
    trace L' = trace L ++ stop_prologue bot me o_info ++ EvRet me (CStop bot) o :: evs /\
    (multi_clients L' = multi_clients L /\ work_loads L' = work_loads L /\
     stopping L' = stopping L /\ tasks L' = tasks L) /\
    count_events is_loop_stop evs = 0%nat /\
    match o with
    | Err e => r = inr e /\ evs = []
    | Ok _ =>
        r = inl tt /\
        exists os,
          stop_events evs = one_after_another (secondaries (multi_clients L)) os /\
          Forall2 (stop_reported me evs)
            (filter is_secondary_entry (items (multi_clients L))) os /\
          count_events is_error_notification evs = failures os /\
          count_events is_error_log evs = failures os /\
          (count_events is_stopped_log evs + failures os)%nat = List.length os
    end.
Proof.
  unfold stop_clients. cbn -[stop_each stop_events one_after_another count_events].
  match goal with |- context [env (CStop bot) ?tr] =>
    destruct (env (CStop bot) tr) as [h|e] eqn:Ho end.
  - cbn -[stop_each stop_events one_after_another count_events].
    match goal with |- context [exec bot env me (stop_each ?l) ?L1] =>
      destruct (stop_each_report me l L1)
        as (L' & evs & os & Hex & Htr & Hframe & Hsev & Hrep & Hn & Hl & Hs & Hls)
    end.
    eexists L', (inl tt), _, (Ok h), evs.
    split; [exact Hex|]. split.
    { rewrite Htr. cbn. rewrite <- !app_assoc. reflexivity. }
    split; [exact Hframe|]. split; [exact Hls|].
    split; [reflexivity|]. exists os. repeat split; assumption.
  - cbn -[stop_each stop_events one_after_another count_events].
    eexists _, (inr e), _, (Err e), [].
    split; [reflexivity|]. split.
    { cbn. rewrite <- !app_assoc. reflexivity. }
    repeat split.
Qed.

(** X9.  Whatever the collaborators do, [stop_clients] begins with the
    log record, the notification of the operator and the close of the
    storage, and only then issues the stop of the primary client.  It
    keeps the entries of the pool and of the registry, requests no stop of
    the loop and creates no task, also when it raises. *)
Theorem stop_clients_prologue_and_frame (me : tid) (L : Loop) :
  exists L' r o_info rest,
    exec bot env me (stop_clients bot) L = (L', Some r) /\
    trace L' = trace L ++ stop_prologue bot me o_info ++ rest /\
    multi_clients L' = multi_clients L /\ work_loads L' = work_loads L /\
    stopping L' = stopping L /\ tasks L' = tasks L.
Proof.
  destruct (stop_clients_report me L) as (L' & r & oi & o & evs & Hex & Htr & Hframe & _).
  exists L', r, oi, (EvRet me (CStop bot) o :: evs). tauto.
Qed.

(** X10.  When the stop of the primary client has returned,
    [stop_clients] returns normally and accounts for every secondary
    client of the pool.  The stops are those of the secondary clients, in
    the order of the pool, each with the outcome [os] records for it; a
    stop that returned is logged with the client's identifier, a stop
    that raised is logged as an error and reported to the operator with
    the identifier and the cause; and there are exactly as many error
    records and error notifications as stops that raised, and as many
    records of a successful stop as stops that returned. *)
Theorem stop_clients_reports_each_stop (me : tid) (L : Loop) :
  exists L' r evs o,
    exec bot env me (stop_clients bot) L = (L', Some r) /\
    trace L' = trace L ++ evs /\
    In (EvRet me (CStop bot) o) evs /\
    (forall h, o = Ok h ->
       r = inl tt /\
       exists os,
         stop_events evs =
           Begin bot :: Settle bot (Ok h) ::
           one_after_another (secondaries (multi_clients L)) os /\
         Forall2 (stop_reported me evs)
           (filter is_secondary_entry (items (multi_clients L))) os /\
         count_events is_error_notification evs = failures os /\
         count_events is_error_log evs = failures os /\
         (count_events is_stopped_log evs + failures os)%nat = List.length os).
Proof.
  destruct (stop_clients_report me L)
    as (L' & r & oi & o & evs & Hex & Htr & Hframe & Hls & Ho).
  exists L', r, (stop_prologue bot me oi ++ EvRet me (CStop bot) o :: evs), o.
  split; [exact Hex|]. split; [exact Htr|]. split.
  { apply in_or_app. right. now left. }
  intros h ->. destruct Ho as (-> & os & Hsev & Hrep & Hn & Hl & Hs).
  split; [reflexivity|]. exists os. split.
  { unfold stop_prologue. cbn [app stop_events]. now rewrite Hsev. }
  split.
  { eapply Forall2_impl; [|exact Hrep]. intros ic o Hr.
    apply stop_reported_more.
    change (stop_reported me ([EvRet me (CStop bot) (Ok h)] ++ evs) ic o).
    now apply stop_reported_more. }
  rewrite !count_events_app. unfold stop_prologue. rewrite !count_events_cons.
  rewrite Hn, Hl. cbn. repeat split. exact Hs.
Qed.

(** X11.  [shutdown] first notifies the operator of the signal.  When
    [stop_clients] returns, the last thing it does is [loop.stop()], once;
    when [stop_clients] raises because the stop of the primary client
    raised, [shutdown] raises the same exception and the loop is not asked
    to stop.  The pool and the registry keep their entries in both
    cases. *)
Theorem shutdown_stops_the_loop_last (me : tid) (sig : Z) (L : Loop) :
  exists L' r evs,
    exec bot env me (shutdown bot sig) L = (L', Some r) /\
    trace L' = trace L ++ signal_notification me sig :: evs /\
    multi_clients L' = multi_clients L /\ work_loads L' = work_loads L /\
    match r with
    | inl _ =>
        stopping L' = true /\ last evs EvCloseConnections = EvLoopStop /\
        count_events is_loop_stop evs = 1%nat
    | inr e =>
        stopping L' = stopping L /\ count_events is_loop_stop evs = 0%nat /\
        In (EvRet me (CStop bot) (Err e)) evs
    end.
Proof.
  unfold shutdown, send_info. cbn [bind exec].
  rewrite exec_bind.
  match goal with |- context [exec bot env me (stop_clients bot) ?L1] =>
    destruct (stop_clients_report me L1)
      as (L' & r & oi & o & evs & Hex & Htr & (Hmc & Hwl & Hst & Hts) & Hls & Ho);
    rewrite Hex
  end.
  destruct o as [h|e].
  - destruct Ho as (-> & _). cbn [do exec].
    eexists _, (inl tt), (_ :: stop_prologue bot me oi ++ EvRet me (CStop bot) (Ok h) :: evs ++ [EvLoopStop]).
    split; [reflexivity|]. split.
    { cbn. rewrite Htr. cbn. rewrite <- !app_assoc. reflexivity. }
    split; [exact Hmc|]. split; [exact Hwl|]. split; [reflexivity|]. split.
    + rewrite app_comm_cons, (app_comm_cons _ _ (EvRet me (CStop bot) (Ok h))), !app_assoc.
      apply last_last.
    + rewrite count_events_cons, count_events_app, count_events_cons, count_events_app, Hls.
      reflexivity.
  - destruct Ho as (-> & ->).
    eexists _, (inr e), (_ :: stop_prologue bot me oi ++ [EvRet me (CStop bot) (Err e)]).
    split; [reflexivity|]. split.
    { rewrite Htr. cbn. rewrite <- !app_assoc. reflexivity. }
    split; [exact Hmc|]. split; [exact Hwl|]. split; [exact Hst|]. split.
    + reflexivity.
    + right. apply in_or_app. right. now left.
Qed.

End StopReport.

(* ================================================================== *)
(** ** What a turn of the loop does to the pool and the registry *)
(* ================================================================== *)

Lemma collected_keys_exact (L : Loop) (l : list (Z * conf)) (rs : list task_result) :
  Forall2 (result_ok L) l rs ->
  forall acc d,
    collected rs acc = Some d ->
    NoDup (map fst l) ->
    (forall ic, In ic l -> ~ In (fst ic) (keys acc)) ->
    keys d = keys acc ++ map fst l.
Proof.
  induction 1 as [|ic r l rs Hr Hrs IH]; intros acc d Hd Hnd Hfresh; cbn in Hd.
  - injection Hd as <-. cbn. now rewrite app_nil_r.
  - destruct r as [[i h]|]; [|discriminate].
    destruct Hr as [Hi _]. subst i.
    inversion Hnd as [|? ? Hnotin Hnd']; subst.
    rewrite set_new in Hd by (apply Hfresh; now left).
    rewrite (IH _ _ Hd Hnd').
    + rewrite keys_app. cbn. now rewrite <- app_assoc.
    + intros ic' Hin Hin'. rewrite keys_app in Hin'. apply in_app_or in Hin'.
      destruct Hin' as [Hin'|[Heq|[]]].
      * apply (Hfresh ic'); [now right | exact Hin'].
      * apply Hnotin. cbn in Heq. rewrite Heq. now apply in_map.
Qed.

Lemma collected_in (rs : list task_result) :
  forall acc d i h,
    collected rs acc = Some d -> In (i, h) d ->
    In (i, h) acc \/ In (Some (i, h)) rs.
Proof.
  induction rs as [|[[i0 h0]|] rs IH]; intros acc d i h Hd Hin; cbn in Hd.
  - injection Hd as <-. now left.
  - destruct (IH _ _ _ _ Hd Hin) as [Hacc|Hrs]; [|now right; right].
    apply in_set_value in Hacc. destruct Hacc as [[-> ->]|Hacc]; [right; now left | now left].
  - discriminate.
Qed.

Lemma all_results_nth (ts : list tid) (L : Loop) :
  forall rs, all_results ts L = Some rs ->
  forall j r, nth_error rs j = Some r ->
  exists t, nth_error ts j = Some t /\ task_state t L = Some (Finished (inl r)).
Proof.
  induction ts as [|t ts IH]; intros rs Hall j r Hj; cbn in Hall.
  - injection Hall as <-. destruct j; discriminate.
  - destruct (task_state t L) as [[p|c k|[r0|e]]|] eqn:Hst; try discriminate.
    destruct (all_results ts L) as [rs'|]; [|discriminate].
    injection Hall as <-. destruct j as [|j]; cbn in Hj.
    + injection Hj as <-. exists t. now split.
    + apply (IH rs' eq_refl j r Hj).
Qed.

Lemma nth_error_seq_inv (n len j t : nat) :
  nth_error (seq n len) j = Some t -> t = (n + j)%nat /\ (j < len)%nat.
Proof.
  revert n j. induction len as [|len IH]; intros n j Hj; cbn in Hj.
  - destruct j; discriminate.
  - destruct j as [|j]; cbn in Hj.
    + injection Hj as <-. lia.
    + apply IH in Hj. lia.
Qed.

Section StartupEffect.

Variable CLIENTS_CONFIG : dict Z conf.
Variable bot : Handle.
Variable env : call -> list event -> outcome.

Lemma quiet_all_not_primary (evs : list event) :
  forallb quiet evs = true -> primary_not_started bot evs.
Proof.
  intros Hq h Hin. rewrite forallb_forall in Hq. specialize (Hq _ Hin). discriminate.
Qed.

Lemma idle_effect (L : Loop) :
  exists evs, trace L = trace L ++ evs /\ startup_effect CLIENTS_CONFIG bot L L evs.
Proof.
  exists []. split; [now rewrite app_nil_r|].
  apply effect_none; try reflexivity; [intros h [] | intros c []].
Qed.

Lemma quiet_no_main_start (evs : list event) :
  forallb quiet evs = true -> no_main_start evs.
Proof.
  intros Hq c Hin. rewrite forallb_forall in Hq. specialize (Hq _ Hin). discriminate.
Qed.

Lemma no_main_start_app (evs1 evs2 : list event) :
  no_main_start evs1 -> no_main_start evs2 -> no_main_start (evs1 ++ evs2).
Proof.
  intros H1 H2 c Hin. apply in_app_or in Hin. destruct Hin as [Hin|Hin].
  - now apply (H1 c).
  - now apply (H2 c).
Qed.

Lemma no_creation_app (evs1 evs2 : list event) :
  no_creation evs1 -> no_creation evs2 -> no_creation (evs1 ++ evs2).
Proof. unfold no_creation. intros H1 H2. now rewrite forallb_app, H1, H2. Qed.

Lemma quiet_effect (me : tid) (L L' : Loop) :
  quiet_step me L L' ->
  exists evs, trace L' = trace L ++ evs /\ startup_effect CLIENTS_CONFIG bot L L' evs.
Proof.
  intros Hq. destruct (qs_trace Hq) as (evs & Htr & Hev).
  exists evs. split; [exact Htr|].
  apply effect_none.
  - apply (qs_clients Hq).
  - apply (qs_loads Hq).
  - now apply quiet_all_not_initialized.
  - now apply quiet_all_not_primary.
  - now apply quiet_all_not_creation.
  - intros c Hin. now apply quiet_no_main_start in Hin.
Qed.

Lemma benign_effect (t : tid) (L : Loop) (st : tstate) :
  task_state t L = Some st -> benign_state st ->
  exists evs, trace (step bot env t L) = trace L ++ evs /\
              startup_effect CLIENTS_CONFIG bot L (step bot env t L) evs.
Proof.
  intros Hst Hb. destruct (step_benign bot env t L st Hst Hb) as [Hq _].
  eapply quiet_effect; eauto.
Qed.

Lemma fresh_main_effect (L : Loop) :
  stage_fresh CLIENTS_CONFIG bot L ->
  exists evs, trace (step bot env 0 L) = trace L ++ evs /\
              startup_effect CLIENTS_CONFIG bot L (step bot env 0 L) evs.
Proof.
  intros (H0 & _ & Hmc & _). unfold step. rewrite H0, main_task_unfold. cbn [advance].
  exists [EvCall 0 (CStart bot)]. split; [reflexivity|].
  apply effect_none; try reflexivity.
  - intros h [Hin|[]]. discriminate.
  - intros c [Hin|[]]. injection Hin as <-. now split.
Qed.

Lemma primary_main_effect (L : Loop) :
  stage_primary CLIENTS_CONFIG bot L ->
  exists evs, trace (step bot env 0 L) = trace L ++ evs /\
              startup_effect CLIENTS_CONFIG bot L (step bot env 0 L) evs.
Proof.
  intros (H0 & Hob & Hmc & Hwl & Hns & Hni).
  pose proof (task_state_lt _ _ _ H0) as Hlt.
  unfold step. rewrite H0. cbv zeta.
  destruct (env (CStart bot) (trace L)) as [h|e].
  - rewrite after_start_ok. cbn [advance].
    unfold start_secondaries.
    destruct (negb (truthy (additional_clients_conf CLIENTS_CONFIG))) eqn:Hc.
    + change (as_task (LOGGER_info [Lit "No additional Bot Clients found, Using default client"] ;; init_tail))
        with (Do (Log INFO [Lit "No additional Bot Clients found, Using default client"])
                (Do (Log INFO [Lit "Starting cache manager..."]) (as_task init_tail_quiet))).
      cbn [advance].
      match goal with |- context [advance bot 0 (as_task init_tail_quiet) ?X] => set (L2 := X) end.
      destruct (advance_benign bot _ benign_init_tail_quiet 0%nat L2 Hlt) as [Hq _].
      destruct (qs_trace Hq) as (qevs & Htr & Hqv).
      exists ([EvRet 0 (CStart bot) (Ok h);
               EvLog INFO [Lit "Bot Started Successfully!"];
               EvLog INFO [Lit "Default client initialized successfully"];
               EvLog INFO [Lit "No additional Bot Clients found, Using default client"];
               EvLog INFO [Lit "Starting cache manager..."]] ++ qevs).
      split.
      { rewrite Htr. unfold L2. cbn. rewrite <- !app_assoc. reflexivity. }
      assert (Hnone : secondary_confs CLIENTS_CONFIG = []).
      { unfold secondary_confs, items.
        destruct (additional_clients_conf CLIENTS_CONFIG); [reflexivity | discriminate]. }
      apply effect_primary; auto.
      * rewrite (qs_clients Hq). unfold L2. cbn. now rewrite Hmc.
      * rewrite (qs_loads Hq). unfold L2. cbn. now rewrite Hwl.
      * exists h. now left.
      * intros _. split; [exact Hnone|].
        right; right; right; left. reflexivity.
      * exists h, ([EvLog INFO [Lit "No additional Bot Clients found, Using default client"];
                    EvLog INFO [Lit "Starting cache manager..."]] ++ qevs).
        rewrite Hnone. split; [reflexivity|]. split.
        -- apply (no_creation_app [_; _]); [reflexivity|].
           now apply quiet_all_not_creation.
        -- apply (no_main_start_app [_; _]).
           ++ intros c [Hin|[Hin|[]]]; discriminate.
           ++ now apply quiet_no_main_start.
    + match goal with |- context [as_task (bind (bind (create_start_tasks ?l) ?G) ?T)] =>
        change (as_task (bind (bind (create_start_tasks l) G) T))
          with ((fun p => as_task (bind (bind p G) T)) (create_start_tasks l))
      end.
      rewrite advance_create_start_tasks by reflexivity.
      cbv beta.
      match goal with |- context [advance bot 0 _ (add_start_tasks bot _ ?X)] => set (L3 := X) end.
      change (exists evs,
                trace (advance bot 0
                   (Gather (seq (List.length (tasks L)) (List.length (secondary_confs CLIENTS_CONFIG)))
                      after_gather)
                   (add_start_tasks bot (secondary_confs CLIENTS_CONFIG) L3)) = trace L ++ evs /\
                startup_effect CLIENTS_CONFIG bot L
                  (advance bot 0
                   (Gather (seq (List.length (tasks L)) (List.length (secondary_confs CLIENTS_CONFIG)))
                      after_gather)
                   (add_start_tasks bot (secondary_confs CLIENTS_CONFIG) L3)) evs).
      destruct (add_start_tasks_facts bot (secondary_confs CLIENTS_CONFIG) L3)
        as (Fmc & Fwl & Ftr & Flen & Fold & Fnew).
      change (List.length (tasks L3)) with (List.length (tasks L)) in *.
      set (L4 := add_start_tasks bot (secondary_confs CLIENTS_CONFIG) L3) in *.
      set (n := List.length (tasks L)) in *.
      assert (Hch : forall j ic, nth_error (secondary_confs CLIENTS_CONFIG) j = Some ic ->
                                 child_state L4 (n + j) ic).
      { intros j ic Hj. unfold child_state. now rewrite (Fnew j ic Hj). }
      assert (Hgs : gather_status (seq n (List.length (secondary_confs CLIENTS_CONFIG))) L4 = None).
      { pose proof (first_exception_children _ _ _ Hch) as Hfe.
        pose proof (truthy_nonempty _ Hc) as Hne.
        change (secondary_confs CLIENTS_CONFIG <> []) in Hne.
        destruct (secondary_confs CLIENTS_CONFIG) as [|ic0 l] eqn:Hl; [congruence|].
        cbn [List.length seq] in *.
        eapply gather_status_runnable; [|exact Hfe].
        specialize (Fnew 0%nat ic0 eq_refl). rewrite Nat.add_0_r in Fnew. exact Fnew. }
      cbn [advance]. rewrite Hgs.
      exists ([EvRet 0 (CStart bot) (Ok h);
               EvLog INFO [Lit "Bot Started Successfully!"];
               EvLog INFO [Lit "Default client initialized successfully"]]
                ++ creation_events n (secondary_confs CLIENTS_CONFIG)).
      split.
      { cbn. rewrite Ftr. unfold L3. cbn. rewrite <- !app_assoc. reflexivity. }
      apply effect_primary; auto.
      * cbn. rewrite Fmc. unfold L3. cbn. now rewrite Hmc.
      * cbn. rewrite Fwl. unfold L3. cbn. now rewrite Hwl.
      * exists h. now left.
      * intros Hin. exfalso. cbn in Hin.
        repeat (destruct Hin as [Hin|Hin]; [discriminate|]).
        pose proof (creation_events_no_initialized n (secondary_confs CLIENTS_CONFIG)) as Hno.
        rewrite forallb_forall in Hno. specialize (Hno _ Hin). discriminate.
      * exists h, []. rewrite app_nil_r. split; [reflexivity|].
        split; [reflexivity | intros c []].
  - rewrite after_start_err. cbn [advance]. rewrite finish_eq.
    exists [EvRet 0 (CStart bot) (Err e)]. split; [reflexivity|].
    apply effect_none; try reflexivity.
    + intros h [Hin|[]]. discriminate.
    + intros c [Hin|[]]. discriminate.
Qed.

Lemma secondary_confs_NoDup : NoDup (map fst (secondary_confs CLIENTS_CONFIG)).
Proof. apply (additional_clients_conf_NoDup CLIENTS_CONFIG). Qed.

Lemma secondary_confs_not_primary : ~ In 0%Z (map fst (secondary_confs CLIENTS_CONFIG)).
Proof. apply (additional_clients_conf_not_primary CLIENTS_CONFIG). Qed.

Lemma gather_main_effect (L : Loop) :
  stage_gather CLIENTS_CONFIG bot L ->
  exists evs, trace (step bot env 0 L) = trace L ++ evs /\
              startup_effect CLIENTS_CONFIG bot L (step bot env 0 L) evs.
Proof.
  intros (n & Hn & H0 & Hch & Hob & Hmc & [Hl0 Hl] & Hsh & Hni & Hcr).
  pose proof (task_state_lt _ _ _ H0) as Hlt.
  unfold step. rewrite H0. cbn [advance].
  destruct (gather_status_children _ _ _ Hch) as [Hg | (rs & Hg & Hrs & Hfin)]; rewrite Hg.
  - rewrite set_state_id by exact H0. apply idle_effect.
  - rewrite after_gather_results. unfold merge_clients.
    rewrite collect_clients_collected.
    destruct (collected rs []) as [d|] eqn:Hd.
    + cbn [bind as_task do]. cbn [advance].
      unfold get_clients. cbn [bind advance].
      set (L1 := perform (UpdateClients d) L).
      assert (Hkd : keys d = map fst (secondary_confs CLIENTS_CONFIG)).
      { apply (collected_keys_exact L _ _ Hrs [] d Hd secondary_confs_NoDup).
        intros ic _ []. }
      assert (Hup : multi_clients L1 = (0%Z, bot) :: d).
      { unfold L1. cbn. rewrite Hmc.
        rewrite update_fresh; [reflexivity | |].
        - rewrite Hkd. apply secondary_confs_NoDup.
        - intros k Hk [Hk0|[]]. cbn in Hk0. subst k. rewrite Hkd in Hk.
          now apply secondary_confs_not_primary. }
      assert (Hor : children_origin CLIENTS_CONFIG L ->
                    forall i h, In (i, h) d ->
                    exists client_conf,
                      In (i, client_conf) (secondary_confs CLIENTS_CONFIG) /\
                      started_for (i, client_conf) h (trace L)).
      { intros Hco i h Hin.
        assert (Hall : all_results (seq n (List.length (secondary_confs CLIENTS_CONFIG))) L
                       = Some rs).
        { unfold gather_status in Hg. rewrite (first_exception_children _ _ _ Hch) in Hg.
          destruct (all_results _ L) as [rs'|]; [|discriminate].
          cbn in Hg. now injection Hg as <-. }
        destruct (collected_in rs [] d i h Hd Hin) as [[]|Hin'].
        apply In_nth_error in Hin'. destruct Hin' as [j Hj].
        destruct (all_results_nth _ _ _ Hall j _ Hj) as (t & Ht & Hst).
        apply nth_error_seq_inv in Ht. destruct Ht as [-> Hlt'].
        destruct (nth_error (secondary_confs CLIENTS_CONFIG) j) as [ic|] eqn:Hic;
          [|apply nth_error_None in Hic; lia].
        pose proof (Hch j ic Hic) as Hcs. unfold child_state in Hcs. rewrite Hst in Hcs.
        destruct Hcs as [Hi _].
        pose proof (proj2 (Hco n after_gather H0) j ic Hic) as Hc'.
        unfold child_origin in Hc'. rewrite Hst in Hc'. destruct Hc' as (cl & Hcl & Hev).
        exists (snd ic). split.
        - apply nth_error_In in Hic. rewrite Hi. now destruct ic.
        - exists (n + j)%nat, cl. cbn [fst snd]. rewrite Hi. now split. }
      assert (Hfinal : forall m,
                 quiet (EvLog INFO m) = true ->
                 (children_origin CLIENTS_CONFIG L ->
                  EvLog INFO m = multi_client_log (S (List.length d))) ->
                 exists evs,
                   trace (advance bot 0
                      (Do (Log INFO m)
                         (Do (Log INFO [Lit "Starting cache manager..."])
                            (as_task init_tail_quiet))) L1) = trace L ++ evs /\
                   startup_effect CLIENTS_CONFIG bot L
                     (advance bot 0
                      (Do (Log INFO m)
                         (Do (Log INFO [Lit "Starting cache manager..."])
                            (as_task init_tail_quiet))) L1) evs).
      { intros m Hm Hsum. cbn [advance].
        match goal with |- context [advance bot 0 (as_task init_tail_quiet) ?X] =>
          set (L2 := X) end.
        destruct (advance_benign bot _ benign_init_tail_quiet 0%nat L2 Hlt) as [Hq _].
        destruct (qs_trace Hq) as (qevs & Htr & Hqv).
        exists ([EvLog INFO m; EvLog INFO [Lit "Starting cache manager..."]] ++ qevs).
        split.
        { rewrite Htr. unfold L2. cbn. rewrite <- !app_assoc. reflexivity. }
        apply (effect_merge CLIENTS_CONFIG bot L _ _ d); auto.
        - rewrite (qs_clients Hq). exact Hup.
        - rewrite (qs_loads Hq). reflexivity.
        - intros h Hin. cbn in Hin.
          destruct Hin as [Hin|[Hin|Hin]]; try discriminate.
          now apply (quiet_all_not_primary qevs Hqv h).
        - intros Hco. split; [exact (proj1 (Hco n after_gather H0))|].
          left. now apply Hsum.
        - apply (no_creation_app [_; _]); [reflexivity|].
          now apply quiet_all_not_creation.
        - apply (no_main_start_app [_; _]).
          + intros c [Hin|[Hin|[]]]; discriminate.
          + now apply quiet_no_main_start.
        - intros k Hk.
          destruct (proj1 (collected_keys L _ _ Hrs [] d Hd) k Hk) as [[]|Hwl].
          exact Hwl. }
      assert (Hlen : len (multi_clients L1) = S (List.length d)) by now rewrite Hup.
      destruct (1 <? len (multi_clients L1))%nat eqn:Hmode; apply Hfinal; try reflexivity.
      * intros _. now rewrite Hlen.
      * intros Hco. exfalso. destruct (Hco n after_gather H0) as [Hne _].
        apply Nat.ltb_ge in Hmode. rewrite Hlen in Hmode.
        assert (Hd0 : List.length d = List.length (secondary_confs CLIENTS_CONFIG)).
        { rewrite <- (length_map fst d). change (map fst d) with (keys d).
          now rewrite Hkd, length_map. }
        destruct (secondary_confs CLIENTS_CONFIG); [congruence | cbn in Hd0; lia].
    + change (exists evs,
                trace (advance bot 0
                         (Raise (TypeError "cannot unpack non-iterable NoneType object")) L) =
                trace L ++ evs /\
                startup_effect CLIENTS_CONFIG bot L
                  (advance bot 0
                     (Raise (TypeError "cannot unpack non-iterable NoneType object")) L) evs).
      cbn [advance]. rewrite finish_eq.
      exists []. split; [cbn; now rewrite app_nil_r|].
      apply effect_none; try reflexivity; [intros h [] | intros c []].
Qed.

Lemma child_effect (n t : nat) (ic : Z * conf) (L : Loop) :
  (0 < n)%nat -> (n <= t)%nat ->
  multi_clients L = [(0%Z, bot)] ->
  In ic (secondary_confs CLIENTS_CONFIG) ->
  child_state L t ic ->
  exists evs, trace (step bot env t L) = trace L ++ evs /\
              startup_effect CLIENTS_CONFIG bot L (step bot env t L) evs.
Proof.
  intros Hn Hge Hmc Hic Hc. unfold child_state in Hc. unfold step.
  destruct (task_state t L) as [[p|c k|[[[i h]|]|e]]|] eqn:Hts; try contradiction;
    try apply idle_effect.
  - subst p. rewrite advance_start_client.
    destruct (client_args (fst ic) (snd ic)) as [cl|e].
    + eexists [_; _]. split; [cbn; rewrite <- app_assoc; reflexivity|].
      apply effect_none; try reflexivity.
      * intros h [Hin|[Hin|[]]]; discriminate.
      * intros c [Hin|[Hin|[]]]; [discriminate|]. injection Hin as Ht _. lia.
    + rewrite finish_eq.
      eexists [_; _]. split; [cbn; rewrite <- app_assoc; reflexivity|].
      apply effect_none; try reflexivity.
      * intros h [Hin|[Hin|[]]]; discriminate.
      * intros c [Hin|[Hin|[]]]; discriminate.
  - destruct Hc as [Hc ->]. cbv zeta. rewrite advance_start_k.
    destruct (env c (trace L)) as [h|e]; rewrite finish_eq.
    + eexists [_]. split; [reflexivity|].
      apply (effect_child CLIENTS_CONFIG bot L _ _ (fst ic)); try reflexivity; auto.
      * now apply in_map.
      * intros h' [Hin|[]]. injection Hin as -> _. lia.
      * intros c' [Hin|[]]. discriminate.
    + eexists [_; _]. split; [cbn; rewrite <- app_assoc; reflexivity|].
      apply effect_none; try reflexivity.
      * intros h [Hin|[Hin|[]]]; discriminate.
      * intros c' [Hin|[Hin|[]]]; discriminate.
Qed.

(** Every turn of the loop has one of the four effects. *)
Lemma startup_step_effect (t : tid) (L : Loop) :
  startup_inv CLIENTS_CONFIG bot L ->
  exists evs, trace (step bot env t L) = trace L ++ evs /\
              startup_effect CLIENTS_CONFIG bot L (step bot env t L) evs.
Proof.
  intros Hinv.
  destruct (task_state t L) as [st|] eqn:Hts;
    [|unfold step; rewrite Hts; apply idle_effect].
  destruct Hinv as [Hs|[Hs|[Hs|Hs]]].
  - destruct (Nat.eq_dec t 0) as [->|Hne]; [now apply fresh_main_effect|].
    destruct Hs as (_ & Hob & _). eapply benign_effect; eauto.
  - destruct (Nat.eq_dec t 0) as [->|Hne]; [now apply primary_main_effect|].
    destruct Hs as (_ & Hob & _). eapply benign_effect; eauto.
  - destruct (Nat.eq_dec t 0) as [->|Hne]; [now apply gather_main_effect|].
    destruct Hs as (n & Hn & H0 & Hch & Hob & Hmc & Hloads & Hsh & Hni & Hcr).
    destruct (le_lt_dec n t) as [Hge|Hlt];
      [destruct (lt_dec t (n + List.length (secondary_confs CLIENTS_CONFIG))) as [Hlt|Hge']|].
    + destruct (nth_error (secondary_confs CLIENTS_CONFIG) (t - n)) as [ic|] eqn:Hj;
        [|apply nth_error_None in Hj; lia].
      pose proof (Hch _ _ Hj) as Hc. replace (n + (t - n))%nat with t in Hc by lia.
      apply (child_effect n t ic L Hn Hge Hmc); auto.
      eapply nth_error_In; eauto.
    + eapply benign_effect; eauto. eapply Hob; eauto. unfold is_child. lia.
    + eapply benign_effect; eauto. eapply Hob; eauto. unfold is_child. lia.
  - destruct Hs as (Hob & _). eapply benign_effect; eauto.
Qed.

Lemma primary_started_app (tr evs : list event) :
  primary_started bot tr -> primary_started bot (tr ++ evs).
Proof. intros [h Hin]. exists h. apply in_or_app. now left. Qed.

Lemma primary_not_started_app (tr evs : list event) :
  primary_not_started bot tr -> primary_not_started bot evs ->
  primary_not_started bot (tr ++ evs).
Proof.
  intros H1 H2 h Hin. apply in_app_or in Hin. destruct Hin as [Hin|Hin].
  - now apply (H1 h).
  - now apply (H2 h).
Qed.

Lemma initialized_before (tr evs : list event) :
  not_initialized evs -> In initialized_log (tr ++ evs) -> In initialized_log tr.
Proof.
  intros Hni Hin. apply in_app_or in Hin. destruct Hin as [Hin|Hin]; [exact Hin|].
  exfalso. eapply not_initialized_not_in; eauto.
Qed.

Lemma pool_inv_effect (L L' : Loop) (evs : list event) :
  trace L' = trace L ++ evs ->
  startup_effect CLIENTS_CONFIG bot L L' evs ->
  pool_inv CLIENTS_CONFIG bot L -> pool_inv CLIENTS_CONFIG bot L'.
Proof.
  intros Htr Heff (Hreg & Hmerged & Hnd & Hsub & Hcfg).
  unfold pool_inv, registered, merged, pool_within_registry, registry_within_config in *.
  rewrite Htr.
  destruct Heff as [Hmc Hwl Hni Hnp _ _ | Hmc0 Hwl0 Hmc Hwl Hps Hsec _
                   | i Hmc0 Hmc Hi Hwl Hni Hnp _ _
                   | d Hmc0 Hmc Hd Hwl Hnp Hor Hsum _ _ Hkeys].
  - rewrite Hmc, Hwl. split; [|split; [|split; [|split]]]; auto.
    + destruct Hreg as [(H1 & H2 & H3)|(H1 & H2 & H3)].
      * left. split; [|split]; auto. now apply primary_not_started_app.
      * right. split; [|split]; auto. now apply primary_started_app.
    + intros Hin. apply Hmerged. eapply initialized_before; eauto.
  - rewrite Hmc, Hwl. split; [|split; [|split; [|split]]].
    + right. split; [reflexivity|]. split; [now left|].
      destruct Hps as [h Hin]. exists h. apply in_or_app. now right.
    + intros Hin. apply in_app_or in Hin. destruct Hin as [Hin|Hin].
      * destruct (Hmerged Hin) as (d & Hd & _). congruence.
      * exists []. split; [reflexivity|]. now rewrite (proj1 (Hsec Hin)).
    + repeat constructor. intros [].
    + intros k Hk. exact Hk.
    + intros k [<-|[]]. now left.
  - rewrite Hmc, Hwl. split; [|split; [|split; [|split]]].
    + right. destruct Hreg as [(H1 & _)|(H1 & H2 & H3)]; [congruence|].
      split; [exact H1|]. split.
      * apply in_keys_set. now right.
      * now apply primary_started_app.
    + intros Hin. apply Hmerged. eapply initialized_before; eauto.
    + now apply NoDup_keys_set.
    + intros k Hk. apply in_keys_set. right. now apply Hsub.
    + intros k Hk. apply in_keys_set in Hk. destruct Hk as [->|Hk]; [now right | now apply Hcfg].
  - rewrite Hmc, Hwl. split; [|split; [|split; [|split]]]; auto.
    + right. destruct Hreg as [(H1 & _)|(H1 & H2 & H3)]; [congruence|].
      split; [reflexivity|]. split; [exact H2|]. now apply primary_started_app.
    + intros _. exists d. now split.
    + intros k [<-|Hk].
      * apply Hsub. rewrite Hmc0. now left.
      * now apply Hkeys.
Qed.

Lemma pool_inv_initial : pool_inv CLIENTS_CONFIG bot (startup_loop CLIENTS_CONFIG bot).
Proof.
  split; [|split; [|split; [|split]]].
  - left. split; [reflexivity|]. split; [reflexivity|]. intros h [].
  - intros [].
  - constructor.
  - intros k [].
  - intros k [].
Qed.

(** What a turn writes into the registry is 0. *)
Lemma effect_writes_zero (L L' : Loop) (evs : list event) :
  startup_effect CLIENTS_CONFIG bot L L' evs ->
  forall k, get k (work_loads L') = get k (work_loads L) \/
            get k (work_loads L') = Some 0%Z.
Proof.
  intros [Hmc Hwl _ _ _ _ | _ Hwl0 _ Hwl _ _ _ | i _ _ _ Hwl _ _ _ _ | d _ _ _ Hwl _ _ _ _ _ _] k.
  - left. now rewrite Hwl.
  - rewrite Hwl, Hwl0. cbn. destruct (k =? 0)%Z; [now right | now left].
  - rewrite Hwl. destruct (Z.eq_dec k i) as [->|Hne].
    + right. apply get_set_same.
    + left. now apply get_set_other.
  - left. now rewrite Hwl.
Qed.

(** The fan-out, turn by turn. *)
Lemma fan_out_inv_effect (L L' : Loop) (evs : list event) :
  trace L' = trace L ++ evs ->
  startup_effect CLIENTS_CONFIG bot L L' evs ->
  registered bot L ->
  no_secondary (trace L) \/ started_shape bot (trace L) ->
  fan_out_inv CLIENTS_CONFIG bot L -> fan_out_inv CLIENTS_CONFIG bot L'.
Proof.
  intros Htr Heff Hreg Hshape Hfan. unfold fan_out_inv in *. rewrite Htr.
  assert (Hext : forall evs',
             starts_fanned_out CLIENTS_CONFIG bot (trace L) ->
             no_creation evs' -> no_main_start evs' ->
             starts_fanned_out CLIENTS_CONFIG bot (trace L ++ evs')).
  { intros evs' (tr0 & h & n & tr1 & Heq & H0 & Hb & H1 & H2) Hnc Hnm.
    exists tr0, h, n, (tr1 ++ evs'). split; [|split; [|split; [|split]]]; auto.
    - rewrite Heq. rewrite <- !app_assoc. cbn. now rewrite <- !app_assoc.
    - now apply no_creation_app.
    - now apply no_main_start_app. }
  assert (Hstarted : starts_fanned_out CLIENTS_CONFIG bot (trace L) ->
                     multi_clients L <> []).
  { intros (tr0 & h & n & tr1 & Heq & _) Hmc.
    destruct Hreg as [(_ & _ & Hnot)|(Hget & _)].
    - apply (Hnot h). rewrite Heq. apply in_or_app. right. now left.
    - rewrite Hmc in Hget. discriminate. }
  assert (Hpool : multi_clients L = [(0%Z, bot)] ->
                  starts_fanned_out CLIENTS_CONFIG bot (trace L)).
  { intros Hmc. destruct Hfan as [[Hnot _]|Hsh]; [|exact Hsh].
    exfalso. destruct Hreg as [(Hmc0 & _)|(_ & _ & [h Hin])]; [congruence|].
    now apply (Hnot h). }
  destruct Heff as [Hmc Hwl Hni Hnp Hnc Hms | Hmc0 Hwl0 Hmc Hwl Hps Hsec Hfo
                   | i Hmc0 Hmc Hi Hwl Hni Hnp Hnc Hnm
                   | d Hmc0 Hmc Hd Hwl Hnp Hor Hsum Hnc Hnm Hkeys].
  - destruct Hfan as [[Hnot Hbot]|Hsh].
    + left. split; [now apply primary_not_started_app|].
      intros c Hin. apply in_app_or in Hin. destruct Hin as [Hin|Hin].
      * now apply Hbot.
      * now apply (Hms c).
    + right. apply Hext; auto.
      intros c Hin. apply (Hstarted Hsh). now apply (Hms c).
  - right. destruct Hfo as (h & tail & -> & Hnc & Hnm).
    destruct Hfan as [[Hnot Hbot]|Hsh]; [|exfalso; now apply (Hstarted Hsh)].
    exists (trace L), h, (List.length (tasks L)), tail.
    split; [reflexivity|]. split; [|split; [|split]]; auto.
    destruct Hshape as [Hns|Hsh]; [exact Hns|].
    exfalso. eapply started_shape_not_started; eauto.
  - right. apply Hext; auto.
  - right. apply Hext; auto.
Qed.

Lemma fan_out_inv_initial : fan_out_inv CLIENTS_CONFIG bot (startup_loop CLIENTS_CONFIG bot).
Proof. left. split; [intros h [] | intros c []]. Qed.

Lemma startup_state_step (t : tid) (L : Loop) :
  startup_inv CLIENTS_CONFIG bot L /\ pool_inv CLIENTS_CONFIG bot L /\
  fan_out_inv CLIENTS_CONFIG bot L ->
  startup_inv CLIENTS_CONFIG bot (step bot env t L) /\
  pool_inv CLIENTS_CONFIG bot (step bot env t L) /\
  fan_out_inv CLIENTS_CONFIG bot (step bot env t L).
Proof.
  intros (Hinv & Hpool & Hfan). split; [now apply startup_inv_step|].
  destruct (startup_step_effect t L Hinv) as (evs & Htr & Heff).
  split; [eapply pool_inv_effect; eauto|].
  eapply fan_out_inv_effect; eauto.
  - apply Hpool.
  - now apply (startup_inv_shape CLIENTS_CONFIG bot).
Qed.

Lemma startup_state_run (sched : list sched_item) (L : Loop) :
  startup_inv CLIENTS_CONFIG bot L /\ pool_inv CLIENTS_CONFIG bot L /\
  fan_out_inv CLIENTS_CONFIG bot L ->
  startup_inv CLIENTS_CONFIG bot (run_schedule bot env sched L) /\
  pool_inv CLIENTS_CONFIG bot (run_schedule bot env sched L) /\
  fan_out_inv CLIENTS_CONFIG bot (run_schedule bot env sched L).
Proof.
  apply (run_schedule_ind bot env
           (fun L => startup_inv CLIENTS_CONFIG bot L /\ pool_inv CLIENTS_CONFIG bot L /\
                     fan_out_inv CLIENTS_CONFIG bot L)
           startup_state_step sched L).
Qed.

Lemma pool_inv_run (sched : list sched_item) (L : Loop) :
  startup_inv CLIENTS_CONFIG bot L -> pool_inv CLIENTS_CONFIG bot L ->
  pool_inv CLIENTS_CONFIG bot (run_schedule bot env sched L).
Proof.
  intros Hinv Hpool.
  apply (run_schedule_ind bot env
           (fun L => startup_inv CLIENTS_CONFIG bot L /\ pool_inv CLIENTS_CONFIG bot L)).
  - intros t L0 [H1 H2]. split; [now apply startup_inv_step|].
    destruct (startup_step_effect t L0 H1) as (evs & Htr & Heff).
    eapply pool_inv_effect; eauto.
  - now split.
Qed.

Lemma fan_out_reachable (sched : list sched_item) :
  let L := run_schedule bot env sched (startup_loop CLIENTS_CONFIG bot) in
  primary_started bot (trace L) -> starts_fanned_out CLIENTS_CONFIG bot (trace L).
Proof.
  intros L [h Hin].
  destruct (startup_state_run sched (startup_loop CLIENTS_CONFIG bot)) as (_ & _ & Hfan).
  { split; [left; apply startup_inv_initial|].
    split; [apply pool_inv_initial | apply fan_out_inv_initial]. }
  fold L in Hfan. destruct Hfan as [[Hnot _]|Hsh]; [|exact Hsh].
  exfalso. now apply (Hnot h).
Qed.

Lemma startup_inv_settled (L : Loop) :
  startup_inv CLIENTS_CONFIG bot L -> settled_when_initialized L.
Proof.
  intros [Hs|[Hs|[Hs|Hs]]] Hin.
  - exfalso. destruct Hs as (_ & _ & _ & _ & _ & Hni).
    eapply not_initialized_not_in; eauto.
  - exfalso. destruct Hs as (_ & _ & _ & _ & _ & Hni).
    eapply not_initialized_not_in; eauto.
  - exfalso. destruct Hs as (n & _ & _ & _ & _ & _ & _ & _ & Hni & _).
    eapply not_initialized_not_in; eauto.
  - apply Hs.
Qed.

Lemma step_writes_zero (sched : list sched_item) (t : tid) (k : Z) :
  let L := run_schedule bot env sched (startup_loop CLIENTS_CONFIG bot) in
  get k (work_loads (step bot env t L)) = get k (work_loads L) \/
  get k (work_loads (step bot env t L)) = Some 0%Z.
Proof.
  intros L.
  destruct (startup_step_effect t L (startup_inv_reachable CLIENTS_CONFIG bot env sched))
    as (evs & _ & Heff).
  now apply (effect_writes_zero L _ evs).
Qed.

Lemma pool_inv_reachable (sched : list sched_item) :
  pool_inv CLIENTS_CONFIG bot (run_schedule bot env sched (startup_loop CLIENTS_CONFIG bot)).
Proof.
  apply pool_inv_run; [left; apply startup_inv_initial | apply pool_inv_initial].
Qed.

End StartupEffect.

(* ================================================================== *)
(** ** Start-up: ordering and the keys of the two dictionaries *)
(* ================================================================== *)

(** C8.  In every state that the loop can reach while it runs [init()],
    whatever the schedule, the signals and the collaborators do:
    everything that belongs to the start of a secondary client comes after
    the return of the primary client's [start()]; once that start has
    returned, the trace shows the fan-out: in the same turn, right after
    the two records of the registration, one [start_client] task has
    been created for every secondary entry of the configuration, in the
    order of the configuration and with nothing in between, no further
    one is created later, and the main task starts no client itself;
    every [start_client] task is created before any of them has run; as
    long as one of them is not done the main task is blocked in the
    [gather] that lists it, also when others have already failed; and
    when [initialize_clients] has returned every one of them is done. *)
Theorem startup_ordering
  (CLIENTS_CONFIG : dict Z conf) (bot : Handle) (env : call -> list event -> outcome)
  (sched : list sched_item) :
  let L := run_schedule bot env sched (startup_loop CLIENTS_CONFIG bot) in
  primary_first bot (trace L) /\
  (primary_started bot (trace L) -> starts_fanned_out CLIENTS_CONFIG bot (trace L)) /\
  issued_before_run (trace L) /\
  waits_for_all L /\
  settled_when_initialized L.
Proof.
  intros L.
  pose proof (startup_inv_reachable CLIENTS_CONFIG bot env sched) as Hinv. fold L in Hinv.
  split; [|split; [|split; [|split]]].
  - destruct (startup_inv_shape _ _ _ Hinv) as [H|H].
    + now apply no_secondary_primary_first.
    + now apply started_shape_primary_first.
  - apply (fan_out_reachable CLIENTS_CONFIG bot env sched).
  - destruct (startup_inv_shape _ _ _ Hinv) as [H|H].
    + now apply no_secondary_issued_before_run.
    + eapply started_shape_issued_before_run; eauto.
  - eapply startup_inv_waits; eauto.
  - eapply startup_inv_settled; eauto.
Qed.

Lemma startup_ordering_witness :
  let L := run_schedule bot0 collaborators [Tick 0; Tick 0; Tick 1; Tick 2; Tick 1]
             (startup_loop config_all_valid bot0) in
  primary_started bot0 (trace L) /\
  starts_fanned_out config_all_valid bot0 (trace L).
Proof.
  intros L.
  assert (H : primary_started bot0 (trace L)).
  { exists bot0. vm_compute. right. left. reflexivity. }
  split; [exact H|].
  exact (proj1 (proj2 (startup_ordering config_all_valid bot0 collaborators
                         [Tick 0; Tick 0; Tick 1; Tick 2; Tick 1])) H).
Defined.

(** C7, as amended.  In every state that the loop can reach while it runs
    [init()], every client of the pool has a counter in the registry, and
    every counter of the registry is that of the primary client or of a
    secondary entry of the configuration.  The registry and the pool have
    the same keys as long as [bot.start()] has not returned (both are
    empty), and again once [initialize_clients] has returned (the record
    "Starting cache manager..." is in the log) and from then on. *)
Theorem pool_keys_within_registry_keys
  (CLIENTS_CONFIG : dict Z conf) (bot : Handle) (env : call -> list event -> outcome)
  (sched : list sched_item) :
  let L := run_schedule bot env sched (startup_loop CLIENTS_CONFIG bot) in
  (forall k, In k (keys (multi_clients L)) -> In k (keys (work_loads L))) /\
  (forall k, In k (keys (work_loads L)) ->
             k = 0%Z \/ In k (keys (additional_clients_conf CLIENTS_CONFIG))) /\
  (In initialized_log (trace L) \/ primary_not_started bot (trace L) ->
   same_keys (work_loads L) (multi_clients L)).
Proof.
  intros L.
  destruct (pool_inv_reachable CLIENTS_CONFIG bot env sched) as (_ & _ & _ & Hsub & Hcfg).
  split; [exact Hsub|]. split; [exact Hcfg|].
  eapply startup_inv_keys. apply startup_inv_reachable.
Qed.

Lemma pool_keys_within_registry_keys_witness :
  let L := run_schedule bot0 collaborators
             [Tick 0; Tick 0; Tick 1; Tick 2; Tick 1; Tick 2; Tick 0]
             (startup_loop config_all_valid bot0) in
  (In initialized_log (trace L) \/ primary_not_started bot0 (trace L)) /\
  same_keys (work_loads L) (multi_clients L).
Proof.
  intros L.
  assert (H : In initialized_log (trace L) \/ primary_not_started bot0 (trace L)).
  { left. vm_compute. do 13 right. left. reflexivity. }
  split; [exact H|].
  exact (proj2 (proj2 (pool_keys_within_registry_keys config_all_valid bot0 collaborators
                         [Tick 0; Tick 0; Tick 1; Tick 2; Tick 1; Tick 2; Tick 0])) H).
Defined.

(* ================================================================== *)
(** ** The pool and the registry in every reachable state *)
(* ================================================================== *)

(** X12.  In every state that the loop can reach while it runs [init()],
    whichever task takes the next turn, that turn leaves a counter of the
    workload registry as it is or sets it to 0: a counter enters the
    registry as 0, and [app.py] writes no other value into it. *)
Theorem registry_writes_only_zero
  (CLIENTS_CONFIG : dict Z conf) (bot : Handle) (env : call -> list event -> outcome)
  (sched : list sched_item) (t : tid) (k : Z) :
  let L := run_schedule bot env sched (startup_loop CLIENTS_CONFIG bot) in
  get k (work_loads (step bot env t L)) = get k (work_loads L) \/
  get k (work_loads (step bot env t L)) = Some 0%Z.
Proof. apply (step_writes_zero CLIENTS_CONFIG bot env sched t k). Qed.

(** X13.  In every reachable state in which [initialize_clients] has
    returned (the record "Starting cache manager..." is in the log), the
    pool holds the primary client under 0 followed by one client for each
    secondary entry of the configuration, in the order of the
    configuration, hence one more member than there are secondary
    entries; the registry has the same keys and as many entries. *)
Theorem pool_after_initialization
  (CLIENTS_CONFIG : dict Z conf) (bot : Handle) (env : call -> list event -> outcome)
  (sched : list sched_item) :
  let L := run_schedule bot env sched (startup_loop CLIENTS_CONFIG bot) in
  In initialized_log (trace L) ->
  (exists d, multi_clients L = (0%Z, bot) :: d /\
             keys d = keys (additional_clients_conf CLIENTS_CONFIG)) /\
  len (multi_clients L) = S (len (additional_clients_conf CLIENTS_CONFIG)) /\
  same_keys (work_loads L) (multi_clients L) /\
  len (work_loads L) = len (multi_clients L).
Proof.
  intros L Hin.
  destruct (pool_inv_reachable CLIENTS_CONFIG bot env sched) as (Hreg & Hmerged & Hnd & _).
  fold L in Hreg, Hmerged, Hnd.
  destruct (Hmerged Hin) as (d & Hmc & Hd).
  change (map fst (secondary_confs CLIENTS_CONFIG))
    with (keys (additional_clients_conf CLIENTS_CONFIG)) in Hd.
  assert (Hkeys : same_keys (work_loads L) (multi_clients L)).
  { apply (startup_inv_keys CLIENTS_CONFIG bot L).
    - apply startup_inv_reachable.
    - now left. }
  assert (Hnd' : NoDup (keys (multi_clients L))).
  { rewrite Hmc. change (NoDup (0%Z :: keys d)). rewrite Hd. constructor.
    - apply additional_clients_conf_not_primary.
    - apply additional_clients_conf_NoDup. }
  split; [exists d; now split|]. split.
  { rewrite Hmc. unfold len, keys in *. cbn [List.length].
    now rewrite <- (length_map fst d), Hd, length_map. }
  split; [exact Hkeys|].
  unfold len. rewrite <- (length_map fst (work_loads L)), <- (length_map fst (multi_clients L)).
  apply Nat.le_antisymm; apply NoDup_incl_length; auto; intros k Hk; now apply Hkeys.
Qed.

Lemma pool_after_initialization_witness :
  let L := run_schedule bot0 collaborators
             [Tick 0; Tick 0; Tick 1; Tick 2; Tick 1; Tick 2; Tick 0]
             (startup_loop config_all_valid bot0) in
  In initialized_log (trace L) /\
  (exists d, multi_clients L = (0%Z, bot0) :: d /\
             keys d = keys (additional_clients_conf config_all_valid)) /\
  len (multi_clients L) = S (len (additional_clients_conf config_all_valid)) /\
  same_keys (work_loads L) (multi_clients L) /\
  len (work_loads L) = len (multi_clients L).
Proof.
  intros L.
  assert (H : In initialized_log (trace L)).
  { vm_compute. do 13 right. left. reflexivity. }
  split; [exact H|].
  exact (pool_after_initialization config_all_valid bot0 collaborators
           [Tick 0; Tick 0; Tick 1; Tick 2; Tick 1; Tick 2; Tick 0] H).
Defined.

Lemma in_keys_get {V : Type} (k : Z) (d : dict Z V) :
  In k (keys d) -> exists v, get k d = Some v.
Proof.
  intros Hin. destruct (get k d) as [v|] eqn:Hg; [now exists v|].
  apply get_none in Hg. contradiction.
Qed.

(** X14.  In every reachable state in which [bot.start()] has returned,
    the primary client is in the pool under 0 and has a counter in the
    registry, whatever has happened to the secondary clients since. *)
Theorem primary_registered_once_started
  (CLIENTS_CONFIG : dict Z conf) (bot : Handle) (env : call -> list event -> outcome)
  (sched : list sched_item) :
  let L := run_schedule bot env sched (startup_loop CLIENTS_CONFIG bot) in
  primary_started bot (trace L) ->
  get 0%Z (multi_clients L) = Some bot /\ In 0%Z (keys (work_loads L)).
Proof.
  intros L Hps.
  destruct (pool_inv_reachable CLIENTS_CONFIG bot env sched) as (Hreg & _).
  fold L in Hreg.
  destruct Hreg as [(_ & _ & Hnot)|(Hmc & Hwl & _)].
  - exfalso. destruct Hps as [h Hin]. now apply (Hnot h).
  - now split.
Qed.

Lemma primary_registered_once_started_witness :
  let L := run_schedule bot0 collaborators [Tick 0; Tick 0; Tick 1; Tick 2; Tick 2]
             (startup_loop config_one_revoked bot0) in
  primary_started bot0 (trace L) /\
  get 0%Z (multi_clients L) = Some bot0 /\ In 0%Z (keys (work_loads L)).
Proof.
  intros L.
  assert (H : primary_started bot0 (trace L)).
  { exists bot0. vm_compute. right. left. reflexivity. }
  split; [exact H|].
  exact (primary_registered_once_started config_one_revoked bot0 collaborators
           [Tick 0; Tick 0; Tick 1; Tick 2; Tick 2] H).
Defined.

(** X15.  In every reachable state in which [bot.start()] has not
    returned (it is pending, or it raised), the pool and the registry are
    empty and nothing that belongs to the start of a secondary client has
    happened. *)
Theorem nothing_registered_before_primary
  (CLIENTS_CONFIG : dict Z conf) (bot : Handle) (env : call -> list event -> outcome)
  (sched : list sched_item) :
  let L := run_schedule bot env sched (startup_loop CLIENTS_CONFIG bot) in
  primary_not_started bot (trace L) ->
  multi_clients L = [] /\ work_loads L = [] /\ no_secondary (trace L).
Proof.
  intros L Hnot.
  destruct (pool_inv_reachable CLIENTS_CONFIG bot env sched) as (Hreg & _).
  fold L in Hreg.
  destruct Hreg as [(Hmc & Hwl & _)|(_ & _ & [h Hin])]; [|exfalso; now apply (Hnot h)].
  split; [exact Hmc|]. split; [exact Hwl|].
  destruct (startup_inv_shape CLIENTS_CONFIG bot L
              (startup_inv_reachable CLIENTS_CONFIG bot env sched)) as [Hns|Hsh];
    [exact Hns|].
  exfalso. eapply started_shape_not_started; eauto.
Qed.

Lemma nothing_registered_before_primary_witness :
  let L := run_schedule bot0 primary_start_fails [Tick 0; Tick 0; Signal 15; Tick 1]
             (startup_loop config_all_valid bot0) in
  primary_not_started bot0 (trace L) /\
  multi_clients L = [] /\ work_loads L = [] /\ no_secondary (trace L).
Proof.
  intros L.
  assert (H : primary_not_started bot0 (trace L)).
  { intros h Hin. vm_compute in Hin.
    repeat (destruct Hin as [Hin|Hin]; [discriminate Hin|]). exact Hin. }
  split; [exact H|].
  exact (nothing_registered_before_primary config_all_valid bot0 primary_start_fails
           [Tick 0; Tick 0; Signal 15; Tick 1] H).
Defined.

(* ================================================================== *)
(** ** No shutdown without a trigger *)
(* ================================================================== *)

Lemma starts_only_bind {A B} (p : coro A) (f : A -> coro B) :
  starts_only p -> (forall a, starts_only (f a)) -> starts_only (bind p f).
Proof. induction 1; intros Hf; cbn; try constructor; auto. Qed.

Lemma starts_only_try_except {A} (p : coro A) (h : exn -> coro A) :
  starts_only p -> (forall e, starts_only (h e)) -> starts_only (try_except p h).
Proof. induction 1; intros Hh; cbn; try constructor; auto. Qed.

Lemma starts_only_resume_with (o : outcome) : starts_only (resume_with o).
Proof. destruct o; constructor. Qed.

Lemma starts_only_getitem (d : conf) (key : string) : starts_only (getitem d key).
Proof. unfold getitem. destruct (get key d); constructor. Qed.

Lemma starts_only_log {A} (lvl : level) (m : msg) (k : coro A) :
  starts_only k -> starts_only (Do (Log lvl m) k).
Proof. intros Hk. now constructor. Qed.

Lemma starts_only_start_client (i : Z) (c : conf) : starts_only (start_client i c).
Proof.
  unfold start_client. apply starts_only_try_except.
  - apply starts_only_bind; [repeat constructor|]. intros _.
    apply starts_only_bind; [apply starts_only_getitem|]. intros a.
    apply starts_only_bind; [apply starts_only_getitem|]. intros h.
    apply starts_only_bind; [apply starts_only_getitem|]. intros t.
    apply starts_only_bind.
    { constructor; [reflexivity|]. intros o. apply starts_only_resume_with. }
    intros cl. repeat constructor.
  - intros e. repeat constructor.
Qed.

Lemma starts_only_create_start_tasks (l : list (Z * conf)) :
  starts_only (create_start_tasks l).
Proof.
  induction l as [|[i c] l IH]; cbn [create_start_tasks]; [constructor|].
  apply starts_only_bind; [repeat constructor|]. intros t.
  apply starts_only_bind; [exact IH|]. intros ts. constructor.
Qed.

Lemma starts_only_collect_clients (rs : list task_result) (acc : dict Z Handle) :
  starts_only (collect_clients rs acc).
Proof.
  revert acc. induction rs as [|[[i h]|] rs IH]; intros acc; cbn; try constructor.
  apply IH.
Qed.

Lemma starts_only_initialize_clients (CLIENTS_CONFIG : dict Z conf) (bot : Handle) :
  starts_only (initialize_clients CLIENTS_CONFIG bot).
Proof.
  unfold initialize_clients. apply starts_only_bind.
  - apply starts_only_try_except; [repeat constructor|]. intros e. repeat constructor.
  - intros _. destruct (negb (truthy (additional_clients_conf CLIENTS_CONFIG))).
    + repeat constructor.
    + apply starts_only_bind; [apply starts_only_create_start_tasks|]. intros n.
      apply starts_only_bind.
      { constructor. intros [l|e]; constructor. }
      intros clients.
      apply starts_only_bind; [apply starts_only_collect_clients|]. intros d.
      apply starts_only_bind; [repeat constructor|]. intros _.
      apply starts_only_bind; [repeat constructor|]. intros mc.
      destruct (1 <? len mc)%nat; repeat constructor.
Qed.

Lemma starts_only_init (CLIENTS_CONFIG : dict Z conf) (bot : Handle) :
  starts_only (as_task (init CLIENTS_CONFIG bot)).
Proof.
  unfold as_task, init. apply starts_only_bind; [|intros _; constructor].
  apply starts_only_bind.
  { constructor; [reflexivity|]. intros o. apply starts_only_resume_with. }
  intros _. apply starts_only_bind; [repeat constructor|]. intros _.
  apply starts_only_bind; [apply starts_only_initialize_clients|]. intros _.
  apply starts_only_bind; [repeat constructor|]. intros _.
  apply starts_only_bind; [repeat constructor|]. intros t.
  apply starts_only_bind; [repeat constructor|]. intros _.
  apply starts_only_bind; [repeat constructor|]. intros _.
  apply starts_only_bind; [repeat constructor|]. intros _.
  apply starts_only_bind; [repeat constructor|]. intros _.
  apply starts_only_bind; [repeat constructor|]. intros _.
  apply starts_only_bind.
  { constructor; [reflexivity|]. intros o. apply starts_only_resume_with. }
  intros _. constructor.
Qed.

Lemma starts_only_task_body (bot : Handle) (s : task_spec) :
  stop_free_spec s = true -> starts_only (task_body bot s).
Proof.
  destruct s as [i c| | |sig]; cbn [task_body]; intros Hs.
  - apply starts_only_start_client.
  - apply starts_only_bind; [|intros _; constructor].
    constructor; [reflexivity|]. intros o. apply starts_only_resume_with.
  - apply starts_only_bind; [|intros _; constructor].
    constructor; [reflexivity|]. intros o. apply starts_only_resume_with.
  - discriminate.
Qed.

Section NoShutdown.

Variable bot : Handle.
Variable env : call -> list event -> outcome.

Lemma stopping_add_callback (t : tid) (cb : callback) (L : Loop) :
  stopping (add_callback t cb L) = stopping L.
Proof.
  unfold add_callback.
  destruct (nth_error (tasks L) t) as [[[p|c k|r] cbs]|]; try reflexivity.
  now rewrite run_callback_id.
Qed.

Lemma no_shutdown_set_state (me : tid) (st : tstate) (L : Loop) :
  starts_only_state st -> no_shutdown L -> no_shutdown (set_state me st L).
Proof.
  intros Hst (Hts & Htr & Hsp). split; [|split]; auto.
  intros t st' Hst'. destruct (Nat.eq_dec me t) as [->|Hne].
  - pose proof (task_state_lt _ _ _ Hst') as Hlt. rewrite set_state_length in Hlt.
    rewrite task_state_set_same in Hst' by exact Hlt. now injection Hst' as <-.
  - rewrite task_state_set_other in Hst' by exact Hne. eapply Hts; eauto.
Qed.

Lemma no_shutdown_emit (e : event) (L : Loop) :
  stop_free e = true -> no_shutdown L -> no_shutdown (emit e L).
Proof.
  intros He (Hts & Htr & Hsp). split; [|split]; auto.
  cbn. rewrite forallb_app, Htr. cbn. now rewrite He.
Qed.

Lemma no_shutdown_perform (a : action) (L : Loop) :
  stop_free_action a = true -> no_shutdown L -> no_shutdown (perform a L).
Proof.
  intros Ha HL. destruct a; try discriminate.
  - now apply no_shutdown_emit.
  - exact HL.
  - exact HL.
  - exact HL.
Qed.

Lemma no_shutdown_add_task (s : task_spec) (L : Loop) :
  stop_free_spec s = true -> no_shutdown L -> no_shutdown (add_task bot s L).
Proof.
  intros Hs (Hts & Htr & Hsp). split; [|split].
  - intros t st Hst. apply task_state_add_task_inv in Hst.
    destruct Hst as [Hst|[_ ->]]; [eapply Hts; eauto|].
    now apply starts_only_task_body.
  - cbn. rewrite forallb_app, Htr. cbn. now rewrite Hs.
  - exact Hsp.
Qed.

Lemma no_shutdown_add_callback (t : tid) (cb : callback) (L : Loop) :
  no_shutdown L -> no_shutdown (add_callback t cb L).
Proof.
  intros (Hts & Htr & Hsp).
  destruct (add_callback_clients t cb L) as (_ & _ & Htr' & _ & Hst').
  split; [|split].
  - intros t' st Hst. rewrite Hst' in Hst. eapply Hts; eauto.
  - now rewrite Htr'.
  - now rewrite stopping_add_callback.
Qed.

(** A turn of a task that takes no part in a shutdown. *)
Lemma advance_starts_only (p : coro task_result) :
  starts_only p ->
  forall (me : tid) (L : Loop), no_shutdown L -> no_shutdown (advance bot me p L).
Proof.
  induction 1 as [a|e|a k Ha Hk IH|k Hk IH|c k Hc Hk IH|s k Hs Hk IH|ts k Hk IH|t cb k Hk IH];
    intros me L HL; cbn [advance].
  - rewrite finish_eq. now apply no_shutdown_set_state.
  - rewrite finish_eq. now apply no_shutdown_set_state.
  - apply IH. now apply no_shutdown_perform.
  - now apply IH.
  - apply no_shutdown_set_state; [now split|]. now apply no_shutdown_emit.
  - apply IH. now apply no_shutdown_add_task.
  - destruct (gather_status ts L) as [r|]; [now apply IH|].
    apply no_shutdown_set_state; [|exact HL]. now constructor.
  - apply IH. now apply no_shutdown_add_callback.
Qed.

Lemma step_no_shutdown (t : tid) (L : Loop) :
  no_shutdown L -> no_shutdown (step bot env t L).
Proof.
  intros HL. unfold step. destruct (task_state t L) as [[p|c k|r]|] eqn:Hst; auto.
  - apply advance_starts_only; [|exact HL]. destruct HL as (Hts & _). apply (Hts _ _ Hst).
  - destruct HL as (Hts & Htr & Hsp). destruct (Hts _ _ Hst) as [Hc Hk].
    apply advance_starts_only; [apply Hk|].
    apply no_shutdown_emit; [exact Hc|]. now split.
Qed.

Lemma run_no_shutdown (sched : list sched_item) (L : Loop) :
  no_shutdown L -> no_shutdown (run_schedule bot env sched L).
Proof. apply run_schedule_ind. intros t L0. apply step_no_shutdown. Qed.

Lemma stop_free_counts (tr : list event) :
  forallb stop_free tr = true ->
  shutdown_notifications tr = 0%nat /\ storage_closes tr = 0%nat /\
  (forall h, stop_attempts h tr = 0%nat) /\ count_events is_loop_stop tr = 0%nat.
Proof.
  unfold shutdown_notifications, storage_closes, stop_attempts.
  induction tr as [|e tr IH]; cbn [forallb]; intros Hall.
  - repeat split.
  - apply andb_prop in Hall. destruct Hall as [He Htr].
    destruct (IH Htr) as (H1 & H2 & H3 & H4).
    rewrite !count_events_cons, H1, H2, H4.
    assert (Hn : is_shutdown_notification e = false).
    { destruct e as [| |t c| | |]; try reflexivity. destruct c as [| |m| | | |]; try reflexivity.
      destruct m as [|[s| | | |] [|f m]]; try reflexivity.
      cbn in He |- *. now destruct (String.eqb s "Stopping all clients ..."). }
    assert (Hc : is_storage_close e = false) by (destruct e; try reflexivity; discriminate).
    assert (Hl : is_loop_stop e = false) by (destruct e; try reflexivity; discriminate).
    assert (Hs : forall h, is_stop_of h e = false).
    { intros h. destruct e as [| |t c| | |]; try reflexivity.
      destruct c; try reflexivity. discriminate. }
    rewrite Hn, Hc, Hl. repeat split.
    intros h. now rewrite count_events_cons, Hs, H3.
Qed.

End NoShutdown.

(** X16.  As long as no signal is delivered, nothing of a shutdown
    happens while the loop runs [init()], whatever the schedule and the
    collaborators do: the operator is not told that the clients are being
    stopped, the storage is not closed, no client is stopped, and
    [loop.stop()] is not called. *)
Theorem no_shutdown_without_signal
  (CLIENTS_CONFIG : dict Z conf) (bot : Handle) (env : call -> list event -> outcome)
  (sched : list sched_item) :
  signals sched = 0%nat ->
  let L := run_schedule bot env sched (startup_loop CLIENTS_CONFIG bot) in
  stopping L = false /\
  shutdown_notifications (trace L) = 0%nat /\ storage_closes (trace L) = 0%nat /\
  (forall h, stop_attempts h (trace L) = 0%nat) /\
  count_events is_loop_stop (trace L) = 0%nat.
Proof.
  intros Hsig L.
  assert (H0 : no_shutdown (startup_loop CLIENTS_CONFIG bot)).
  { split; [|split]; try reflexivity.
    intros [|t] st Hst; cbn in Hst.
    - injection Hst as <-. apply starts_only_init.
    - destruct t; discriminate. }
  destruct (run_no_shutdown bot env sched _ H0) as (_ & Htr & Hsp).
  split; [exact Hsp|]. now apply stop_free_counts.
Qed.

Lemma no_shutdown_without_signal_witness :
  let sched := [Tick 0; Tick 0; Tick 1; Tick 2; Tick 1; Tick 2; Tick 0; Tick 3; Tick 4; Tick 0] in
  let L := run_schedule bot0 collaborators sched (startup_loop config_all_valid bot0) in
  signals sched = 0%nat /\
  stopping L = false /\
  shutdown_notifications (trace L) = 0%nat /\ storage_closes (trace L) = 0%nat /\
  (forall h, stop_attempts h (trace L) = 0%nat) /\
  count_events is_loop_stop (trace L) = 0%nat.
Proof.
  intros sched L.
  assert (H : signals sched = 0%nat) by reflexivity.
  split; [exact H|].
  exact (no_shutdown_without_signal config_all_valid bot0 collaborators sched H).
Defined.

(* ================================================================== *)
(** ** What has happened when [run_until_complete] returns *)
(* ================================================================== *)

Section Frame.

Variable bot : Handle.
Variable env : call -> list event -> outcome.

Lemma trace_perform (a : action) (L : Loop) :
  exists evs, trace (perform a L) = trace L ++ evs.
Proof.
  destruct a; cbn; try (exists []; now rewrite app_nil_r); eexists; reflexivity.
Qed.

(** A turn of task [me] only adds to the trace and leaves the state of
    every other task that exists as it is. *)
Lemma advance_frame (p : coro task_result) :
  forall (me : tid) (L : Loop),
    (exists evs, trace (advance bot me p L) = trace L ++ evs) /\
    (forall t, t <> me -> (t < List.length (tasks L))%nat ->
               task_state t (advance bot me p L) = task_state t L) /\
    (List.length (tasks L) <= List.length (tasks (advance bot me p L)))%nat.
Proof.
  induction p as [a|e|a k IH|k IH|c k IH|s k IH|ts k IH|t cb k IH]; intros me L;
    cbn [advance].
  - rewrite finish_eq. split; [exists []; cbn; now rewrite app_nil_r|]. split.
    + intros t Hne _. now apply task_state_set_other.
    + now rewrite set_state_length.
  - rewrite finish_eq. split; [exists []; cbn; now rewrite app_nil_r|]. split.
    + intros t Hne _. now apply task_state_set_other.
    + now rewrite set_state_length.
  - destruct (IH me (perform a L)) as ([evs Htr] & Hold & Hlen).
    destruct (trace_perform a L) as [evs0 Htr0]. rewrite tasks_perform in Hlen.
    split; [|split; [|exact Hlen]].
    + exists (evs0 ++ evs). now rewrite Htr, Htr0, app_assoc.
    + intros t Hne Hlt. rewrite Hold; [apply task_state_perform | exact Hne |].
      now rewrite tasks_perform.
  - apply IH.
  - split; [exists [EvCall me c]; reflexivity|]. split.
    + intros t Hne _. rewrite task_state_set_other by auto. apply task_state_emit.
    + now rewrite set_state_length.
  - destruct (IH (List.length (tasks L)) me (add_task bot s L)) as ([evs Htr] & Hold & Hlen).
    rewrite add_task_length in Hlen. split; [|split; [|lia]].
    + eexists (_ :: evs). rewrite Htr. cbn. now rewrite <- app_assoc.
    + intros t Hne Hlt. rewrite Hold; [now apply task_state_add_task_old | exact Hne |].
      rewrite add_task_length. lia.
  - destruct (gather_status ts L) as [r|]; [apply IH|].
    split; [exists []; cbn; now rewrite app_nil_r|]. split.
    + intros t Hne _. now apply task_state_set_other.
    + now rewrite set_state_length.
  - destruct (IH me (add_callback t cb L)) as ([evs Htr] & Hold & Hlen).
    destruct (add_callback_clients t cb L) as (_ & _ & Htr' & Hlen' & Hst).
    split; [|split; [|lia]].
    + exists evs. now rewrite Htr, Htr'.
    + intros t' Hne Hlt. rewrite Hold; [apply Hst | exact Hne | lia].
Qed.

Lemma step_frame (me : tid) (L : Loop) :
  (exists evs, trace (step bot env me L) = trace L ++ evs) /\
  (forall t, t <> me -> (t < List.length (tasks L))%nat ->
             task_state t (step bot env me L) = task_state t L) /\
  (List.length (tasks L) <= List.length (tasks (step bot env me L)))%nat.
Proof.
  unfold step. destruct (task_state me L) as [[p|c k|r]|].
  - apply advance_frame.
  - destruct (advance_frame (k (env c (trace L))) me (emit (EvRet me c (env c (trace L))) L))
      as ([evs Htr] & Hold & Hlen).
    split; [|split; [|exact Hlen]].
    + eexists (_ :: evs). rewrite Htr. cbn. now rewrite <- app_assoc.
    + intros t Hne Hlt. now rewrite Hold.
  - split; [exists []; now rewrite app_nil_r | split; [reflexivity | lia]].
  - split; [exists []; now rewrite app_nil_r | split; [reflexivity | lia]].
Qed.

Lemma existsb_more (Q : event -> bool) (tr evs : list event) :
  existsb Q tr = true -> existsb Q (tr ++ evs) = true.
Proof. intros H. rewrite existsb_app, H. reflexivity. Qed.

Section Pending.

Variable Q : event -> bool.
Variable me : tid.

Lemma pending_hit (L : Loop) : existsb Q (trace L) = true -> pending Q me L.
Proof. intros H. now left. Qed.

Lemma advance_hit (p : coro task_result) (L : Loop) :
  existsb Q (trace L) = true -> pending Q me (advance bot me p L).
Proof.
  intros H. left. destruct (advance_frame p me L) as ([evs ->] & _).
  now apply existsb_more.
Qed.

(** A turn of task [me] itself. *)
Lemma advance_returns_after (p : coro task_result) :
  returns_after Q me p ->
  forall L, (me < List.length (tasks L))%nat -> pending Q me (advance bot me p L).
Proof.
  induction 1 as [e|a k Ha|a k Hk IH|k Hk IH|c k Hc|c k Hk|s k Hs|s k Hk IH|ts k Hk IH
                 |t cb k Hk IH];
    intros L Hme; cbn [advance].
  - rewrite finish_eq. right. now rewrite task_state_set_same.
  - apply advance_hit. destruct a; try discriminate; cbn in *;
      rewrite existsb_app; cbn; rewrite Ha; now rewrite orb_true_r.
  - apply IH. now rewrite tasks_perform.
  - now apply IH.
  - left. cbn. rewrite existsb_app. cbn. rewrite Hc. now rewrite orb_true_r.
  - right. rewrite task_state_set_same by exact Hme. exact Hk.
  - apply advance_hit. cbn. rewrite existsb_app. cbn. rewrite Hs. now rewrite orb_true_r.
  - apply IH. rewrite add_task_length. lia.
  - destruct (gather_status ts L) as [r|]; [now apply IH|].
    right. rewrite task_state_set_same by exact Hme. now constructor.
  - apply IH. destruct (add_callback_clients t cb L) as (_ & _ & _ & Hlen & _). lia.
Qed.

Lemma pending_step (t : tid) (L : Loop) :
  (me < List.length (tasks L))%nat -> pending Q me L -> pending Q me (step bot env t L).
Proof.
  intros Hme [Hhit|Hst].
  - left. destruct (step_frame t L) as ([evs ->] & _). now apply existsb_more.
  - destruct (Nat.eq_dec t me) as [->|Hne].
    + unfold step. destruct (task_state me L) as [[p|c k|[r|e]]|] eqn:Hts.
      * now apply advance_returns_after.
      * destruct (Q (EvRet me c (env c (trace L)))) eqn:Hq.
        -- apply advance_hit. cbn. rewrite existsb_app. cbn. rewrite Hq.
           now rewrite orb_true_r.
        -- apply advance_returns_after; [now apply Hst | exact Hme].
      * contradiction.
      * right. now rewrite Hts.
      * right. now rewrite Hts.
    + right. destruct (step_frame t L) as (_ & Hold & _). rewrite Hold; auto.
Qed.

Lemma pending_turn (t : tid) (L : Loop) :
  (me < List.length (tasks L))%nat /\ pending Q me L ->
  (me < List.length (tasks (step bot env t L)))%nat /\ pending Q me (step bot env t L).
Proof.
  intros [Hme Hp]. split; [|now apply pending_step].
  destruct (step_frame t L) as (_ & _ & Hlen). lia.
Qed.

Lemma pending_run_loop (main : tid) (sched : list sched_item) :
  forall L, (me < List.length (tasks L))%nat -> pending Q me L ->
            pending Q me (fst (run_loop bot env main sched L)).
Proof.
  intros L Hme Hp.
  apply (run_loop_ind bot env
           (fun L => (me < List.length (tasks L))%nat /\ pending Q me L)
           main pending_turn sched L).
  now split.
Qed.

End Pending.

(** When [run_until_complete(p)] returns the result of [p], an event that
    [p] cannot return without has happened. *)
Lemma run_until_complete_returns_after
  (Q : event -> bool) (p : coro task_result) (sched : list sched_item)
  (L L' : Loop) (r : task_result) :
  returns_after Q (List.length (tasks L)) p ->
  run_until_complete bot env p sched L = (L', Some (inl r)) ->
  existsb Q (trace L') = true.
Proof.
  intros Hp. unfold run_until_complete.
  set (main := List.length (tasks L)).
  set (L0 := with_tasks (tasks L ++ [Task (Runnable p) []]) (with_stopping false L)).
  assert (Hst : task_state main L0 = Some (Runnable p)).
  { unfold task_state, L0, main. cbn. rewrite nth_error_app2 by lia.
    now rewrite Nat.sub_diag. }
  assert (Hme : (main < List.length (tasks L0))%nat) by (eapply task_state_lt; eauto).
  assert (H0 : pending Q main L0) by (right; now rewrite Hst).
  pose proof (pending_run_loop Q main main sched L0 Hme H0) as H1.
  destruct (run_loop bot env main sched L0) as [L1 [e|]]; [discriminate|].
  cbn [fst] in H1.
  destruct H1 as [Hhit|H1].
  - destruct (task_state main L1) as [[q|c k|r']|];
      try destruct (stopping L1);
      intros Heq; injection Heq as <- _; exact Hhit.
  - destruct (task_state main L1) as [[q|c k|[r'|e]]|];
      try destruct (stopping L1);
      intros Heq; try discriminate Heq; try contradiction.
Qed.

End Frame.

Lemma existsb_count (f : event -> bool) (tr : list event) :
  existsb f tr = true -> (1 <= count_events f tr)%nat.
Proof.
  intros H. apply existsb_exists in H. destruct H as (e & Hin & He).
  unfold count_events.
  assert (Hin' : In e (filter f tr)) by (apply filter_In; now split).
  destruct (filter f tr); [contradiction | cbn; lia].
Qed.

Lemma stop_clients_notifies_first (bot : Handle) (me : tid) :
  returns_after is_shutdown_notification me (as_task (stop_clients bot)).
Proof.
  cbn. apply returns_after_Do. now apply returns_after_call.
Qed.

Lemma stop_clients_closes_storage (bot : Handle) (me : tid) :
  returns_after is_storage_close me (as_task (stop_clients bot)).
Proof.
  cbn. apply returns_after_Do. apply returns_after_Await. intros o _.
  now apply returns_after_hit.
Qed.

Lemma stop_clients_stops_primary (bot : Handle) (me : tid) :
  returns_after (is_stopped bot) me (as_task (stop_clients bot)).
Proof.
  cbn. apply returns_after_Do. apply returns_after_Await. intros o _.
  apply returns_after_Do. apply returns_after_Await. intros [h|e] Hq.
  - exfalso. cbn in Hq. destruct (Handle_eq_dec bot bot); [discriminate | congruence].
  - constructor.
Qed.

(** X17.  The program exits cleanly only after the [stop_clients()] of
    the [finally] clause has run to its end: the operator has been told
    that the clients are being stopped, the storage has been closed, the
    stop of the primary client has returned, and [loop.stop()] is the last
    thing that happened. *)
Theorem clean_exit_after_complete_cleanup
  (CLIENTS_CONFIG : dict Z conf) (env : call -> list event -> outcome)
  (sched1 sched2 : list sched_item) (L : Loop) :
  program CLIENTS_CONFIG env sched1 sched2 = (L, Exited None) ->
  exists bot,
    make_bot CLIENTS_CONFIG = inl bot /\
    (1 <= shutdown_notifications (trace L))%nat /\
    (1 <= storage_closes (trace L))%nat /\
    (exists t h, In (EvRet t (CStop bot) (Ok h)) (trace L)) /\
    last (trace L) EvCloseConnections = EvLoopStop /\
    stopping L = true.
Proof.
  unfold program. destruct (make_bot CLIENTS_CONFIG) as [bot|e]; [|discriminate].
  unfold main_block.
  destruct (run_until_complete bot env (as_task (init CLIENTS_CONFIG bot)) sched1 initial_loop)
    as [L1 [r1|]]; [|discriminate].
  match goal with |- context [run_until_complete bot env (as_task (stop_clients bot)) sched2 ?X] =>
    set (L2 := X) end.
  destruct (run_until_complete bot env (as_task (stop_clients bot)) sched2 L2)
    as [L3 [[r3|e]|]] eqn:H3; try discriminate.
  intros Heq. injection Heq as <-. exists bot. split; [reflexivity|].
  pose proof (run_until_complete_returns_after bot env _ _ sched2 L2 L3 r3
                (stop_clients_notifies_first bot _) H3) as Hn.
  pose proof (run_until_complete_returns_after bot env _ _ sched2 L2 L3 r3
                (stop_clients_closes_storage bot _) H3) as Hc.
  pose proof (run_until_complete_returns_after bot env _ _ sched2 L2 L3 r3
                (stop_clients_stops_primary bot _) H3) as Hs.
  cbn [perform with_stopping emit trace stopping].
  unfold shutdown_notifications, storage_closes. rewrite !count_events_app.
  split; [apply existsb_count in Hn; lia|].
  split; [apply existsb_count in Hc; lia|].
  split; [|split; [apply last_last | reflexivity]].
  apply existsb_exists in Hs. destruct Hs as (ev & Hin & Hev).
  destruct ev as [| | |t c o| |]; try discriminate.
  destruct c as [|h'| | | | |]; try discriminate. destruct o as [h|]; [|discriminate].
  cbn in Hev. destruct (Handle_eq_dec bot h') as [<-|]; [|discriminate].
  exists t, h. apply in_or_app. now left.
Qed.

Lemma clean_exit_after_complete_cleanup_witness :
  let run := program config_all_valid collaborators
               [Tick 0; Tick 0; Tick 1; Tick 2; Tick 1; Tick 2; Tick 0; Tick 0; Tick 0]
               [Tick 5; Tick 5; Tick 5; Tick 5; Tick 5] in
  run = (fst run, Exited None) /\
  exists bot,
    make_bot config_all_valid = inl bot /\
    (1 <= shutdown_notifications (trace (fst run)))%nat /\
    (1 <= storage_closes (trace (fst run)))%nat /\
    (exists t h, In (EvRet t (CStop bot) (Ok h)) (trace (fst run))) /\
    last (trace (fst run)) EvCloseConnections = EvLoopStop /\
    stopping (fst run) = true.
Proof.
  intros run.
  assert (H : run = (fst run, Exited None)) by (vm_compute; reflexivity).
  split; [exact H|].
  exact (clean_exit_after_complete_cleanup config_all_valid collaborators
           [Tick 0; Tick 0; Tick 1; Tick 2; Tick 1; Tick 2; Tick 0; Tick 0; Tick 0]
           [Tick 5; Tick 5; Tick 5; Tick 5; Tick 5] (fst run) H).
Defined.

(* ================================================================== *)
(** ** The comprehension over the gathered results *)
(* ================================================================== *)

(** X19.  When every [start_client] task has returned a pair, the
    comprehension of [initialize_clients] drops none of them: it builds
    the dictionary that maps each identifier to its started client, in the
    order of the results, a later pair for the same identifier replacing
    an earlier one. *)
Theorem collect_clients_keeps_every_started_client
  (started : list (Z * Handle)) (acc : dict Z Handle) :
  collect_clients (map Some started) acc = Ret (update acc started).
Proof.
  revert acc. induction started as [|[client_id client] started IH]; intros acc.
  - reflexivity.
  - cbn [map collect_clients handle_truthy]. rewrite IH. reflexivity.
Qed.

(* ================================================================== *)
(** ** What has happened when [init] returns *)
(* ================================================================== *)

Section ReturnsAfterFacts.

Variable Q : event -> bool.
Variable me : tid.

Lemma returns_after_bind_left {A B} (p : coro A) (f : A -> coro B) :
  returns_after Q me p -> returns_after Q me (bind p f).
Proof.
  induction 1; cbn;
    [ constructor | now apply returns_after_hit | now apply returns_after_Do
    | now apply returns_after_GetClients | now apply returns_after_call
    | apply returns_after_Await; auto | now apply returns_after_created
    | now apply returns_after_CreateTask | now apply returns_after_Gather
    | now apply returns_after_AddDoneCallback ].
Qed.

Lemma returns_after_bind_right {A B} (p : coro A) (f : A -> coro B) :
  (forall a, returns_after Q me (f a)) -> returns_after Q me (bind p f).
Proof.
  intros Hf. induction p as [a|e|a k IH|k IH|c k IH|s k IH|ts k IH|t cb k IH]; cbn.
  - apply Hf.
  - constructor.
  - now apply returns_after_Do.
  - now apply returns_after_GetClients.
  - apply returns_after_Await. intros o _. apply IH.
  - now apply returns_after_CreateTask.
  - now apply returns_after_Gather.
  - now apply returns_after_AddDoneCallback.
Qed.

End ReturnsAfterFacts.

Section InitReturns.

Variable CLIENTS_CONFIG : dict Z conf.
Variable bot : Handle.
Variable me : tid.

Lemma init_returns_after_primary :
  returns_after (is_started bot) me (as_task (init CLIENTS_CONFIG bot)).
Proof.
  unfold as_task, init. apply returns_after_bind_left. apply returns_after_bind_left.
  apply returns_after_Await. intros [h|e] Hq; [|constructor].
  exfalso. cbn in Hq. destruct (Handle_eq_dec bot bot); [discriminate | congruence].
Qed.

Lemma init_returns_after_initialized :
  returns_after is_initialized me (as_task (init CLIENTS_CONFIG bot)).
Proof.
  unfold as_task, init. apply returns_after_bind_left.
  do 3 (apply returns_after_bind_right; intros _).
  apply returns_after_bind_left. now apply returns_after_hit.
Qed.

Lemma init_returns_after_cache_task :
  returns_after creates_cache_task me (as_task (init CLIENTS_CONFIG bot)).
Proof.
  unfold as_task, init. apply returns_after_bind_left.
  do 4 (apply returns_after_bind_right; intros _).
  apply returns_after_bind_left. now apply returns_after_created.
Qed.

Lemma init_returns_after_server_task :
  returns_after creates_server_task me (as_task (init CLIENTS_CONFIG bot)).
Proof.
  unfold as_task, init. apply returns_after_bind_left.
  do 4 (apply returns_after_bind_right; intros _).
  apply returns_after_bind_right; intros cache_task.
  do 2 (apply returns_after_bind_right; intros _).
  apply returns_after_bind_left. now apply returns_after_created.
Qed.

Lemma init_returns_after_idle :
  returns_after is_idle_return me (as_task (init CLIENTS_CONFIG bot)).
Proof.
  unfold as_task, init. apply returns_after_bind_left.
  do 4 (apply returns_after_bind_right; intros _).
  apply returns_after_bind_right; intros cache_task.
  do 5 (apply returns_after_bind_right; intros _).
  apply returns_after_bind_left. apply returns_after_Await. intros o Hq. discriminate.
Qed.

End InitReturns.

(** X20.  [run_until_complete(init())] returns normally only after the
    whole start-up has happened: the start of the primary client has
    returned, [initialize_clients] has returned, the cache updater and the
    web server have been given their tasks, and [idle()] has returned. *)
Theorem init_returns_after_complete_startup
  (CLIENTS_CONFIG : dict Z conf) (bot : Handle) (env : call -> list event -> outcome)
  (sched : list sched_item) (L L' : Loop) (r : task_result) :
  run_until_complete bot env (as_task (init CLIENTS_CONFIG bot)) sched L = (L', Some (inl r)) ->
  existsb (is_started bot) (trace L') = true /\
  In initialized_log (trace L') /\
  existsb creates_cache_task (trace L') = true /\
  existsb creates_server_task (trace L') = true /\
  existsb is_idle_return (trace L') = true.
Proof.
  intros Hrun.
  pose proof (run_until_complete_returns_after bot env _ _ sched L L' r
                (init_returns_after_primary CLIENTS_CONFIG bot _) Hrun) as H1.
  pose proof (run_until_complete_returns_after bot env _ _ sched L L' r
                (init_returns_after_initialized CLIENTS_CONFIG bot _) Hrun) as H2.
  pose proof (run_until_complete_returns_after bot env _ _ sched L L' r
                (init_returns_after_cache_task CLIENTS_CONFIG bot _) Hrun) as H3.
  pose proof (run_until_complete_returns_after bot env _ _ sched L L' r
                (init_returns_after_server_task CLIENTS_CONFIG bot _) Hrun) as H4.
  pose proof (run_until_complete_returns_after bot env _ _ sched L L' r
                (init_returns_after_idle CLIENTS_CONFIG bot _) Hrun) as H5.
  repeat split; auto.
  apply existsb_exists in H2. destruct H2 as (ev & Hin & Hev).
  destruct ev as [lvl m| | | | |]; try discriminate.
  destruct lvl; try discriminate. destruct m as [|[s| | | |] [|f m]]; try discriminate.
  cbn in Hev. apply String.eqb_eq in Hev. subst s. exact Hin.
Qed.

Lemma init_returns_after_complete_startup_witness :
  let run := run_until_complete bot0 collaborators (as_task (init config_all_valid bot0))
               [Tick 0; Tick 0; Tick 1; Tick 2; Tick 1; Tick 2; Tick 0; Tick 0; Tick 0]
               initial_loop in
  run = (fst run, Some (inl None)) /\
  existsb (is_started bot0) (trace (fst run)) = true /\
  In initialized_log (trace (fst run)) /\
  existsb creates_cache_task (trace (fst run)) = true /\
  existsb creates_server_task (trace (fst run)) = true /\
  existsb is_idle_return (trace (fst run)) = true.
Proof.
  intros run.
  assert (H : run = (fst run, Some (inl None))) by (vm_compute; reflexivity).
  split; [exact H|].
  exact (init_returns_after_complete_startup config_all_valid bot0 collaborators
           [Tick 0; Tick 0; Tick 1; Tick 2; Tick 1; Tick 2; Tick 0; Tick 0; Tick 0]
           initial_loop (fst run) None H).
Defined.

(* ================================================================== *)
(** ** Where the members of the pool come from *)
(* ================================================================== *)

Lemma seq_start_inj (n n' len j : nat) :
  (j < len)%nat -> seq n len = seq n' len -> n = n'.
Proof.
  intros Hj Heq. destruct len as [|len]; [lia|]. cbn in Heq. now injection Heq.
Qed.

Section Origin.

Variable CLIENTS_CONFIG : dict Z conf.
Variable bot : Handle.
Variable env : call -> list event -> outcome.

Lemma child_origin_ext (L L' : Loop) (t : tid) (ic : Z * conf) :
  task_state t L' = task_state t L ->
  (forall e, In e (trace L) -> In e (trace L')) ->
  child_origin L t ic -> child_origin L' t ic.
Proof.
  unfold child_origin. intros -> Htr.
  destruct (task_state t L) as [[p|c k|[[[i h]|]|e]]|]; auto.
  intros (cl & Hcl & Hin). exists cl. split; auto.
Qed.

(** The main task is not in [gather]. *)
Lemma not_gathering_origin (L : Loop) :
  (forall ts k, task_state 0 L <> Some (Runnable (Gather ts k))) ->
  children_origin CLIENTS_CONFIG L.
Proof. intros Hng n k H0. exfalso. eapply Hng; eauto. Qed.

Lemma benign_not_gathering (L : Loop) (st : tstate) :
  task_state 0 L = Some st -> benign_state st ->
  forall ts k, task_state 0 L <> Some (Runnable (Gather ts k)).
Proof.
  intros Hst Hb ts k Heq. rewrite Hst in Heq. injection Heq as ->.
  cbn in Hb. inversion Hb.
Qed.

(** In the gather stage the main task names its children. *)
Lemma gathering_stage (L : Loop) (n : nat) (k : list task_result + exn -> coro task_result)
  (j : nat) (ic : Z * conf) :
  startup_inv CLIENTS_CONFIG bot L ->
  task_state 0 L =
    Some (Runnable (Gather (seq n (List.length (secondary_confs CLIENTS_CONFIG))) k)) ->
  nth_error (secondary_confs CLIENTS_CONFIG) j = Some ic ->
  (0 < n)%nat /\
  (forall j ic, nth_error (secondary_confs CLIENTS_CONFIG) j = Some ic ->
                child_state L (n + j) ic) /\
  others_benign (fun t => t = 0%nat \/ is_child CLIENTS_CONFIG n t) L.
Proof.
  intros [Hs|[Hs|[Hs|Hs]]] H0 Hic.
  - exfalso. destruct Hs as (H0' & _). rewrite H0', main_task_unfold in H0. discriminate.
  - exfalso. destruct Hs as (H0' & _). rewrite H0' in H0. discriminate.
  - destruct Hs as (n' & Hn & H0' & Hch & Hob & _).
    rewrite H0' in H0. injection H0 as Hseq _.
    assert (Hj : (j < List.length (secondary_confs CLIENTS_CONFIG))%nat).
    { apply nth_error_Some. congruence. }
    apply (seq_start_inj _ _ _ j Hj) in Hseq. subst n'. auto.
  - exfalso. destruct Hs as (Hob & _).
    apply (benign_not_gathering L _ H0 (Hob 0%nat _ H0 (fun x => x)) _ _ H0).
Qed.

(** A turn of a benign task. *)
Lemma quiet_origin (me : tid) (L L' : Loop) :
  startup_inv CLIENTS_CONFIG bot L ->
  quiet_step me L L' -> takes_turn me L ->
  (forall st', task_state me L' = Some st' -> benign_state st') ->
  children_origin CLIENTS_CONFIG L -> children_origin CLIENTS_CONFIG L'.
Proof.
  intros Hinv Hq Htt Hme Hco n k H0'.
  destruct (Nat.eq_dec me 0) as [->|Hne].
  { exfalso. apply (benign_not_gathering L' _ H0' (Hme _ H0') _ _ H0'). }
  destruct (Nat.lt_ge_cases 0 (List.length (tasks L))) as [Hlt|Hge].
  2:{ exfalso. apply (benign_not_gathering L' _ H0' (qs_new Hq Hge H0') _ _ H0'). }
  assert (H0 : task_state 0 L =
               Some (Runnable (Gather (seq n (List.length (secondary_confs CLIENTS_CONFIG))) k))).
  { rewrite <- H0'. symmetry. apply (qs_old Hq); auto. }
  destruct (Hco n k H0) as [Hne0 Hco'].
  split; [exact Hne0|]. intros j ic Hic.
  destruct (gathering_stage L n k j ic Hinv H0 Hic) as (Hn & Hch & Hob).
  pose proof (Hch j ic Hic) as Hcs.
  destruct (qs_trace Hq) as (evs & Htr & _).
  apply (child_origin_ext L).
  - apply (qs_old Hq).
    + intros Heq. apply (takes_turn_not_child me (n + j) L ic Htt Hcs). now symmetry.
    + eapply child_state_lt; eauto.
  - intros e Hin. rewrite Htr. apply in_or_app. now left.
  - now apply (Hco' j ic Hic).
Qed.

Lemma fresh_main_origin (L : Loop) :
  stage_fresh CLIENTS_CONFIG bot L -> children_origin CLIENTS_CONFIG (step bot env 0 L).
Proof.
  intros Hs. destruct (stage_fresh_main CLIENTS_CONFIG bot env L Hs) as (H0 & _).
  apply not_gathering_origin. intros ts k Heq. rewrite H0 in Heq. discriminate.
Qed.

Lemma primary_main_origin (L : Loop) :
  stage_primary CLIENTS_CONFIG bot L -> children_origin CLIENTS_CONFIG (step bot env 0 L).
Proof.
  intros (H0 & Hob & Hmc & Hwl & Hns & Hni).
  pose proof (task_state_lt _ _ _ H0) as Hlt.
  unfold step. rewrite H0. cbv zeta.
  destruct (env (CStart bot) (trace L)) as [h|e].
  - rewrite after_start_ok. cbn [advance].
    unfold start_secondaries.
    destruct (negb (truthy (additional_clients_conf CLIENTS_CONFIG))) eqn:Hc.
    + change (as_task (LOGGER_info [Lit "No additional Bot Clients found, Using default client"] ;; init_tail))
        with (Do (Log INFO [Lit "No additional Bot Clients found, Using default client"])
                (Do (Log INFO [Lit "Starting cache manager..."]) (as_task init_tail_quiet))).
      cbn [advance].
      match goal with |- context [advance bot 0 (as_task init_tail_quiet) ?X] => set (L2 := X) end.
      destruct (advance_benign bot _ benign_init_tail_quiet 0%nat L2 Hlt) as [_ (st & Hst & Hb)].
      apply not_gathering_origin. now apply (benign_not_gathering _ st).
    + match goal with |- context [as_task (bind (bind (create_start_tasks ?l) ?G) ?T)] =>
        change (as_task (bind (bind (create_start_tasks l) G) T))
          with ((fun p => as_task (bind (bind p G) T)) (create_start_tasks l))
      end.
      rewrite advance_create_start_tasks by reflexivity.
      cbv beta.
      match goal with |- context [advance bot 0 _ (add_start_tasks bot _ ?X)] => set (L3 := X) end.
      change (children_origin CLIENTS_CONFIG
                (advance bot 0
                   (Gather (seq (List.length (tasks L)) (List.length (secondary_confs CLIENTS_CONFIG)))
                      after_gather)
                   (add_start_tasks bot (secondary_confs CLIENTS_CONFIG) L3))).
      destruct (add_start_tasks_facts bot (secondary_confs CLIENTS_CONFIG) L3)
        as (Fmc & Fwl & Ftr & Flen & Fold & Fnew).
      change (List.length (tasks L3)) with (List.length (tasks L)) in *.
      set (L4 := add_start_tasks bot (secondary_confs CLIENTS_CONFIG) L3) in *.
      set (n := List.length (tasks L)) in *.
      assert (Hch : forall j ic, nth_error (secondary_confs CLIENTS_CONFIG) j = Some ic ->
                                 child_state L4 (n + j) ic).
      { intros j ic Hj. unfold child_state. now rewrite (Fnew j ic Hj). }
      assert (Hgs : gather_status (seq n (List.length (secondary_confs CLIENTS_CONFIG))) L4 = None).
      { pose proof (first_exception_children _ _ _ Hch) as Hfe.
        pose proof (truthy_nonempty _ Hc) as Hne.
        change (secondary_confs CLIENTS_CONFIG <> []) in Hne.
        destruct (secondary_confs CLIENTS_CONFIG) as [|ic0 l] eqn:Hl; [congruence|].
        cbn [List.length seq] in *.
        eapply gather_status_runnable; [|exact Hfe].
        specialize (Fnew 0%nat ic0 eq_refl). rewrite Nat.add_0_r in Fnew. exact Fnew. }
      cbn [advance]. rewrite Hgs.
      intros n' k' H0'. split; [exact (truthy_nonempty _ Hc)|]. intros j ic Hic.
      assert (Hj : (j < List.length (secondary_confs CLIENTS_CONFIG))%nat).
      { apply nth_error_Some. congruence. }
      rewrite task_state_set_same in H0' by (rewrite Flen; lia).
      injection H0' as Hseq _. apply (seq_start_inj _ _ _ j Hj) in Hseq. subst n'.
      unfold child_origin. rewrite task_state_set_other by (unfold n; lia).
      now rewrite (Fnew j ic Hic).
  - rewrite after_start_err. cbn [advance]. rewrite finish_eq.
    apply not_gathering_origin. intros ts k Heq.
    rewrite task_state_set_same in Heq by exact Hlt. discriminate.
Qed.

Lemma gather_main_origin (L : Loop) :
  stage_gather CLIENTS_CONFIG bot L ->
  children_origin CLIENTS_CONFIG L -> children_origin CLIENTS_CONFIG (step bot env 0 L).
Proof.
  intros (n & Hn & H0 & Hch & Hob & Hmc & [Hl0 Hl] & Hsh & Hni & Hcr) Hco.
  pose proof (task_state_lt _ _ _ H0) as Hlt.
  unfold step. rewrite H0. cbn [advance].
  destruct (gather_status_children _ _ _ Hch) as [Hg | (rs & Hg & Hrs & Hfin)]; rewrite Hg.
  - now rewrite set_state_id by exact H0.
  - rewrite after_gather_results. unfold merge_clients.
    rewrite collect_clients_collected.
    destruct (collected rs []) as [d|] eqn:Hd.
    + cbn [bind as_task do]. cbn [advance].
      unfold get_clients. cbn [bind advance].
      set (L1 := perform (UpdateClients d) L).
      assert (Hfinal : forall m,
                 children_origin CLIENTS_CONFIG
                   (advance bot 0
                      (Do (Log INFO m)
                         (Do (Log INFO [Lit "Starting cache manager..."])
                            (as_task init_tail_quiet))) L1)).
      { intros m. cbn [advance].
        match goal with |- context [advance bot 0 (as_task init_tail_quiet) ?X] =>
          set (L2 := X) end.
        destruct (advance_benign bot _ benign_init_tail_quiet 0%nat L2 Hlt)
          as [_ (st & Hst & Hb)].
        apply not_gathering_origin. now apply (benign_not_gathering _ st). }
      destruct (1 <? len (multi_clients L1))%nat; apply Hfinal.
    + change (children_origin CLIENTS_CONFIG
                (advance bot 0
                   (Raise (TypeError "cannot unpack non-iterable NoneType object")) L)).
      cbn [advance]. rewrite finish_eq.
      apply not_gathering_origin. intros ts k Heq.
      rewrite task_state_set_same in Heq by exact Hlt. discriminate.
Qed.

(** A turn of the [start_client] task of the entry [ic]. *)
Lemma child_step_origin (n j : nat) (ic : Z * conf) (L : Loop) :
  (0 < n)%nat ->
  startup_inv CLIENTS_CONFIG bot L ->
  nth_error (secondary_confs CLIENTS_CONFIG) j = Some ic ->
  child_state L (n + j) ic ->
  task_state 0 L =
    Some (Runnable (Gather (seq n (List.length (secondary_confs CLIENTS_CONFIG))) after_gather)) ->
  children_origin CLIENTS_CONFIG L ->
  children_origin CLIENTS_CONFIG (step bot env (n + j) L).
Proof.
  intros Hn Hinv Hic Hcs H0 Hco n' k' H0'.
  pose proof (task_state_lt _ _ _ H0) as Hlt0.
  destruct (step_frame bot env (n + j) L) as ([evs Htr] & Hold & _).
  rewrite Hold in H0' by lia.
  destruct (Hco n' k' H0') as [Hne0 Hco'].
  split; [exact Hne0|]. intros j' ic' Hic'.
  assert (Hj' : (j' < List.length (secondary_confs CLIENTS_CONFIG))%nat).
  { apply nth_error_Some. congruence. }
  assert (Heq : n' = n).
  { rewrite H0 in H0'. injection H0' as Hseq _.
    symmetry. now apply (seq_start_inj _ _ _ j' Hj') in Hseq. }
  subst n'.
  pose proof (Hco' j' ic' Hic') as Hor.
  destruct (Nat.eq_dec j' j) as [->|Hne].
  2:{ apply (child_origin_ext L).
      - apply Hold; [lia|].
        destruct (gathering_stage L n k' j' ic' Hinv H0' Hic') as (_ & Hch & _).
        eapply child_state_lt. apply (Hch j' ic' Hic').
      - intros e Hin. rewrite Htr. apply in_or_app. now left.
      - exact Hor. }
  rewrite Hic in Hic'. injection Hic' as <-.
  pose proof (child_state_lt _ _ _ Hcs) as Hlt.
  unfold child_origin in Hor |- *. unfold child_state in Hcs. unfold step.
  destruct (task_state (n + j) L) as [[p|c k|[[[i h]|]|e]]|] eqn:Hts; try contradiction.
  - subst p. rewrite advance_start_client.
    destruct (client_args (fst ic) (snd ic)) as [cl|e] eqn:Hcl.
    + rewrite task_state_set_same by exact Hlt. now exists cl.
    + rewrite finish_eq, task_state_set_same by exact Hlt. exact I.
  - destruct Hcs as [_ ->]. destruct Hor as (cl & Hcl & ->). cbv zeta.
    rewrite advance_start_k.
    destruct (env (CStart cl) (trace L)) as [h|e]; rewrite finish_eq, task_state_set_same
      by exact Hlt.
    + exists cl. split; [exact Hcl|]. cbn. apply in_or_app. right. now left.
    + exact I.
  - rewrite Hts. exact Hor.
  - rewrite Hts. exact I.
Qed.

Lemma children_origin_step (t : tid) (L : Loop) :
  startup_inv CLIENTS_CONFIG bot L ->
  children_origin CLIENTS_CONFIG L ->
  children_origin CLIENTS_CONFIG (step bot env t L).
Proof.
  intros Hinv Hco.
  destruct (task_state t L) as [st|] eqn:Hts; [|unfold step; now rewrite Hts].
  assert (Hbenign : benign_state st -> children_origin CLIENTS_CONFIG (step bot env t L)).
  { intros Hb. eapply benign_tick; eauto.
    intros L' Hq Htt Hb'. eapply quiet_origin; eauto. }
  pose proof Hinv as [Hs|[Hs|[Hs|Hs]]].
  - destruct (Nat.eq_dec t 0) as [->|Hne]; [now apply fresh_main_origin|].
    apply Hbenign. destruct Hs as (_ & Hob & _). eapply Hob; eauto.
  - destruct (Nat.eq_dec t 0) as [->|Hne]; [now apply primary_main_origin|].
    apply Hbenign. destruct Hs as (_ & Hob & _). eapply Hob; eauto.
  - destruct (Nat.eq_dec t 0) as [->|Hne]; [now apply gather_main_origin|].
    destruct Hs as (n & Hn & H0 & Hch & Hob & _).
    destruct (le_lt_dec n t) as [Hge|Hlt];
      [destruct (lt_dec t (n + List.length (secondary_confs CLIENTS_CONFIG))) as [Hlt|Hge']|].
    + destruct (nth_error (secondary_confs CLIENTS_CONFIG) (t - n)) as [ic|] eqn:Hj;
        [|apply nth_error_None in Hj; lia].
      pose proof (Hch _ _ Hj) as Hc.
      replace t with (n + (t - n))%nat by lia.
      now apply (child_step_origin n (t - n) ic L).
    + apply Hbenign. eapply Hob; eauto. unfold is_child. lia.
    + apply Hbenign. eapply Hob; eauto. unfold is_child. lia.
  - apply Hbenign. destruct Hs as (Hob & _). eapply Hob; eauto.
Qed.

Lemma started_for_more (ic : Z * conf) (h : Handle) (tr evs : list event) :
  started_for ic h tr -> started_for ic h (tr ++ evs).
Proof.
  intros (t & cl & Hcl & Hin). exists t, cl. split; [exact Hcl|].
  apply in_or_app. now left.
Qed.

Lemma pool_origin_effect (L L' : Loop) (evs : list event) :
  trace L' = trace L ++ evs ->
  startup_effect CLIENTS_CONFIG bot L L' evs ->
  children_origin CLIENTS_CONFIG L ->
  pool_origin CLIENTS_CONFIG bot L -> pool_origin CLIENTS_CONFIG bot L'.
Proof.
  intros Htr Heff Hco Hpo.
  assert (Hsame : multi_clients L' = multi_clients L -> pool_origin CLIENTS_CONFIG bot L').
  { intros Hmc i h Hin. rewrite Hmc in Hin. destruct (Hpo i h Hin) as [Hp|(cf & Hg & Hs)].
    - now left.
    - right. exists cf. split; [exact Hg|]. rewrite Htr. now apply started_for_more. }
  destruct Heff as [Hmc Hwl Hni Hnp _ _ | Hmc0 Hwl0 Hmc Hwl Hps Hsec _
                   | i0 Hmc0 Hmc Hi Hwl Hni Hnp _ _
                   | d Hmc0 Hmc Hd Hwl Hnp Hor Hsum _ _ _]; auto.
  - intros i h Hin. rewrite Hmc in Hin. destruct Hin as [Heq|[]].
    injection Heq as <- <-. now left.
  - intros i h Hin. rewrite Hmc in Hin. destruct Hin as [Heq|Hin].
    + injection Heq as <- <-. now left.
    + right. destruct (Hor Hco i h Hin) as (cf & Hcf & Hs). exists cf. split.
      * apply in_get; [apply additional_clients_conf_NoDup | exact Hcf].
      * rewrite Htr. now apply started_for_more.
Qed.

Lemma origin_run (sched : list sched_item) (L : Loop) :
  startup_inv CLIENTS_CONFIG bot L ->
  children_origin CLIENTS_CONFIG L -> pool_origin CLIENTS_CONFIG bot L ->
  pool_origin CLIENTS_CONFIG bot (run_schedule bot env sched L).
Proof.
  intros Hinv Hco Hpo.
  apply (run_schedule_ind bot env
           (fun L => startup_inv CLIENTS_CONFIG bot L /\ children_origin CLIENTS_CONFIG L /\
                     pool_origin CLIENTS_CONFIG bot L)).
  - intros t L0 (H1 & H2 & H3). split; [now apply startup_inv_step|].
    split; [now apply children_origin_step|].
    destruct (startup_step_effect CLIENTS_CONFIG bot env t L0 H1) as (evs & Htr & Heff).
    eapply pool_origin_effect; eauto.
  - split; [exact Hinv | split; [exact Hco | exact Hpo]].
Qed.

Lemma origin_reachable (sched : list sched_item) :
  pool_origin CLIENTS_CONFIG bot
    (run_schedule bot env sched (startup_loop CLIENTS_CONFIG bot)).
Proof.
  apply origin_run.
  - left. apply startup_inv_initial.
  - apply not_gathering_origin. intros ts k Heq. cbn in Heq. discriminate.
  - intros i h [].
Qed.

End Origin.

(** X21.  In every state that the loop can reach while it runs [init()],
    whatever the schedule, the signals and the collaborators do, a member
    of the pool is either the primary client, under 0, or it sits under
    the identifier of a secondary entry of the configuration and is what
    [start()] has returned for the client built from the parameters of
    that entry. *)
Theorem pool_holds_the_started_clients
  (CLIENTS_CONFIG : dict Z conf) (bot : Handle) (env : call -> list event -> outcome)
  (sched : list sched_item) (i : Z) (h : Handle) :
  let L := run_schedule bot env sched (startup_loop CLIENTS_CONFIG bot) in
  In (i, h) (multi_clients L) ->
  (i = 0%Z /\ h = bot) \/
  exists client_conf t cl,
    get i (additional_clients_conf CLIENTS_CONFIG) = Some client_conf /\
    client_args i client_conf = inl cl /\
    In (EvRet t (CStart cl) (Ok h)) (trace L).
Proof.
  intros L Hin.
  destruct (origin_reachable CLIENTS_CONFIG bot env sched i h Hin)
    as [Hp|(cf & Hg & t & cl & Hcl & Hev)]; [now left|].
  right. now exists cf, t, cl.
Qed.

Lemma pool_holds_the_started_clients_witness :
  let L := run_schedule bot0 collaborators
             [Tick 0; Tick 0; Tick 1; Tick 2; Tick 1; Tick 2; Tick 0]
             (startup_loop config_all_valid bot0) in
  In (2%Z, Started 2) (multi_clients L) /\
  ((2%Z = 0%Z /\ Started 2 = bot0) \/
   exists client_conf t cl,
     get 2%Z (additional_clients_conf config_all_valid) = Some client_conf /\
     client_args 2 client_conf = inl cl /\
     In (EvRet t (CStart cl) (Ok (Started 2))) (trace L)).
Proof.
  intros L.
  assert (H : In (2%Z, Started 2) (multi_clients L)).
  { vm_compute. right; right; left. reflexivity. }
  split; [exact H|].
  exact (pool_holds_the_started_clients config_all_valid bot0 collaborators
           [Tick 0; Tick 0; Tick 1; Tick 2; Tick 1; Tick 2; Tick 0] 2%Z (Started 2) H).
Defined.

(* ================================================================== *)
(** ** The summary of [initialize_clients] *)
(* ================================================================== *)

Section Summary.

Variable CLIENTS_CONFIG : dict Z conf.
Variable bot : Handle.
Variable env : call -> list event -> outcome.

Lemma summarized_effect (L L' : Loop) (evs : list event) :
  trace L' = trace L ++ evs ->
  startup_effect CLIENTS_CONFIG bot L L' evs ->
  children_origin CLIENTS_CONFIG L ->
  summarized CLIENTS_CONFIG L -> summarized CLIENTS_CONFIG L'.
Proof.
  intros Htr Heff Hco Hsd. unfold summarized in *. rewrite Htr.
  assert (Hold : not_initialized evs ->
                 In initialized_log (trace L ++ evs) ->
                 In (summary_log CLIENTS_CONFIG) (trace L ++ evs)).
  { intros Hni Hin. apply in_or_app. left. apply Hsd. eapply initialized_before; eauto. }
  destruct Heff as [Hmc Hwl Hni Hnp _ _ | Hmc0 Hwl0 Hmc Hwl Hps Hsec _
                   | i0 Hmc0 Hmc Hi Hwl Hni Hnp _ _
                   | d Hmc0 Hmc Hd Hwl Hnp Hor Hsum _ _ _]; auto.
  - intros Hin. apply in_or_app. apply in_app_or in Hin. destruct Hin as [Hin|Hin].
    + left. now apply Hsd.
    + right. destruct (Hsec Hin) as [Hnil Hlog]. unfold summary_log. now rewrite Hnil.
  - intros _. apply in_or_app. right. destruct (Hsum Hco) as [Hne Hlog].
    assert (Hlen : List.length d = List.length (secondary_confs CLIENTS_CONFIG)).
    { rewrite <- (length_map fst d). change (map fst d) with (keys d).
      now rewrite Hd, length_map. }
    unfold summary_log. rewrite Hlen in Hlog.
    destruct (secondary_confs CLIENTS_CONFIG); [congruence | exact Hlog].
Qed.

Lemma summarized_run (sched : list sched_item) (L : Loop) :
  startup_inv CLIENTS_CONFIG bot L ->
  children_origin CLIENTS_CONFIG L -> summarized CLIENTS_CONFIG L ->
  summarized CLIENTS_CONFIG (run_schedule bot env sched L).
Proof.
  intros Hinv Hco Hsd.
  apply (run_schedule_ind bot env
           (fun L => startup_inv CLIENTS_CONFIG bot L /\ children_origin CLIENTS_CONFIG L /\
                     summarized CLIENTS_CONFIG L)).
  - intros t L0 (H1 & H2 & H3). split; [now apply startup_inv_step|].
    split; [now apply children_origin_step|].
    destruct (startup_step_effect CLIENTS_CONFIG bot env t L0 H1) as (evs & Htr & Heff).
    eapply summarized_effect; eauto.
  - split; [exact Hinv | split; [exact Hco | exact Hsd]].
Qed.

End Summary.

(** X22.  In every reachable state in which [initialize_clients] has
    returned, its summary is in the log and fits the configuration: "No
    additional Bot Clients found, Using default client" when there is no
    secondary entry, and otherwise "Multi-Client Mode Enabled with n
    clients", [n] being the number of secondary entries plus one. *)
Theorem summary_fits_the_configuration
  (CLIENTS_CONFIG : dict Z conf) (bot : Handle) (env : call -> list event -> outcome)
  (sched : list sched_item) :
  let L := run_schedule bot env sched (startup_loop CLIENTS_CONFIG bot) in
  In initialized_log (trace L) ->
  In (summary_log CLIENTS_CONFIG) (trace L).
Proof.
  intros L. apply summarized_run.
  - left. apply startup_inv_initial.
  - apply not_gathering_origin. intros ts k Heq. cbn in Heq. discriminate.
  - intros [].
Qed.

Lemma summary_fits_the_configuration_witness :
  let L := run_schedule bot0 collaborators
             [Tick 0; Tick 0; Tick 1; Tick 2; Tick 1; Tick 2; Tick 0]
             (startup_loop config_all_valid bot0) in
  In initialized_log (trace L) /\
  In (multi_client_log 3) (trace L).
Proof.
  intros L.
  assert (H : In initialized_log (trace L)).
  { vm_compute. do 13 right. left. reflexivity. }
  split; [exact H|].
  exact (summary_fits_the_configuration config_all_valid bot0 collaborators
           [Tick 0; Tick 0; Tick 1; Tick 2; Tick 1; Tick 2; Tick 0] H).
Defined.

(* ================================================================== *)
(** ** The pool after a complete initialization *)
(* ================================================================== *)

(** X23.  In every reachable state in which [initialize_clients] has
    returned, every secondary entry of the configuration has its client in
    the pool: under the identifier of the entry the pool holds what
    [start()] has returned for the client built from the parameters of
    that entry. *)
Theorem every_secondary_is_in_the_pool
  (CLIENTS_CONFIG : dict Z conf) (bot : Handle) (env : call -> list event -> outcome)
  (sched : list sched_item) (i : Z) (client_conf : conf) :
  let L := run_schedule bot env sched (startup_loop CLIENTS_CONFIG bot) in
  In initialized_log (trace L) ->
  get i (additional_clients_conf CLIENTS_CONFIG) = Some client_conf ->
  exists h t cl,
    get i (multi_clients L) = Some h /\
    client_args i client_conf = inl cl /\
    In (EvRet t (CStart cl) (Ok h)) (trace L).
Proof.
  intros L Hin Hconf.
  destruct (pool_inv_reachable CLIENTS_CONFIG bot env sched) as (_ & Hmerged & _).
  fold L in Hmerged. destruct (Hmerged Hin) as (d & Hmc & Hd).
  change (map fst (secondary_confs CLIENTS_CONFIG))
    with (keys (additional_clients_conf CLIENTS_CONFIG)) in Hd.
  assert (Hi : In i (keys (additional_clients_conf CLIENTS_CONFIG))).
  { apply get_some_in in Hconf. unfold keys.
    change i with (fst (i, client_conf)). now apply in_map. }
  assert (Hne : i <> 0%Z).
  { intros ->. now apply (additional_clients_conf_not_primary CLIENTS_CONFIG). }
  rewrite <- Hd in Hi. destruct (in_keys_get i d Hi) as [h Hh].
  assert (Hget : get i (multi_clients L) = Some h).
  { rewrite Hmc. cbn. destruct (Z.eqb_spec i 0); [contradiction | exact Hh]. }
  pose proof (get_some_in _ _ _ Hget) as Hmem.
  destruct (origin_reachable CLIENTS_CONFIG bot env sched i h Hmem)
    as [[Hz _]|(cf & Hcf & t & cl & Hcl & Hev)]; [contradiction|].
  rewrite Hconf in Hcf. injection Hcf as <-.
  now exists h, t, cl.
Qed.

Lemma every_secondary_is_in_the_pool_witness :
  let L := run_schedule bot0 collaborators
             [Tick 0; Tick 0; Tick 1; Tick 2; Tick 1; Tick 2; Tick 0]
             (startup_loop config_all_valid bot0) in
  In initialized_log (trace L) /\
  get 1%Z (additional_clients_conf config_all_valid) = Some valid_conf /\
  exists h t cl,
    get 1%Z (multi_clients L) = Some h /\
    client_args 1 valid_conf = inl cl /\
    In (EvRet t (CStart cl) (Ok h)) (trace L).
Proof.
  intros L.
  assert (H : In initialized_log (trace L)).
  { vm_compute. do 13 right. left. reflexivity. }
  assert (Hc : get 1%Z (additional_clients_conf config_all_valid) = Some valid_conf)
    by reflexivity.
  split; [exact H|]. split; [exact Hc|].
  exact (every_secondary_is_in_the_pool config_all_valid bot0 collaborators
           [Tick 0; Tick 0; Tick 1; Tick 2; Tick 1; Tick 2; Tick 0] 1%Z valid_conf H Hc).
Defined.

(* ================================================================== *)
(** ** Signals and the shutdown sequence *)
(* ================================================================== *)

Lemma startup_loop_no_shutdown (CLIENTS_CONFIG : dict Z conf) (bot : Handle) :
  no_shutdown (startup_loop CLIENTS_CONFIG bot).
Proof.
  split; [|split]; try reflexivity.
  intros [|t] st Hst; cbn in Hst.
  - injection Hst as <-. apply starts_only_init.
  - destruct t; discriminate.
Qed.

Lemma stop_free_no_shutdown_task (tr : list event) (t : tid) (sig : Z) :
  forallb stop_free tr = true -> ~ In (EvCreateTask t (TShutdown sig)) tr.
Proof.
  intros Hall Hin. rewrite forallb_forall in Hall. specialize (Hall _ Hin). discriminate.
Qed.

(** X24.  While the loop runs [init()], whatever the schedule and the
    collaborators do and however many signals are delivered, nothing of a
    shutdown happens: no [shutdown] task is created, the operator is not
    told that the clients are being stopped, the storage is not closed,
    no client is stopped, and [loop.stop()] is not called.  (The handler
    cannot be called the way the interpreter calls it.) *)
Theorem signals_start_no_shutdown
  (CLIENTS_CONFIG : dict Z conf) (bot : Handle) (env : call -> list event -> outcome)
  (sched : list sched_item) :
  let L := run_schedule bot env sched (startup_loop CLIENTS_CONFIG bot) in
  (forall t sig, ~ In (EvCreateTask t (TShutdown sig)) (trace L)) /\
  stopping L = false /\
  shutdown_notifications (trace L) = 0%nat /\ storage_closes (trace L) = 0%nat /\
  (forall h, stop_attempts h (trace L) = 0%nat) /\
  count_events is_loop_stop (trace L) = 0%nat.
Proof.
  intros L.
  destruct (run_no_shutdown bot env sched _ (startup_loop_no_shutdown CLIENTS_CONFIG bot))
    as (_ & Htr & Hsp).
  split; [intros t sig; now apply stop_free_no_shutdown_task|].
  split; [exact Hsp|]. now apply stop_free_counts.
Qed.

Section CountingFacts.

Variable cnt : event -> bool.
Variable bot : Handle.
Variable env : call -> list event -> outcome.

Hypothesis Hcnt : sequence_counter cnt.

Lemma owes_eq {A} (me : tid) (n m : nat) (p : coro A) :
  owes cnt me n p -> n = m -> owes cnt me m p.
Proof. now intros H <-. Qed.

Lemma owes_bind {A B} (me : tid) (n : nat) (p : coro A) (f : A -> coro B) :
  owes cnt me n p -> (forall a, owes cnt me 0 (f a)) -> owes cnt me n (bind p f).
Proof.
  intros Hp Hf. induction Hp as [a|e|a k n Hk IH|k n Hk IH|c k n Hc Hk IH]; cbn [bind].
  - apply Hf.
  - constructor.
  - constructor; auto.
  - constructor. exact IH.
  - constructor; auto.
Qed.

Lemma owes_try_except {A} (me : tid) (n : nat) (p : coro A) (h : exn -> coro A) :
  owes cnt me n p -> (forall e, owes cnt me 0 (h e)) -> owes cnt me n (try_except p h).
Proof.
  intros Hp Hh. induction Hp as [a|e|a k n Hk IH|k n Hk IH|c k n Hc Hk IH];
    cbn [try_except].
  - constructor.
  - apply Hh.
  - constructor; auto.
  - constructor. exact IH.
  - constructor; auto.
Qed.

Lemma owes_log {A} (me : tid) (n : nat) (lvl : level) (m : msg) (k : coro A) :
  owes cnt me n k -> owes cnt me n (Do (Log lvl m) k).
Proof.
  intros Hk. eapply owes_eq; [constructor; exact Hk|].
  cbn. now rewrite (sc_free cnt Hcnt).
Qed.

Lemma owes_stop_each (me : tid) (l : list (Z * Handle)) : owes cnt me 0 (stop_each l).
Proof.
  induction l as [|[client_id client] rest IH]; cbn [stop_each]; [constructor|].
  apply owes_bind; [|intros _; exact IH].
  destruct (client_id =? 0)%Z; cbn [negb]; [constructor|].
  apply owes_try_except.
  - unfold await. cbn [bind].
    eapply owes_eq; [constructor|].
    + intros o. apply (sc_ret cnt Hcnt).
    + intros [h|e]; cbn [resume_with bind]; [|constructor].
      unfold LOGGER_info, do. apply owes_log. constructor.
    + now rewrite (sc_stop cnt Hcnt).
  - intros e. unfold LOGGER_error, do. cbn [bind]. apply owes_log.
    unfold send_error.
    eapply owes_eq; [constructor|].
    + intros o. apply (sc_ret cnt Hcnt).
    + intros o. constructor.
    + now rewrite (sc_free cnt Hcnt).
Qed.

(** One run of [stop_clients] leaves the notification and the close of
    the storage once each, whatever the pool holds and however the stops
    end. *)
Lemma owes_stop_clients (me : tid) :
  owes cnt me (per_run cnt me) (as_task (stop_clients bot)).
Proof.
  unfold as_task, stop_clients, per_run. cbn -[stop_each].
  apply owes_log.
  eapply owes_eq.
  - apply owes_Await; [intros o; apply (sc_ret cnt Hcnt)|].
    intros _. apply owes_Do.
    apply owes_Await; [intros o; apply (sc_ret cnt Hcnt)|].
    intros [h|e]; cbn -[stop_each].
    + apply owes_GetClients. intros d.
      apply owes_bind; [apply owes_stop_each | intros; constructor].
    + constructor.
  - cbn [action_count]. rewrite (sc_stop cnt Hcnt). cbn [Nat.b2n]. lia.
Qed.

Lemma count_perform (a : action) (L : Loop) :
  count_events cnt (trace (perform a L)) =
  (count_events cnt (trace L) + action_count cnt a)%nat.
Proof.
  destruct a; cbn [perform action_count trace emit with_stopping];
    try apply count_events_snoc; lia.
Qed.

(** A turn of the task that runs the sequence: it creates no task and
    leaves the other tasks as they are. *)
Lemma advance_owes (p : coro task_result) (me : tid) (n : nat) :
  owes cnt me n p ->
  forall L,
    (me < List.length (tasks L))%nat ->
    List.length (tasks (advance bot me p L)) = List.length (tasks L) /\
    (forall t, t <> me -> task_state t (advance bot me p L) = task_state t L) /\
    exists n' st,
      task_state me (advance bot me p L) = Some st /\
      owes_state cnt me n' st /\
      (count_events cnt (trace (advance bot me p L)) + n' =
       count_events cnt (trace L) + n)%nat.
Proof.
  induction 1 as [a|e|a k n Hk IH|k n Hk IH|c k n Hc Hk IH]; intros L Hme;
    cbn [advance].
  - rewrite finish_eq. split; [apply set_state_length|].
    split; [intros t Hne; now apply task_state_set_other|].
    exists 0%nat, (Finished (inl a)).
    split; [now apply task_state_set_same|]. split; reflexivity.
  - rewrite finish_eq. split; [apply set_state_length|].
    split; [intros t Hne; now apply task_state_set_other|].
    exists 0%nat, (Finished (inr e)).
    split; [now apply task_state_set_same|]. split; reflexivity.
  - destruct (IH (perform a L)) as (H2 & H3 & n' & st & H4 & H5 & H6).
    + now rewrite tasks_perform.
    + split; [now rewrite H2, tasks_perform|].
      split; [intros t Hne; rewrite H3 by exact Hne; apply task_state_perform|].
      exists n', st. split; [exact H4|]. split; [exact H5|].
      rewrite H6, count_perform. lia.
  - now apply IH.
  - split; [apply (set_state_length me _ (emit _ L))|].
    split; [intros t Hne; now apply (task_state_set_other me t _ (emit _ L))|].
    exists n, (Waiting c k).
    split; [now apply (task_state_set_same me _ (emit _ L))|].
    split; [split; assumption|].
    cbn [set_state with_tasks emit trace]. rewrite count_events_snoc. lia.
Qed.

(** *** The other tasks while the sequence runs *)

Lemma cleanup_set_state (total : nat) (m me : tid) (st : tstate) (L : Loop) :
  me <> m -> starts_only_state st ->
  cleanup_inv cnt total m L -> cleanup_inv cnt total m (set_state me st L).
Proof.
  intros Hne Hst (Hts & n & stm & Hm & Ho & Hsum). split.
  - intros t st' Ht Hst'. destruct (Nat.eq_dec me t) as [->|Hne'].
    + pose proof (task_state_lt _ _ _ Hst') as Hlt. rewrite set_state_length in Hlt.
      rewrite task_state_set_same in Hst' by exact Hlt. now injection Hst' as <-.
    + rewrite task_state_set_other in Hst' by exact Hne'. eapply Hts; eauto.
  - exists n, stm. split; [|now split].
    rewrite task_state_set_other by exact Hne. exact Hm.
Qed.

Lemma cleanup_emit (total : nat) (m : tid) (e : event) (L : Loop) :
  stop_free e = true ->
  cleanup_inv cnt total m L -> cleanup_inv cnt total m (emit e L).
Proof.
  intros He (Hts & n & stm & Hm & Ho & Hsum). split; [exact Hts|].
  exists n, stm. split; [exact Hm|]. split; [exact Ho|].
  cbn [emit trace]. rewrite count_events_snoc, (sc_free cnt Hcnt _ He). cbn. lia.
Qed.

Lemma cleanup_perform (total : nat) (m : tid) (a : action) (L : Loop) :
  stop_free_action a = true ->
  cleanup_inv cnt total m L -> cleanup_inv cnt total m (perform a L).
Proof.
  intros Ha HL. destruct a; try discriminate.
  - now apply cleanup_emit.
  - exact HL.
  - exact HL.
  - exact HL.
Qed.

Lemma cleanup_add_task (total : nat) (m : tid) (s : task_spec) (L : Loop) :
  stop_free_spec s = true ->
  cleanup_inv cnt total m L -> cleanup_inv cnt total m (add_task bot s L).
Proof.
  intros Hs (Hts & n & stm & Hm & Ho & Hsum). split.
  - intros t st Hne Hst. apply task_state_add_task_inv in Hst.
    destruct Hst as [Hst|[_ ->]]; [eapply Hts; eauto|].
    now apply starts_only_task_body.
  - exists n, stm. split.
    + rewrite task_state_add_task_old; [exact Hm | eapply task_state_lt; eauto].
    + split; [exact Ho|].
      unfold add_task. cbn [emit trace with_tasks].
      rewrite count_events_snoc, (sc_free cnt Hcnt); [cbn; lia|]. exact Hs.
Qed.

Lemma cleanup_add_callback (total : nat) (m t : tid) (cb : callback) (L : Loop) :
  cleanup_inv cnt total m L -> cleanup_inv cnt total m (add_callback t cb L).
Proof.
  intros (Hts & n & stm & Hm & Ho & Hsum).
  destruct (add_callback_clients t cb L) as (_ & _ & Htr' & _ & Hst').
  split.
  - intros t' st Hne Hst. rewrite Hst' in Hst. eapply Hts; eauto.
  - exists n, stm. rewrite Hst', Htr'. now repeat split.
Qed.

(** A turn of a task that takes no part in a shutdown. *)
Lemma advance_bystander (total : nat) (m : tid) (p : coro task_result) :
  starts_only p ->
  forall (me : tid) (L : Loop),
    me <> m -> cleanup_inv cnt total m L -> cleanup_inv cnt total m (advance bot me p L).
Proof.
  induction 1 as [a|e|a k Ha Hk IH|k Hk IH|c k Hc Hk IH|s k Hs Hk IH|ts k Hk IH|t cb k Hk IH];
    intros me L Hne HL; cbn [advance].
  - rewrite finish_eq. now apply cleanup_set_state.
  - rewrite finish_eq. now apply cleanup_set_state.
  - apply IH; [exact Hne|]. now apply cleanup_perform.
  - now apply IH.
  - apply cleanup_set_state; [exact Hne | now split |]. now apply cleanup_emit.
  - apply IH; [exact Hne|]. now apply cleanup_add_task.
  - destruct (gather_status ts L) as [r|]; [now apply IH|].
    apply cleanup_set_state; [exact Hne | | exact HL]. now constructor.
  - apply IH; [exact Hne|]. now apply cleanup_add_callback.
Qed.

Lemma cleanup_step (total : nat) (m t : tid) (L : Loop) :
  cleanup_inv cnt total m L -> cleanup_inv cnt total m (step bot env t L).
Proof.
  intros HL. destruct (Nat.eq_dec t m) as [->|Hne].
  - destruct HL as (Hts & n & stm & Hm & Ho & Hsum).
    pose proof (task_state_lt _ _ _ Hm) as Hlt.
    unfold step. rewrite Hm. destruct stm as [p|c k|r].
    + destruct (advance_owes p m n Ho L Hlt) as (_ & Hold & n' & st & H1 & H2 & H3).
      split.
      * intros t st' Hne Hst'. rewrite Hold in Hst' by exact Hne. eapply Hts; eauto.
      * exists n', st. split; [exact H1|]. split; [exact H2|]. lia.
    + destruct Ho as [Hret Ho]. cbv zeta. set (o := env c (trace L)).
      destruct (advance_owes (k o) m n (Ho o) (emit (EvRet m c o) L) Hlt)
        as (_ & Hold & n' & st & H1 & H2 & H3).
      split.
      * intros t st' Hne Hst'. rewrite Hold in Hst' by exact Hne. eapply Hts; eauto.
      * exists n', st. split; [exact H1|]. split; [exact H2|].
        cbn [emit trace] in H3. rewrite count_events_snoc, Hret in H3. cbn in H3. lia.
    + split; [exact Hts|]. exists n, (Finished r). now repeat split.
  - unfold step. destruct (task_state t L) as [[p|c k|r]|] eqn:Hst; auto.
    + apply advance_bystander; auto. destruct HL as (Hts & _). apply (Hts _ _ Hne Hst).
    + destruct HL as (Hts & Hrest). destruct (Hts _ _ Hne Hst) as [Hc Hk].
      apply advance_bystander; auto.
      apply cleanup_emit; [exact Hc|]. now split.
Qed.

(** The counted events are not events of the start-up. *)
Lemma stop_free_uncounted (tr : list event) :
  forallb stop_free tr = true -> count_events cnt tr = 0%nat.
Proof.
  induction tr as [|e tr IH]; cbn [forallb]; intros Hall; [reflexivity|].
  apply andb_prop in Hall. destruct Hall as [He Htr].
  rewrite count_events_cons, (sc_free cnt Hcnt _ He), (IH Htr). reflexivity.
Qed.

(** The [__main__] block: whatever the schedules, the signals and the
    collaborators do, the counted events of the whole run are those of
    the one run of [stop_clients] in the [finally] clause, followed by
    [loop.stop()] when that run has returned; none of them is missing
    when the process exits cleanly. *)
Lemma main_block_counts (CLIENTS_CONFIG : dict Z conf) (sched1 sched2 : list sched_item) :
  let run := main_block CLIENTS_CONFIG bot env sched1 sched2 in
  exists m,
    (count_events cnt (trace (fst run)) <= per_run cnt m + Nat.b2n (cnt EvLoopStop))%nat /\
    (snd run = Exited None ->
     count_events cnt (trace (fst run)) = (per_run cnt m + Nat.b2n (cnt EvLoopStop))%nat).
Proof.
  unfold main_block.
  destruct (run_until_complete_init_prefix CLIENTS_CONFIG bot env sched1) as [n1 Hpre].
  destruct (run_until_complete bot env (as_task (init CLIENTS_CONFIG bot)) sched1 initial_loop)
    as [L1 r1].
  cbn [fst] in Hpre.
  assert (H1 : no_shutdown L1).
  { rewrite Hpre. apply run_no_shutdown. apply startup_loop_no_shutdown. }
  destruct r1 as [r|].
  2:{ exists 0%nat. cbn [fst snd]. destruct H1 as (_ & Htr & _).
      rewrite (stop_free_uncounted _ Htr). split; [lia | discriminate]. }
  set (L2 := match r with
             | inl _ => L1
             | inr e => perform (Log ERROR [Lit "Traceback: "; Exc e]) L1
             end).
  assert (H2 : no_shutdown L2).
  { unfold L2. destruct r as [a|e]; [exact H1|]. now apply no_shutdown_perform. }
  unfold run_until_complete.
  set (m := List.length (tasks L2)).
  set (L0 := with_tasks (tasks L2 ++ [Task (Runnable (as_task (stop_clients bot))) []])
               (with_stopping false L2)).
  assert (H0 : cleanup_inv cnt (per_run cnt m) m L0).
  { destruct H2 as (Hts & Htr & _). split.
    - intros t st Hne Hst. apply (Hts t st).
      unfold task_state in *. unfold L0 in Hst. cbn [with_tasks tasks] in Hst.
      destruct (lt_dec t m) as [Hlt|Hge].
      + now rewrite nth_error_app1 in Hst by exact Hlt.
      + exfalso. destruct (nth_error (tasks L2 ++ _) t) as [tk|] eqn:Hn; [|discriminate].
        assert (Hlen : (t < List.length (tasks L2 ++
                             [Task (Runnable (as_task (stop_clients bot))) []]))%nat).
        { apply nth_error_Some. congruence. }
        rewrite length_app in Hlen. cbn in Hlen. unfold m in *. lia.
    - exists (per_run cnt m), (Runnable (as_task (stop_clients bot))). split.
      + unfold task_state, L0. cbn [with_tasks tasks].
        rewrite nth_error_app2 by (unfold m; lia). unfold m. now rewrite Nat.sub_diag.
      + split; [apply owes_stop_clients|].
        unfold L0. cbn [with_tasks with_stopping trace].
        now rewrite (stop_free_uncounted _ Htr). }
  pose proof (run_loop_ind bot env (cleanup_inv cnt (per_run cnt m) m) m
                (cleanup_step (per_run cnt m) m) sched2 L0 H0) as H3.
  destruct (run_loop bot env m sched2 L0) as [L3 raised]. cbn [fst] in H3.
  destruct H3 as (_ & n & st & Hst & Ho & Hsum).
  exists m. destruct raised as [e|].
  { cbn [fst snd]. split; [lia | discriminate]. }
  rewrite Hst. destruct st as [p|c k|[a|e]].
  - destruct (stopping L3); cbn [fst snd]; (split; [lia | discriminate]).
  - destruct (stopping L3); cbn [fst snd]; (split; [lia | discriminate]).
  - cbn [fst snd]. cbn in Ho. subst n.
    cbn [perform with_stopping emit trace]. rewrite count_events_snoc.
    split; [lia|]. intros _. lia.
  - cbn [fst snd]. split; [lia | discriminate].
Qed.

End CountingFacts.

Lemma notification_counter : sequence_counter is_shutdown_notification.
Proof.
  constructor; try reflexivity.
  intros e He. destruct e as [| |t c| | |]; try reflexivity.
  destruct c as [| |m| | | |]; try reflexivity.
  destruct m as [|[s| | | |] [|f m]]; try reflexivity.
  cbn in He |- *. now destruct (String.eqb s "Stopping all clients ...").
Qed.

Lemma storage_close_counter : sequence_counter is_storage_close.
Proof.
  constructor; try reflexivity.
  intros e He. destruct e; try reflexivity. discriminate.
Qed.

Lemma loop_stop_counter : sequence_counter is_loop_stop.
Proof.
  constructor; try reflexivity.
  intros e He. destruct e; try reflexivity. discriminate.
Qed.

Lemma shutdown_task_counter : sequence_counter creates_shutdown_task.
Proof.
  constructor; try reflexivity.
  intros e He. destruct e as [|t s| | | |]; try reflexivity.
  destruct s; try reflexivity. discriminate.
Qed.

(** X25.  Whatever the configuration, the schedules, the collaborators
    and the signals that are delivered while the loop runs, the program
    never runs a step of the shutdown sequence twice: the operator is
    told at most once that the clients are being stopped, the storage is
    closed at most once, [loop.stop()] is called at most once, and no
    [shutdown] task is ever created.  When the process exits cleanly
    each of the three has happened exactly once. *)
Theorem shutdown_steps_never_repeat
  (CLIENTS_CONFIG : dict Z conf) (env : call -> list event -> outcome)
  (sched1 sched2 : list sched_item) :
  let run := program CLIENTS_CONFIG env sched1 sched2 in
  (shutdown_notifications (trace (fst run)) <= 1)%nat /\
  (storage_closes (trace (fst run)) <= 1)%nat /\
  (count_events is_loop_stop (trace (fst run)) <= 1)%nat /\
  count_events creates_shutdown_task (trace (fst run)) = 0%nat /\
  (snd run = Exited None ->
   shutdown_notifications (trace (fst run)) = 1%nat /\
   storage_closes (trace (fst run)) = 1%nat /\
   count_events is_loop_stop (trace (fst run)) = 1%nat).
Proof.
  unfold program. destruct (make_bot CLIENTS_CONFIG) as [bot|e].
  2:{ cbn. split; [lia|]. split; [lia|]. split; [lia|]. split; [reflexivity|].
      discriminate. }
  destruct (main_block_counts is_shutdown_notification bot env notification_counter
              CLIENTS_CONFIG sched1 sched2) as (m1 & Hn & Hn').
  destruct (main_block_counts is_storage_close bot env storage_close_counter
              CLIENTS_CONFIG sched1 sched2) as (m2 & Hc & Hc').
  destruct (main_block_counts is_loop_stop bot env loop_stop_counter
              CLIENTS_CONFIG sched1 sched2) as (m3 & Hl & Hl').
  destruct (main_block_counts creates_shutdown_task bot env shutdown_task_counter
              CLIENTS_CONFIG sched1 sched2) as (m4 & Hs & _).
  cbv zeta in *. unfold per_run in *. cbn [Nat.b2n is_shutdown_notification is_storage_close
    is_loop_stop creates_shutdown_task String.eqb] in *.
  unfold shutdown_notifications, storage_closes.
  split; [exact Hn|]. split; [exact Hc|]. split; [exact Hl|]. split; [lia|].
  intros Hexit. split; [now apply Hn'|]. split; [now apply Hc' | now apply Hl'].
Qed.

Lemma shutdown_steps_never_repeat_witness :
  let run := program config_all_valid collaborators
               [Tick 0; Tick 0; Signal 15] [Tick 3; Tick 3; Tick 3] in
  snd run = Exited None /\
  shutdown_notifications (trace (fst run)) = 1%nat /\
  storage_closes (trace (fst run)) = 1%nat /\
  count_events is_loop_stop (trace (fst run)) = 1%nat.
Proof.
  intros run.
  assert (H : snd run = Exited None) by (vm_compute; reflexivity).
  split; [exact H|].
  exact (proj2 (proj2 (proj2 (proj2
           (shutdown_steps_never_repeat config_all_valid collaborators
              [Tick 0; Tick 0; Signal 15] [Tick 3; Tick 3; Tick 3])))) H).
Defined.
